(** * Priority queue, tasks and scheduler: a shallow embedding

    The development follows the three modules of the repository:
    - [src/task.py]            the [Task] record and its comparisons,
    - [src/priority_queue.py]  the array-backed binary heap [PriorityQueue],
    - [src/scheduler.py]       [TaskScheduler.schedule_tasks] and
                               [TaskScheduler.get_statistics].

    Python [int] is [Z], Python [float] is the binary64 [float] of the
    kernel, a Python [list] is a [list] addressed with stdpp's lookup
    [l !! i] and insert [<[i:=x]> l], and an exception is the [Raise]
    branch of [result]. *)

From Stdlib Require Import ZArith Lia Bool String Floats ZifyNat.
From stdpp Require Import base list sorting.

Local Open Scope Z_scope.
Local Open Scope nat_scope.

(** ** Exceptions *)

Inductive exn : Type :=
| IndexError
| ValueError.

Inductive result (A : Type) : Type :=
| Ok (a : A)
| Raise (e : exn).
Arguments Ok {A} a.
Arguments Raise {A} e.

(** ** src/task.py *)

Record Task : Type := mkTask {
  task_id : string;
  priority : Z;
  arrival_time : float;
  deadline : option float;
  execution_time : float;
  description : string
}.

(** What the right operand of a comparison may be: a [Task], or a value
    that is not a [Task] (an [int], [None], a [str]). *)
Inductive object : Type :=
| OTask (t : Task)
| OInt (n : Z)
| OStr (s : string)
| ONone.

Definition isinstance_Task (x : object) : bool :=
  match x with OTask _ => true | _ => false end.

Module TaskM.

(** [Task.__lt__], [__gt__], [__le__], [__ge__]: priority only. *)
Definition __lt__ (self other : Task) : bool := (priority self <? priority other)%Z.
Definition __gt__ (self other : Task) : bool := (priority self >? priority other)%Z.
Definition __le__ (self other : Task) : bool := (priority self <=? priority other)%Z.
Definition __ge__ (self other : Task) : bool := (priority self >=? priority other)%Z.

(** [Task.__eq__]: [False] for a non-[Task], else equality of priorities. *)
Definition __eq__ (self : Task) (other : object) : bool :=
  match other with
  | OTask o => (priority self =? priority o)%Z
  | _ => false
  end.

(** [Task.update_priority]: overwrite the [priority] attribute. *)
Definition update_priority (self : Task) (new_priority : Z) : Task :=
  mkTask (task_id self) new_priority (arrival_time self) (deadline self)
         (execution_time self) (description self).

(** [Task.is_overdue]: a deadline exists and has passed. *)
Definition is_overdue (self : Task) (current_time : float) : bool :=
  match deadline self with
  | None => false
  | Some d => PrimFloat.ltb d current_time
  end.

(** [max(0.0, deadline - current_time)], or [None] without a deadline. *)
Definition time_until_deadline (self : Task) (current_time : float)
  : option float :=
  match deadline self with
  | None => None
  | Some d =>
      let left := (d - current_time)%float in
      Some (if PrimFloat.ltb 0 left then left else 0%float)
  end.

End TaskM.

(** ** src/priority_queue.py: the heap over an arbitrary item type

    [key] and [is_max_heap] are the attributes fixed by [__init__]; the
    mutable attribute [self.heap] is the list threaded through every
    operation. *)

Section PriorityQueue.

Context {T : Type}.
Variable key : T -> Z.
Variable is_max_heap : bool.

(** [__init__]: the empty heap. *)
Definition init : list T := [].

(** [_compare]: [True] if [a] should be above [b]. *)
Definition _compare (a b : T) : bool :=
  let val_a := key a in
  let val_b := key b in
  if is_max_heap then (val_a >? val_b)%Z else (val_a <? val_b)%Z.

(** [_compare(self.heap[i], self.heap[j])]; both indices are in range
    wherever the source evaluates it. *)
Definition compare_at (h : list T) (i j : nat) : bool :=
  match h !! i, h !! j with
  | Some a, Some b => _compare a b
  | _, _ => false
  end.

(** [heap[i], heap[j] = heap[j], heap[i]]: the right-hand side is read
    first, then [heap[i]] and [heap[j]] are assigned in that order. *)
Definition swap (h : list T) (i j : nat) : list T :=
  match h !! j, h !! i with
  | Some b, Some a => <[j := a]> (<[i := b]> h)
  | _, _ => h
  end.

(** [_heapify_up]: the [while index > 0] loop.  The index strictly
    decreases, so [index] iterations are enough ([fuel]). *)
Fixpoint heapify_up_loop (fuel : nat) (h : list T) (index : nat) : list T :=
  match fuel with
  | O => h
  | S fuel' =>
      if 0 <? index then
        let parent := (index - 1) / 2 in
        if compare_at h index parent
        then heapify_up_loop fuel' (swap h index parent) parent
        else h
      else h
  end.

Definition _heapify_up (h : list T) (index : nat) : list T :=
  heapify_up_loop index h index.

(** [_heapify_down]: the [while True] loop; [n] is read once before the
    loop.  The index strictly increases and stays below [n]. *)
Fixpoint heapify_down_loop (fuel : nat) (n : nat) (h : list T) (index : nat)
  : list T :=
  match fuel with
  | O => h
  | S fuel' =>
      let largest_or_smallest := index in
      let left := 2 * index + 1 in
      let right := 2 * index + 2 in
      let largest_or_smallest :=
        if (left <? n) && compare_at h left largest_or_smallest
        then left else largest_or_smallest in
      let largest_or_smallest :=
        if (right <? n) && compare_at h right largest_or_smallest
        then right else largest_or_smallest in
      if largest_or_smallest =? index then h
      else heapify_down_loop fuel' n (swap h index largest_or_smallest)
                             largest_or_smallest
  end.

Definition _heapify_down (h : list T) (index : nat) : list T :=
  let n := length h in
  heapify_down_loop n n h index.

(** The child chosen by one iteration of the loop. *)
Definition pick (n : nat) (h : list T) (k : nat) : nat :=
  let best := k in
  let best :=
    if (2 * k + 1 <? n) && compare_at h (2 * k + 1) best
    then 2 * k + 1 else best in
  if (2 * k + 2 <? n) && compare_at h (2 * k + 2) best
  then 2 * k + 2 else best.

(** [is_empty] and [size]. *)
Definition is_empty (h : list T) : bool := length h =? 0.

Definition size (h : list T) : nat := length h.

(** [insert]: append, then bubble up from the last index. *)
Definition insert (h : list T) (item : T) : list T :=
  let h := h ++ [item] in
  _heapify_up h (length h - 1).

(** [list.pop()]: remove and return the last element.  An operation
    that can raise returns its outcome together with the list as it
    is left. *)
Definition pop (h : list T) : result T * list T :=
  match last h with
  | Some x => (Ok x, take (length h - 1) h)
  | None => (Raise IndexError, h)
  end.

(** [peek]: [None] on an empty queue, else [self.heap[0]]. *)
Definition peek (h : list T) : result (option T) :=
  if is_empty h then Ok None
  else match h !! 0 with
       | Some x => Ok (Some x)
       | None => Raise IndexError
       end.

(** [extract_max]. *)
Definition extract_max (h : list T) : result T * list T :=
  if is_empty h then (Raise IndexError, h)
  else if length h =? 1 then pop h
  else
    match h !! 0 with
    | Some root =>
        match pop h with
        | (Ok x, h) =>
            let h := <[0 := x]> h in
            let h := _heapify_down h 0 in
            (Ok root, h)
        | (Raise e, h) => (Raise e, h)
        end
    | None => (Raise IndexError, h)
    end.

(** [extract_min]: a separate method with the same body. *)
Definition extract_min (h : list T) : result T * list T :=
  if is_empty h then (Raise IndexError, h)
  else if length h =? 1 then pop h
  else
    match h !! 0 with
    | Some root =>
        match pop h with
        | (Ok x, h) =>
            let h := <[0 := x]> h in
            let h := _heapify_down h 0 in
            (Ok root, h)
        | (Raise e, h) => (Raise e, h)
        end
    | None => (Raise IndexError, h)
    end.

End PriorityQueue.

(** ** The heap order *)

Section HeapOrder.

Context {T : Type}.
Variable key : T -> Z.
Variable is_max_heap : bool.

(** [a] may sit above [b]: parent priority [>=] child priority in a
    max-heap, [<=] in a min-heap. *)
Definition dominates (a b : T) : Prop :=
  if is_max_heap then (key a >= key b)%Z else (key a <= key b)%Z.

(** The binary-heap invariant on the backing list. *)
Definition heap_property (h : list T) : Prop :=
  forall i c p, 0 < i -> h !! i = Some c -> h !! ((i - 1) / 2) = Some p ->
                dominates p c.

(** The invariant with one hole, as [_heapify_up] sees it at index [k]:
    every parent-child pair not having [k] as the child is in order,
    and the parent of [k] may sit above the children of [k]. *)
Definition up_ok (h : list T) (k : nat) : Prop :=
  (forall i c p, 0 < i -> i <> k ->
                 h !! i = Some c -> h !! ((i - 1) / 2) = Some p ->
                 dominates p c) /\
  (forall i c g, 0 < k -> 0 < i -> (i - 1) / 2 = k ->
                 h !! i = Some c -> h !! ((k - 1) / 2) = Some g ->
                 dominates g c).

(** The invariant with one hole, as [_heapify_down] sees it at index
    [k]: every parent-child pair not having [k] as the parent is in
    order, and the parent of [k] may sit above the children of [k]. *)
Definition down_ok (h : list T) (k : nat) : Prop :=
  (forall i c p, 0 < i -> (i - 1) / 2 <> k ->
                 h !! i = Some c -> h !! ((i - 1) / 2) = Some p ->
                 dominates p c) /\
  (forall i c g, 0 < k -> 0 < i -> (i - 1) / 2 = k ->
                 h !! i = Some c -> h !! ((k - 1) / 2) = Some g ->
                 dominates g c).

(** The same invariant as a check that runs. *)
Definition heap_propertyb (h : list T) : bool :=
  forallb (fun i => negb (compare_at key is_max_heap h i ((i - 1) / 2)))
          (seq 1 (length h - 1)).

End HeapOrder.

(** ** Task objects held by reference

    A heap of tasks holds references: two names of one [Task] object see
    the same [priority], and [update_priority] on one of them is seen
    through the other.  [memory] maps each reference to the current
    state of the object; an item of the heap is a reference to a [Task]
    or a plain [int]. *)

Definition ref : Type := nat.

Definition memory : Type := ref -> Task.

Inductive item : Type :=
| ITask (r : ref)
| IInt (n : Z).

Definition deref (m : memory) (x : item) : object :=
  match x with
  | ITask r => OTask (m r)
  | IInt n => OInt n
  end.

(** The default key of [__init__]:
    [lambda x: x.priority if isinstance(x, Task) else x]. *)
Definition default_key (m : memory) (x : item) : Z :=
  match x with
  | ITask r => priority (m r)
  | IInt n => n
  end.

(** [a is b].  For two [int]s the scan of [list.index] accepts equality
    as well as identity, so equality of values stands for both. *)
Definition item_is (a b : item) : bool :=
  match a, b with
  | ITask r, ITask r' => r =? r'
  | IInt n, IInt k => (n =? k)%Z
  | _, _ => false
  end.

(** [a == b]: [Task.__eq__] when the left operand is a [Task]; [int]
    against [int] by value; [int == task] falls back to the reflected
    [task.__eq__(int)], which is [False]. *)
Definition item_eq (m : memory) (a b : item) : bool :=
  match a with
  | ITask r => TaskM.__eq__ (m r) (deref m b)
  | IInt n =>
      match b with
      | IInt k => (n =? k)%Z
      | ITask r' => TaskM.__eq__ (m r') (OInt n)
      end
  end.

(** [list.index(x)]: the first position whose element is [x] or equals
    [x]; [ValueError] when there is none. *)
Fixpoint list_index (m : memory) (h : list item) (x : item) : result nat :=
  match h with
  | [] => Raise ValueError
  | e :: h' =>
      if item_is e x || item_eq m e x then Ok 0
      else match list_index m h' x with
           | Ok i => Ok (S i)
           | Raise e => Raise e
           end
  end.

(** [item.update_priority(new_priority)] on the object behind [r]. *)
Definition store_priority (m : memory) (r : ref) (new_priority : Z) : memory :=
  fun r' => if r' =? r then TaskM.update_priority (m r') new_priority else m r'.

(** A queue built with the default key, together with the objects its
    items refer to. *)
Record queue : Type := mkQueue {
  mem : memory;
  heap : list item;
  max_mode : bool
}.

(** [increase_key]: find the index with [self.heap.index(item)], update
    the priority [if isinstance(item, Task)], bubble up from the index;
    [False] when the scan raises [ValueError]. *)
Definition increase_key (q : queue) (x : item) (new_priority : Z)
  : queue * bool :=
  match list_index (mem q) (heap q) x with
  | Raise _ => (q, false)
  | Ok index =>
      let m := match x with
               | ITask r => store_priority (mem q) r new_priority
               | IInt _ => mem q
               end in
      let h := _heapify_up (default_key m) (max_mode q) (heap q) index in
      (mkQueue m h (max_mode q), true)
  end.

(** [decrease_key]: the same, bubbling down from the index. *)
Definition decrease_key (q : queue) (x : item) (new_priority : Z)
  : queue * bool :=
  match list_index (mem q) (heap q) x with
  | Raise _ => (q, false)
  | Ok index =>
      let m := match x with
               | ITask r => store_priority (mem q) r new_priority
               | IInt _ => mem q
               end in
      let h := _heapify_down (default_key m) (max_mode q) (heap q) index in
      (mkQueue m h (max_mode q), true)
  end.

(** The other operations on a [queue]. *)
Definition q_insert (q : queue) (x : item) : queue :=
  mkQueue (mem q) (insert (default_key (mem q)) (max_mode q) (heap q) x)
          (max_mode q).

Definition q_extract_max (q : queue) : result item * queue :=
  let (r, h) := extract_max (default_key (mem q)) (max_mode q) (heap q) in
  (r, mkQueue (mem q) h (max_mode q)).

Definition q_extract_min (q : queue) : result item * queue :=
  let (r, h) := extract_min (default_key (mem q)) (max_mode q) (heap q) in
  (r, mkQueue (mem q) h (max_mode q)).

(** The memory in which the tasks of [l] were created one after the
    other: the reference [r] is the [r]-th task. *)
Definition objects (l : list Task) : memory :=
  fun r => nth r l (mkTask "" 0 0 None 1 "").

(** ** Sequences of operations on a queue *)

Inductive op : Type :=
| Insert (x : item)
| ExtractMax
| ExtractMin
| IncreaseKey (x : item) (new_priority : Z)
| DecreaseKey (x : item) (new_priority : Z).

(** The queue after one operation; an operation that raises or returns
    [False] leaves the queue as the method left it. *)
Definition apply_op (q : queue) (o : op) : queue :=
  match o with
  | Insert x => q_insert q x
  | ExtractMax => snd (q_extract_max q)
  | ExtractMin => snd (q_extract_min q)
  | IncreaseKey x p => fst (increase_key q x p)
  | DecreaseKey x p => fst (decrease_key q x p)
  end.

Definition run_ops (q : queue) (ops : list op) : queue :=
  fold_left apply_op ops q.

(** The invariant of a queue: the heap property under the priorities
    currently in memory. *)
Definition queue_ok (q : queue) : Prop :=
  heap_property (default_key (mem q)) (max_mode q) (heap q).

Definition queue_okb (q : queue) : bool :=
  heap_propertyb (default_key (mem q)) (max_mode q) (heap q).

(** [a] ranks at least as high as [b] in the mode of the heap. *)
Definition ranks_above (is_max_heap : bool) (a b : Z) : bool :=
  if is_max_heap then (b <=? a)%Z else (a <=? b)%Z.

(** The element at index [i] is the object [x] itself. *)
Definition item_is_at (h : list item) (i : nat) (x : item) : bool :=
  match h !! i with
  | Some e => item_is e x
  | None => false
  end.

(** [x] is nowhere in [h] but at index [i]. *)
Definition only_at (h : list item) (i : nat) (x : item) : bool :=
  forallb (fun j => (j =? i) || negb (item_is_at h j x)) (seq 0 (length h)).

(** When a key update does what its name says: the scan stops at the
    task itself, which is in the heap once, and the new priority moves
    the task the way the method bubbles it ([bubble_up] for
    [increase_key], towards the leaves for [decrease_key]).  An [int]
    item is never re-prioritised, and an item the scan does not find
    changes nothing. *)
Definition fits_update (bubble_up : bool) (q : queue) (x : item) (p : Z) : bool :=
  match x with
  | IInt _ => true
  | ITask r =>
      match list_index (mem q) (heap q) x with
      | Raise _ => true
      | Ok i =>
          item_is_at (heap q) i x && only_at (heap q) i x &&
          (if bubble_up
           then ranks_above (max_mode q) p (priority (mem q r))
           else ranks_above (max_mode q) (priority (mem q r)) p)
      end
  end.

Definition fits (q : queue) (o : op) : bool :=
  match o with
  | IncreaseKey x p => fits_update true q x p
  | DecreaseKey x p => fits_update false q x p
  | _ => true
  end.

(** Every operation of the sequence fits the queue it is applied to. *)
Fixpoint fits_run (q : queue) (ops : list op) : bool :=
  match ops with
  | [] => true
  | o :: ops' => fits q o && fits_run (apply_op q o) ops'
  end.

(** ** Draining a heap: [while not pq.is_empty(): out.append(pq.extract_max())] *)

Section Drain.

Context {T : Type}.
Variable key : T -> Z.
Variable is_max_heap : bool.

Fixpoint drain_loop (fuel : nat) (h : list T) (out : list T)
  : option (result (list T)) :=
  if is_empty h then Some (Ok out)
  else match fuel with
       | O => None
       | S fuel' =>
           match extract_max key is_max_heap h with
           | (Ok x, h') => drain_loop fuel' h' (out ++ [x])
           | (Raise e, _) => Some (Raise e)
           end
       end.

Definition drain (h : list T) : option (result (list T)) :=
  drain_loop (length h) h [].

(** Build a heap by inserting the items one by one. *)
Definition build (l : list T) : list T :=
  fold_left (insert key is_max_heap) l init.

End Drain.

(** ** src/scheduler.py *)

Module Result.
Record SchedulingResult : Type := mk {
  task_id : string;
  start_time : float;
  completion_time : float;
  deadline_met : bool;
  wait_time : float
}.
End Result.
Abbreviation SchedulingResult := Result.SchedulingResult.

Module Stats.
Record SchedulingStatistics : Type := mk {
  total_tasks : Z;
  completed_tasks : Z;
  deadline_met : Z;
  deadline_missed : Z;
  total_execution_time : float;
  average_wait_time : float;
  throughput : float
}.
End Stats.
Abbreviation SchedulingStatistics := Stats.SchedulingStatistics.

(** The scheduler only reads the tasks it is given, so its queue holds
    them as values, ordered by the default key [x.priority]. *)
Record TaskScheduler : Type := mkScheduler {
  priority_queue : list Task;
  current_time : float
}.

(** [TaskScheduler.__init__]. *)
Definition new_scheduler : TaskScheduler := mkScheduler init 0%float.

(** One iteration of the body of [while not self.priority_queue.is_empty()]
    for the extracted [task], at the clock [now]. *)
Definition run_task (now : float) (task : Task) : SchedulingResult :=
  let start_time := now in
  let wait_time := (start_time - arrival_time task)%float in
  let completion_time := (start_time + execution_time task)%float in
  let deadline_met :=
    match deadline task with
    | Some d => PrimFloat.leb completion_time d
    | None => true
    end in
  Result.mk (task_id task) start_time completion_time deadline_met wait_time.

(** The extraction loop of [schedule_tasks], returning the outcome and
    the scheduler as it is left; [None] only when [fuel] runs out before
    the queue is empty. *)
Fixpoint schedule_loop (fuel : nat) (self : TaskScheduler)
         (results : list SchedulingResult)
  : option (result (list SchedulingResult) * TaskScheduler) :=
  if is_empty (priority_queue self) then Some (Ok results, self)
  else match fuel with
       | O => None
       | S fuel' =>
           match extract_max priority true (priority_queue self) with
           | (Raise e, pq) => Some (Raise e, mkScheduler pq (current_time self))
           | (Ok task, pq) =>
               let result := run_task (current_time self) task in
               let results := results ++ [result] in
               schedule_loop fuel'
                 (mkScheduler pq (Result.completion_time result)) results
           end
       end.

(** [schedule_tasks]: reset the state, insert every task, run the loop. *)
Definition schedule_tasks (self : TaskScheduler) (tasks : list Task)
  : option (result (list SchedulingResult) * TaskScheduler) :=
  let self := mkScheduler init 0%float in
  let results := [] in
  let self :=
    fold_left
      (fun s task =>
         mkScheduler (insert priority true (priority_queue s) task)
                     (current_time s))
      tasks self in
  schedule_loop (length (priority_queue self)) self results.

(** [max] over a non-empty sequence of floats: the first item, replaced
    by each later item that is greater. *)
Definition float_max (first : float) (rest : list float) : float :=
  fold_left (fun m x => if PrimFloat.ltb m x then x else m) rest first.

(** [float(n)] for a count [n]. *)
Definition float_of_count (n : Z) : float :=
  PrimFloat.of_uint63 (Uint63.of_Z n).

Section Statistics.

(** The built-in [sum] over floats; how it rounds is the interpreter's
    business. *)
Variable float_sum : list float -> float.

Definition get_statistics (results : list SchedulingResult)
  : SchedulingStatistics :=
  match results with
  | [] => Stats.mk 0 0 0 0 0%float 0%float 0%float
  | first :: rest =>
      let total_tasks := Z.of_nat (length results) in
      let completed_tasks := Z.of_nat (length results) in
      let deadline_met :=
        fold_left Z.add
          (map (fun _ => 1%Z) (filter (fun r => Result.deadline_met r = true) results))
          0%Z in
      let deadline_missed := (total_tasks - deadline_met)%Z in
      let total_execution_time :=
        float_max (Result.completion_time first)
                  (map Result.completion_time rest) in
      let average_wait_time :=
        if (total_tasks >? 0)%Z
        then (float_sum (map Result.wait_time results)
              / float_of_count total_tasks)%float
        else 0%float in
      let throughput :=
        if PrimFloat.ltb 0 total_execution_time
        then (float_of_count completed_tasks / total_execution_time)%float
        else 0%float in
      Stats.mk total_tasks completed_tasks deadline_met deadline_missed
               total_execution_time average_wait_time throughput
  end.

End Statistics.

(** [sum] as it is documented: the items added left to right, starting
    from 0. *)
Definition plain_sum (l : list float) : float :=
  fold_left PrimFloat.add l 0%float.

(** ** The timeline the scheduler is meant to produce

    [timeline clock order results clock'] follows the wording of the
    specification: the tasks of [order] are run one after the other
    from [clock] on, each result starts at the clock, completes one
    execution time later, waited since its arrival, met its deadline if
    it has none or completed by it, and the clock moves to the
    completion time; [clock'] is the clock after the last task. *)
Inductive timeline : float -> list Task -> list SchedulingResult -> float -> Prop :=
| timeline_nil (clock : float) : timeline clock [] [] clock
| timeline_cons (clock : float) (t : Task) (ts : list Task)
                (r : SchedulingResult) (rs : list SchedulingResult)
                (clock' : float) :
    Result.task_id r = task_id t ->
    Result.start_time r = clock ->
    Result.completion_time r = (Result.start_time r + execution_time t)%float ->
    Result.wait_time r = (Result.start_time r - arrival_time t)%float ->
    Result.deadline_met r =
      match deadline t with
      | None => true
      | Some d => PrimFloat.leb (Result.completion_time r) d
      end ->
    timeline (Result.completion_time r) ts rs clock' ->
    timeline clock (t :: ts) (r :: rs) clock'.

(** Completion times that never go back: each one is greater than, or
    the same as, the one before it. *)
Definition never_decreases (l : list float) : Prop :=
  forall i a b, l !! i = Some a -> l !! (S i) = Some b ->
                PrimFloat.ltb a b = true \/ b = a.

(** [TaskScheduler.print_schedule(results)] returns nothing and changes
    nothing: it writes the table of [results] and the statistics of
    [results] to standard output.  The text is a function of [results]
    alone, so what is kept of a call is the call with its argument. *)
Inductive output : Type :=
| print_schedule (results : list SchedulingResult).

(** [simulate_scheduler(tasks, verbose)]: a fresh scheduler,
    [schedule_tasks], [print_schedule] when [verbose], then
    [get_statistics].  The outcome, and what was written to standard
    output on the way. *)
Definition simulate_scheduler_run (float_sum : list float -> float)
           (tasks : list Task) (verbose : bool)
  : option (result SchedulingStatistics * list output) :=
  let scheduler := new_scheduler in
  match schedule_tasks scheduler tasks with
  | None => None
  | Some (Raise e, _) => Some (Raise e, [])
  | Some (Ok results, scheduler) =>
      let stdout := if verbose then [print_schedule results] else [] in
      Some (Ok (get_statistics float_sum results), stdout)
  end.

(** What [simulate_scheduler(tasks, verbose)] returns. *)
Definition simulate_scheduler (float_sum : list float -> float)
           (tasks : list Task) (verbose : bool)
  : option (result SchedulingStatistics) :=
  option_map fst (simulate_scheduler_run float_sum tasks verbose).

(** ** src/heapsort.py *)

Section Heapsort.

Context {T : Type}.
Variable key : T -> Z.

(** [key(arr[a]) > key(arr[b])]; both indices are below [len(arr)]
    wherever the source evaluates it with [n <= len(arr)]. *)
Definition key_gt_at (arr : list T) (a b : nat) : bool :=
  match arr !! a, arr !! b with
  | Some x, Some y => (key x >? key y)%Z
  | _, _ => false
  end.

(** [_heapify(arr, n, i, key)]: the recursion follows one path down the
    heap of size [n], so [n] calls are enough ([fuel]). *)
Fixpoint heapify_rec (fuel : nat) (arr : list T) (n i : nat) : list T :=
  match fuel with
  | O => arr
  | S fuel' =>
      let largest := i in
      let left := 2 * i + 1 in
      let right := 2 * i + 2 in
      let largest :=
        if (left <? n) && key_gt_at arr left largest then left else largest in
      let largest :=
        if (right <? n) && key_gt_at arr right largest then right else largest in
      if negb (largest =? i)
      then heapify_rec fuel' (swap arr i largest) n largest
      else arr
  end.

Definition _heapify (arr : list T) (n i : nat) : list T :=
  heapify_rec n arr n i.

(** [_build_max_heap]: [for i in range(n // 2 - 1, -1, -1)]. *)
Definition _build_max_heap (arr : list T) : list T :=
  let n := length arr in
  fold_left (fun arr i => _heapify arr n i) (rev (seq 0 (n / 2))) arr.

(** The extraction loop of [heapsort]: [for i in range(n - 1, 0, -1)]. *)
Definition sort_down (arr : list T) : list T :=
  let n := length arr in
  fold_left (fun arr i => _heapify (swap arr 0 i) i 0) (rev (seq 1 (n - 1))) arr.

(** [heapsort(arr, key, inplace)]: the returned list, and the caller's
    list as the call leaves it. *)
Definition heapsort (arr : list T) (inplace : bool) : list T * list T :=
  match arr with
  | [] => (arr, arr)
  | _ =>
      let sorted := sort_down (_build_max_heap arr) in
      if inplace then (sorted, sorted) else (sorted, arr)
  end.

(** [heap_extract_max]: outcome and the list as it is left. *)
Definition heap_extract_max (arr : list T) : result T * list T :=
  match arr with
  | [] => (Raise IndexError, arr)
  | _ =>
      if length arr =? 1 then pop arr
      else
        match arr !! 0 with
        | Some max_val =>
            match pop arr with
            | (Ok x, arr) =>
                let arr := <[0 := x]> arr in
                (Ok max_val, _heapify arr (length arr) 0)
            | (Raise e, arr) => (Raise e, arr)
            end
        | None => (Raise IndexError, arr)
        end
  end.

(** [key(arr[a]) >= key(arr[b])]. *)
Definition key_ge_at (arr : list T) (a b : nat) : bool :=
  match arr !! a, arr !! b with
  | Some x, Some y => (key x >=? key y)%Z
  | _, _ => true
  end.

(** The [while i > 0] loop of [heap_insert]. *)
Fixpoint heap_insert_loop (fuel : nat) (arr : list T) (i : nat) : list T :=
  match fuel with
  | O => arr
  | S fuel' =>
      if 0 <? i then
        let parent := (i - 1) / 2 in
        if key_ge_at arr parent i then arr
        else heap_insert_loop fuel' (swap arr parent i) parent
      else arr
  end.

Definition heap_insert (arr : list T) (item : T) : list T :=
  let arr := arr ++ [item] in
  let i := length arr - 1 in
  heap_insert_loop i arr i.

End Heapsort.

(** ** src/comparison.py *)

(** The [while i < len(left) and j < len(right)] loop of [_merge]. *)
Fixpoint merge_loop (fuel : nat) (left right : list Z) (i j : nat)
         (result : list Z) : nat * nat * list Z :=
  match fuel with
  | O => (i, j, result)
  | S fuel' =>
      if (i <? length left) && (j <? length right) then
        match left !! i, right !! j with
        | Some a, Some b =>
            if (a <=? b)%Z
            then merge_loop fuel' left right (S i) j (result ++ [a])
            else merge_loop fuel' left right i (S j) (result ++ [b])
        | _, _ => (i, j, result)
        end
      else (i, j, result)
  end.

(** [_merge]: the loop, then [result.extend(left[i:])] and
    [result.extend(right[j:])]. *)
Definition _merge (left right : list Z) : list Z :=
  let '(i, j, result) :=
    merge_loop (length left + length right) left right 0 0 [] in
  (result ++ drop i left) ++ drop j right.

(** [merge_sort]: the recursion halves the list, so [len(arr)] levels
    are enough ([fuel]). *)
Fixpoint merge_sort_rec (fuel : nat) (arr : list Z) : list Z :=
  match fuel with
  | O => arr
  | S fuel' =>
      if length arr <=? 1 then arr
      else
        let mid := length arr / 2 in
        let left := merge_sort_rec fuel' (take mid arr) in
        let right := merge_sort_rec fuel' (drop mid arr) in
        _merge left right
  end.

Definition merge_sort (arr : list Z) : list Z :=
  merge_sort_rec (length arr) arr.

(** [generate_sorted_array(n)]: [list(range(n))], empty for [n <= 0]. *)
Definition generate_sorted_array (n : Z) : list Z :=
  map Z.of_nat (seq 0 (Z.to_nat n)).

(** [generate_reverse_sorted_array(n)]: [list(range(n, 0, -1))], empty
    for [n <= 0]. *)
Definition generate_reverse_sorted_array (n : Z) : list Z :=
  map Z.of_nat (rev (seq 1 (Z.to_nat n))).

(** A subscript [arr[i]] with a Python int: a negative index counts from
    the end, and an index outside [-len(arr), len(arr)) raises
    [IndexError].  The result is the position in the list. *)
Definition subscript (arr : list Z) (i : Z) : result nat :=
  let n := Z.of_nat (length arr) in
  if (0 <=? i)%Z && (i <? n)%Z then Ok (Z.to_nat i)
  else if (- n <=? i)%Z && (i <? 0)%Z then Ok (Z.to_nat (n + i))
  else Raise IndexError.

Definition getitem (arr : list Z) (i : Z) : result Z :=
  match subscript arr i with
  | Ok n => match arr !! n with
            | Some x => Ok x
            | None => Raise IndexError
            end
  | Raise e => Raise e
  end.

(** [arr[i], arr[j] = arr[j], arr[i]]: the right-hand side reads
    [arr[j]] and then [arr[i]]; the stores follow. *)
Definition swap_items (arr : list Z) (i j : Z) : result (list Z) :=
  match subscript arr j with
  | Raise e => Raise e
  | Ok nj =>
      match subscript arr i with
      | Raise e => Raise e
      | Ok ni => Ok (swap arr ni nj)
      end
  end.

(** [range(low, low + count)]. *)
Fixpoint range_from (j : Z) (count : nat) : list Z :=
  match count with
  | O => []
  | S count' => j :: range_from (j + 1) count'
  end.

Definition range (low high : Z) : list Z :=
  range_from low (Z.to_nat (high - low)).

(** One round of the [for j in range(low, high)] loop of [_partition];
    the state is the list and [i]. *)
Definition partition_step (pivot : Z) (st : result (list Z * Z)) (j : Z)
  : result (list Z * Z) :=
  match st with
  | Raise e => Raise e
  | Ok (arr, i) =>
      match getitem arr j with
      | Raise e => Raise e
      | Ok aj =>
          if (aj <=? pivot)%Z then
            let i := (i + 1)%Z in
            match swap_items arr i j with
            | Raise e => Raise e
            | Ok arr => Ok (arr, i)
            end
          else Ok (arr, i)
      end
  end.

(** [_partition(arr, low, high)]: the list afterwards and the returned
    index. *)
Definition _partition (arr : list Z) (low high : Z) : result (list Z * Z) :=
  match getitem arr high with
  | Raise e => Raise e
  | Ok pivot =>
      match fold_left (partition_step pivot) (range low high)
                      (Ok (arr, (low - 1)%Z)) with
      | Raise e => Raise e
      | Ok (arr, i) =>
          match swap_items arr (i + 1) high with
          | Raise e => Raise e
          | Ok arr => Ok (arr, (i + 1)%Z)
          end
      end
  end.

(** The [while stack] loop of [quicksort].  The head of [stack] is the
    top ([stack.pop()] takes it, [stack.append] puts one there).  [None]
    when [fuel] rounds did not empty the stack. *)
Fixpoint quicksort_loop (fuel : nat) (arr : list Z) (stack : list (Z * Z))
  : option (result (list Z)) :=
  match stack with
  | [] => Some (Ok arr)
  | (low, high) :: stack =>
      match fuel with
      | O => None
      | S fuel' =>
          if (low <? high)%Z then
            match _partition arr low high with
            | Raise e => Some (Raise e)
            | Ok (arr, pi) =>
                if (pi - low <? high - pi)%Z
                then quicksort_loop fuel' arr
                       ((low, pi - 1) :: (pi + 1, high) :: stack)%Z
                else quicksort_loop fuel' arr
                       ((pi + 1, high) :: (low, pi - 1) :: stack)%Z
            end
          else quicksort_loop fuel' arr stack
      end
  end.

(** [quicksort(arr, low, high)], [high = None] being the default: the
    list it returns.  With [high=None] this is a sorted copy and the
    caller's list is not touched; with [high] given it is the caller's
    list itself, sorted in place.  A range of [s] indices is done in at
    most [2 * s + 1] rounds of the loop. *)
Definition quicksort (arr : list Z) (low : Z) (high : option Z)
  : option (result (list Z)) :=
  let high :=
    match high with
    | Some high => high
    | None => (Z.of_nat (length arr) - 1)%Z
    end in
  quicksort_loop (2 * Z.to_nat (high - low + 1) + 1) arr [(low, high)].

(** ** What [quicksort] keeps while it runs *)

(** Position [n] lies in the index range [l..h]. *)
Definition inside (l h : Z) (n : nat) : Prop := (l <= Z.of_nat n <= h)%Z.

(** [arr'] is [arr] with the items at the positions [l..h] rearranged
    among themselves. *)
Definition seg_perm (l h : Z) (arr arr' : list Z) : Prop :=
  length arr' = length arr /\
  arr' ≡ₚ arr /\
  (forall n, ~ inside l h n -> arr' !! n = arr !! n) /\
  (forall n x, inside l h n -> arr' !! n = Some x ->
               exists m, inside l h m /\ arr !! m = Some x).

(** No two ranges on the stack share a position. *)
Fixpoint disjoint_stack (stack : list (Z * Z)) : Prop :=
  match stack with
  | [] => True
  | (lo, hi) :: stack' =>
      (forall lo' hi' n, (lo', hi') ∈ stack' ->
                         inside lo hi n -> ~ inside lo' hi' n) /\
      disjoint_stack stack'
  end.

(** Two positions of [L..H] are in order unless one range of the stack
    holds both. *)
Definition ordered_but (L H : Z) (stack : list (Z * Z)) (arr : list Z) : Prop :=
  forall n m x y,
    n < m -> inside L H n -> inside L H m ->
    arr !! n = Some x -> arr !! m = Some y ->
    (exists lo hi, (lo, hi) ∈ stack /\ inside lo hi n /\ inside lo hi m) \/
    (x <= y)%Z.

Definition quicksort_inv (arr0 : list Z) (L H : Z)
           (arr : list Z) (stack : list (Z * Z)) : Prop :=
  seg_perm L H arr0 arr /\
  (forall lo hi, (lo, hi) ∈ stack -> (L <= lo)%Z /\ (hi <= H)%Z) /\
  disjoint_stack stack /\
  ordered_but L H stack arr.

(** Rounds of the loop the stack still needs, at most. *)
Definition rounds (stack : list (Z * Z)) : nat :=
  foldr (fun '(lo, hi) r => 2 * Z.to_nat (hi - lo + 1) + 1 + r) 0 stack.

(** ** The heap order on the nodes from [s] on

    While [_build_max_heap] works its way up, only the nodes it has
    visited are in order with their children. *)

Section HeapFrom.

Context {T : Type}.
Variable key : T -> Z.
Variable is_max_heap : bool.

(** Every node of index [s] or more may sit above its children. *)
Definition heap_from (s : nat) (h : list T) : Prop :=
  forall i c p, 0 < i -> s <= (i - 1) / 2 ->
                h !! i = Some c -> h !! ((i - 1) / 2) = Some p ->
                dominates key is_max_heap p c.

(** The same with a hole at [k], as [_heapify] sees it. *)
Definition down_ok_from (s : nat) (h : list T) (k : nat) : Prop :=
  (forall i c p, 0 < i -> s <= (i - 1) / 2 -> (i - 1) / 2 <> k ->
                 h !! i = Some c -> h !! ((i - 1) / 2) = Some p ->
                 dominates key is_max_heap p c) /\
  (forall i c g, 0 < k -> s <= (k - 1) / 2 -> 0 < i -> (i - 1) / 2 = k ->
                 h !! i = Some c -> h !! ((k - 1) / 2) = Some g ->
                 dominates key is_max_heap g c).

End HeapFrom.

(** ** Binary64 numbers, for the clock of the scheduler

    [Prim2SF] gives the sign, mantissa and exponent of a float. *)

(** The mantissa [mx] with the exponent [ex] is the way binary64
    writes the number [mx * 2^ex]. *)
Definition canonical (mx : positive) (ex : Z) : Prop :=
  fexp prec emax (Z.pos (digits2_pos mx) + ex) = ex.

(** [r] is a number of positive sign that is not below the positive
    number of mantissa [mx] and exponent [ex]. *)
Definition not_below (mx : positive) (ex : Z) (r : spec_float) : Prop :=
  match r with
  | S754_finite false m e => (ex < e)%Z \/ (e = ex /\ (mx <= m)%positive)
  | S754_infinity false => True
  | _ => False
  end.

(** A binary64 number with the sign bit clear that is not NaN: [0.0],
    a positive number or [inf]. *)
Definition plus_signed (c : float) : Prop :=
  match Prim2SF c with
  | S754_nan => False
  | S754_zero s | S754_infinity s | S754_finite s _ _ => s = false
  end.

(** [execution_time >= 0], as the data model asks of every task. *)
Definition execution_times_ok (tasks : list Task) : Prop :=
  Forall (fun t => PrimFloat.leb 0 (execution_time t) = true) tasks.

(** * Properties *)

(** ** Index arithmetic of the array layout *)

Ltac index_arith := zify; Z.div_mod_to_equations; lia.

Lemma parent_lt (i : nat) : 0 < i -> (i - 1) / 2 < i.
Proof. intros. index_arith. Qed.

Lemma parent_left (i : nat) : (2 * i + 1 - 1) / 2 = i.
Proof. index_arith. Qed.

Lemma parent_right (i : nat) : (2 * i + 2 - 1) / 2 = i.
Proof. index_arith. Qed.

Lemma child_cases (i k : nat) :
  0 < i -> (i - 1) / 2 = k -> i = 2 * k + 1 \/ i = 2 * k + 2.
Proof. intros. index_arith. Qed.

(** ** Order and swap *)

Section HeapTheory.

Context {T : Type}.
Variable key : T -> Z.
Variable is_max_heap : bool.

Local Abbreviation cmp := (_compare key is_max_heap).
Local Abbreviation dom := (dominates key is_max_heap).
Local Abbreviation heap_ok := (heap_property key is_max_heap).

Lemma compare_false (a b : T) : cmp a b = false <-> dom b a.
Proof.
  unfold _compare, dominates. destruct is_max_heap.
  - rewrite Z.gtb_ltb, Z.ltb_ge. lia.
  - rewrite Z.ltb_ge. lia.
Qed.

Lemma compare_true (a b : T) : cmp a b = true -> dom a b.
Proof.
  unfold _compare, dominates. destruct is_max_heap.
  - rewrite Z.gtb_ltb, Z.ltb_lt. lia.
  - rewrite Z.ltb_lt. lia.
Qed.

Lemma dominates_refl (a : T) : dom a a.
Proof. unfold dominates. destruct is_max_heap; lia. Qed.

Lemma dominates_trans (a b c : T) : dom a b -> dom b c -> dom a c.
Proof. unfold dominates. destruct is_max_heap; lia. Qed.

Lemma swap_length (h : list T) (i j : nat) :
  length (swap h i j) = length h.
Proof.
  unfold swap. repeat case_match; rewrite ?length_insert; done.
Qed.

Lemma swap_lookup (h : list T) (i j n : nat) (a b : T) :
  h !! i = Some a -> h !! j = Some b ->
  swap h i j !! n =
    if decide (n = j) then Some a
    else if decide (n = i) then Some b else h !! n.
Proof.
  intros Hi Hj. unfold swap. rewrite Hi, Hj.
  pose proof (lookup_lt_Some _ _ _ Hi). pose proof (lookup_lt_Some _ _ _ Hj).
  destruct (decide (n = j)) as [->|].
  - rewrite list_lookup_insert_eq; [done | by rewrite length_insert].
  - rewrite list_lookup_insert_ne by done.
    destruct (decide (n = i)) as [->|].
    + by rewrite list_lookup_insert_eq.
    + by rewrite list_lookup_insert_ne.
Qed.

Lemma swap_lookup_2 (h : list T) (i j : nat) (a b : T) :
  h !! i = Some a -> h !! j = Some b -> swap h i j !! j = Some a.
Proof.
  intros Hi Hj. rewrite (swap_lookup h i j j a b) by done.
  by rewrite decide_True.
Qed.

Lemma swap_lookup_1 (h : list T) (i j : nat) (a b : T) :
  h !! i = Some a -> h !! j = Some b -> i <> j -> swap h i j !! i = Some b.
Proof.
  intros Hi Hj Hne. rewrite (swap_lookup h i j i a b) by done.
  rewrite decide_False by done. by rewrite decide_True.
Qed.

Lemma swap_lookup_ne (h : list T) (i j n : nat) :
  n <> i -> n <> j -> swap h i j !! n = h !! n.
Proof.
  intros Hi Hj. unfold swap. repeat case_match; try done.
  by rewrite !list_lookup_insert_ne.
Qed.

Lemma swap_Permutation (h : list T) (i j : nat) : swap h i j ≡ₚ h.
Proof.
  unfold swap. destruct (h !! j) eqn:Hj; [|done].
  destruct (h !! i) eqn:Hi; [|done].
  by apply Permutation_insert_swap.
Qed.

Lemma compare_at_true (h : list T) (i j : nat) :
  compare_at key is_max_heap h i j = true ->
  exists a b, h !! i = Some a /\ h !! j = Some b /\ cmp a b = true.
Proof.
  unfold compare_at. destruct (h !! i), (h !! j); naive_solver.
Qed.

Lemma compare_at_false (h : list T) (i j : nat) (a b : T) :
  compare_at key is_max_heap h i j = false ->
  h !! i = Some a -> h !! j = Some b -> dom b a.
Proof.
  unfold compare_at. intros H Hi Hj. rewrite Hi, Hj in H.
  by apply compare_false in H.
Qed.

(** Where the source evaluates [_compare(self.heap[i], self.heap[j])]
    both indices are below [len(self.heap)], and the comparison is the
    one of the two elements. *)
Lemma compare_at_in_range (h : list T) (i j : nat) :
  i < length h -> j < length h ->
  exists a b, h !! i = Some a /\ h !! j = Some b /\
              compare_at key is_max_heap h i j = cmp a b.
Proof.
  intros [a Ha]%lookup_lt_is_Some [b Hb]%lookup_lt_is_Some.
  exists a, b. unfold compare_at. by rewrite Ha, Hb.
Qed.

(** The boolean check decides the invariant. *)
Lemma heap_propertyb_spec (h : list T) :
  heap_propertyb key is_max_heap h = true <-> heap_ok h.
Proof.
  unfold heap_propertyb, heap_property. rewrite forallb_forall. split.
  - intros H i c p Hi Hc Hp.
    apply (compare_at_false h i ((i - 1) / 2)); [|done..].
    apply negb_true_iff, H, in_seq.
    apply lookup_lt_Some in Hc. lia.
  - intros H i [Hi1 Hi2]%in_seq. apply negb_true_iff.
    destruct (compare_at key is_max_heap h i ((i - 1) / 2)) eqn:E; [|done].
    apply compare_at_true in E as (a & b & Ha & Hb & E).
    assert (dom b a) as D by (apply (H i a b); [lia|done..]).
    apply compare_false in D. congruence.
Qed.

(** ** [_heapify_up] restores the invariant *)

Local Abbreviation up := (heapify_up_loop key is_max_heap).
Local Abbreviation down := (heapify_down_loop key is_max_heap).

Lemma up_ok_root (h : list T) : up_ok key is_max_heap h 0 -> heap_ok h.
Proof.
  intros [H1 _] i c p Hi Hc Hp. apply (H1 i); [lia..|done|done].
Qed.

Lemma heap_ok_up_ok (h : list T) (k : nat) :
  heap_ok h -> up_ok key is_max_heap h k.
Proof.
  intros H. split.
  - intros i c p Hi _ Hc Hp. by apply (H i).
  - intros i c g Hk Hi Hpar Hc Hg.
    assert (is_Some (h !! k)) as [x Hx].
    { apply lookup_lt_is_Some. apply lookup_lt_Some in Hc.
      pose proof (parent_lt i Hi). lia. }
    apply (dominates_trans _ x).
    + by apply (H k).
    + apply (H i); [done|done|]. by rewrite Hpar.
Qed.

Lemma up_ok_swap (h : list T) (k : nat) (x p : T) :
  0 < k -> up_ok key is_max_heap h k ->
  h !! k = Some x -> h !! ((k - 1) / 2) = Some p -> cmp x p = true ->
  up_ok key is_max_heap (swap h k ((k - 1) / 2)) ((k - 1) / 2).
Proof.
  intros Hk [H1 H2] Hx Hp Hc. set (q := (k - 1) / 2) in *.
  assert (q < k) as Hqk by (apply parent_lt; done).
  apply compare_true in Hc.
  split.
  - intros i c pp Hi Hiq. rewrite !(swap_lookup h k q _ x p) by done.
    intros Hci Hpi.
    destruct (decide (i = q)) as [|_]; [done|].
    destruct (decide (i = k)) as [->|Hik].
    + fold q in Hpi. destruct (decide (q = q)); [|done]. by simplify_eq.
    + destruct (decide ((i - 1) / 2 = q)) as [Epq|Epq].
      * simplify_eq. apply (dominates_trans _ p); [done|].
        apply (H1 i); [done|done|done|]. by rewrite Epq.
      * destruct (decide ((i - 1) / 2 = k)) as [Epk|Epk].
        -- simplify_eq. by apply (H2 i).
        -- by apply (H1 i).
  - intros i c g Hq Hi Hpar. rewrite !(swap_lookup h k q _ x p) by done.
    intros Hci Hgi.
    assert ((q - 1) / 2 < q) by (apply parent_lt; done).
    destruct (decide ((q - 1) / 2 = q)); [lia|].
    destruct (decide ((q - 1) / 2 = k)); [lia|].
    assert (dom g p) as Hgp by (apply (H1 q); [done|lia|done|done]).
    assert (q < i) by (pose proof (parent_lt i Hi); lia).
    destruct (decide (i = q)); [lia|].
    destruct (decide (i = k)) as [->|Hik].
    + by simplify_eq.
    + apply (dominates_trans _ p); [done|].
      apply (H1 i); [done|done|done|]. by rewrite Hpar.
Qed.

Lemma heapify_up_loop_ok (fuel : nat) :
  forall (h : list T) (k : nat),
    k <= fuel -> up_ok key is_max_heap h k -> heap_ok (up fuel h k).
Proof.
  induction fuel as [|fuel IH]; intros h k Hf Hup; cbn [heapify_up_loop].
  - assert (k = 0) as -> by lia. by apply up_ok_root.
  - destruct (0 <? k) eqn:Hk.
    2:{ apply Nat.ltb_ge in Hk. assert (k = 0) as -> by lia.
        by apply up_ok_root. }
    apply Nat.ltb_lt in Hk.
    destruct (compare_at key is_max_heap h k ((k - 1) / 2)) eqn:E.
    + apply compare_at_true in E as (x & p & Hx & Hp & E).
      apply IH.
      * pose proof (parent_lt k Hk). lia.
      * by apply (up_ok_swap h k x p).
    + destruct Hup as [H1 H2]. intros i c p Hi Hc Hp.
      destruct (decide (i = k)) as [->|Hik].
      * by apply (compare_at_false h k ((k - 1) / 2)).
      * by apply (H1 i).
Qed.

Lemma heapify_up_loop_length (fuel : nat) :
  forall (h : list T) (k : nat), length (up fuel h k) = length h.
Proof.
  induction fuel as [|fuel IH]; intros h k; cbn [heapify_up_loop]; [done|].
  repeat case_match; rewrite ?IH, ?swap_length; done.
Qed.

Lemma heapify_up_loop_Permutation (fuel : nat) :
  forall (h : list T) (k : nat), up fuel h k ≡ₚ h.
Proof.
  induction fuel as [|fuel IH]; intros h k; cbn [heapify_up_loop]; [done|].
  repeat case_match; rewrite ?IH, ?swap_Permutation; done.
Qed.

(** The loop of [_heapify_up] leaves through its own exits: any two
    amounts of fuel that cover [index] give the same heap. *)
Lemma heapify_up_loop_fuel (fuel : nat) :
  forall (fuel' : nat) (h : list T) (k : nat),
    k <= fuel -> k <= fuel' -> up fuel h k = up fuel' h k.
Proof.
  induction fuel as [|fuel IH]; intros fuel' h k Hf Hf'.
  - assert (k = 0) as -> by lia. by destruct fuel'.
  - destruct fuel' as [|fuel'].
    { assert (k = 0) as -> by lia. done. }
    cbn [heapify_up_loop]. destruct (0 <? k) eqn:Hk; [|done].
    apply Nat.ltb_lt in Hk.
    destruct (compare_at _ _ _ _ _); [|done].
    pose proof (parent_lt k Hk). apply IH; lia.
Qed.

(** ** [_heapify_down] restores the invariant *)

Lemma down_ok_done (h : list T) (k : nat) :
  down_ok key is_max_heap h k ->
  (forall s xs xk, 0 < s -> (s - 1) / 2 = k ->
                   h !! s = Some xs -> h !! k = Some xk -> dom xk xs) ->
  heap_ok h.
Proof.
  intros [H1 _] Hch i c p Hi Hc Hp.
  destruct (decide ((i - 1) / 2 = k)) as [E|E].
  - apply (Hch i); [done|done|done|]. by rewrite <- E.
  - by apply (H1 i).
Qed.

Lemma heap_ok_down_ok (h : list T) (k : nat) :
  heap_ok h -> down_ok key is_max_heap h k.
Proof.
  intros H. split.
  - intros i c p Hi _ Hc Hp. by apply (H i).
  - apply (heap_ok_up_ok h k H).
Qed.

Lemma down_ok_swap (h : list T) (k c : nat) (xk xc : T) :
  down_ok key is_max_heap h k ->
  0 < c -> (c - 1) / 2 = k ->
  h !! c = Some xc -> h !! k = Some xk -> dom xc xk ->
  (forall s xs, 0 < s -> (s - 1) / 2 = k -> h !! s = Some xs -> dom xc xs) ->
  down_ok key is_max_heap (swap h k c) c.
Proof.
  intros [H1 H2] Hc Hpar Hxc Hxk Hd Hch.
  assert (k < c) as Hkc by (pose proof (parent_lt c Hc); lia).
  split.
  - intros i x pp Hi Hic Hx Hpp.
    pose proof (parent_lt i Hi) as Hlt.
    destruct (decide (i = c)) as [Eic|Eic].
    + (* the slot that received the old parent *)
      rewrite Eic, Hpar in *.
      rewrite (swap_lookup_2 h k c xk xc) in Hx by done.
      rewrite (swap_lookup_1 h k c xk xc) in Hpp by (done || lia).
      by simplify_eq.
    + destruct (decide (i = k)) as [Eik|Eik].
      * (* [k] itself, seen from its own parent *)
        rewrite Eik in *.
        rewrite (swap_lookup_1 h k c xk xc) in Hx by (done || lia).
        rewrite swap_lookup_ne in Hpp by lia.
        assert (x = xc) as -> by congruence.
        by apply (H2 c xc pp).
      * rewrite swap_lookup_ne in Hx by done.
        destruct (decide ((i - 1) / 2 = k)) as [Epk|Epk].
        -- rewrite Epk in Hpp.
           rewrite (swap_lookup_1 h k c xk xc) in Hpp by (done || lia).
           assert (pp = xc) as -> by congruence.
           by apply (Hch i).
        -- rewrite swap_lookup_ne in Hpp by done.
           by apply (H1 i).
  - intros i x g _ Hi Hic Hx Hg.
    pose proof (parent_lt i Hi) as Hlt.
    rewrite Hpar in Hg.
    rewrite (swap_lookup_1 h k c xk xc) in Hg by (done || lia).
    rewrite swap_lookup_ne in Hx by lia.
    assert (g = xc) as -> by congruence.
    apply (H1 i); [done|lia|done|]. by rewrite Hic.
Qed.

Lemma heapify_down_loop_unfold (fuel n : nat) (h : list T) (k : nat) :
  down (S fuel) n h k =
    if pick key is_max_heap n h k =? k then h
    else down fuel n (swap h k (pick key is_max_heap n h k)) (pick key is_max_heap n h k).
Proof. reflexivity. Qed.

Lemma pick_spec (h : list T) (k : nat) :
  let c := pick key is_max_heap (length h) h k in
  (c = k /\
   forall s xs xk, 0 < s -> (s - 1) / 2 = k ->
                   h !! s = Some xs -> h !! k = Some xk -> dom xk xs)
  \/
  (k < c /\ (c - 1) / 2 = k /\
   exists xc xk, h !! c = Some xc /\ h !! k = Some xk /\ dom xc xk /\
     forall s xs, 0 < s -> (s - 1) / 2 = k -> h !! s = Some xs -> dom xc xs).
Proof.
  unfold pick. cbv zeta.
  set (l := 2 * k + 1). set (r := 2 * k + 2).
  assert ((l - 1) / 2 = k) as Hl by apply parent_left.
  assert ((r - 1) / 2 = k) as Hr by apply parent_right.
  assert (forall s, 0 < s -> (s - 1) / 2 = k -> s = l \/ s = r) as Hcases
    by (intros; by apply child_cases).
  assert (forall i j x, ((i <? length h) && compare_at key is_max_heap h i j) = false ->
            h !! i = Some x -> compare_at key is_max_heap h i j = false) as Hoff.
  { intros i j x E Hx. apply lookup_lt_Some in Hx.
    apply andb_false_iff in E as [E|E]; [|done].
    apply Nat.ltb_ge in E. lia. }
  destruct ((l <? length h) && compare_at key is_max_heap h l k) eqn:EL.
  - apply andb_true_iff in EL as [_ EL].
    apply compare_at_true in EL as (xl & xk & Hxl & Hxk & EL).
    apply compare_true in EL.
    destruct ((r <? length h) && compare_at key is_max_heap h r l) eqn:ER.
    + apply andb_true_iff in ER as [_ ER].
      apply compare_at_true in ER as (xr & xl' & Hxr & Hxl' & ER).
      apply compare_true in ER. simplify_eq.
      right. split; [lia|]. split; [done|]. exists xr, xk.
      repeat split; try done.
      * by apply (dominates_trans _ xl).
      * intros s xs Hs Hp Hxs.
        destruct (Hcases s Hs Hp) as [->| ->]; simplify_eq; [done|].
        apply dominates_refl.
    + right. split; [lia|]. split; [done|]. exists xl, xk.
      repeat split; try done.
      intros s xs Hs Hp Hxs.
      destruct (Hcases s Hs Hp) as [->| ->]; simplify_eq.
      * apply dominates_refl.
      * by apply (compare_at_false h r l); [eapply Hoff|..].
  - destruct ((r <? length h) && compare_at key is_max_heap h r k) eqn:ER.
    + apply andb_true_iff in ER as [_ ER].
      apply compare_at_true in ER as (xr & xk & Hxr & Hxk & ER).
      apply compare_true in ER.
      right. split; [lia|]. split; [done|]. exists xr, xk.
      repeat split; try done.
      intros s xs Hs Hp Hxs.
      destruct (Hcases s Hs Hp) as [->| ->]; simplify_eq.
      * apply (dominates_trans _ xk); [done|].
        by apply (compare_at_false h l k); [eapply Hoff|..].
      * apply dominates_refl.
    + left. split; [done|].
      intros s xs xk Hs Hp Hxs Hxk.
      destruct (Hcases s Hs Hp) as [->| ->].
      * by apply (compare_at_false h l k); [eapply Hoff|..].
      * by apply (compare_at_false h r k); [eapply Hoff|..].
Qed.

Lemma heapify_down_loop_ok (fuel : nat) :
  forall (h : list T) (k : nat),
    length h <= fuel + k -> down_ok key is_max_heap h k ->
    heap_ok (down fuel (length h) h k).
Proof.
  induction fuel as [|fuel IH]; intros h k Hf Hdown.
  - cbn [heapify_down_loop]. apply (down_ok_done h k Hdown).
    intros s xs xk Hs Hp Hxs _. apply lookup_lt_Some in Hxs.
    pose proof (parent_lt s Hs). lia.
  - rewrite heapify_down_loop_unfold.
    destruct (pick_spec h k) as [[-> Hch]|(Hlt & Hpar & xc & xk & Hxc & Hxk & Hd & Hch)].
    + rewrite Nat.eqb_refl. by apply (down_ok_done h k).
    + destruct (pick key is_max_heap (length h) h k =? k) eqn:E.
      { apply Nat.eqb_eq in E. lia. }
      rewrite <- (swap_length h k (pick key is_max_heap (length h) h k)) at 1.
      apply IH.
      * rewrite swap_length. lia.
      * apply (down_ok_swap h k _ xk xc); try done. lia.
Qed.

Lemma pick_range (n : nat) (h : list T) (k : nat) :
  pick key is_max_heap n h k = k \/
  (k < pick key is_max_heap n h k /\ pick key is_max_heap n h k < n).
Proof.
  unfold pick. cbv zeta.
  destruct (2 * k + 1 <? n) eqn:E1; destruct (2 * k + 2 <? n) eqn:E2;
    cbn [andb]; repeat case_match;
    try apply Nat.ltb_lt in E1; try apply Nat.ltb_lt in E2; lia.
Qed.

(** The loop of [_heapify_down] leaves through its own exit: any two
    amounts of fuel that cover the distance to the end of the list give
    the same heap. *)
Lemma heapify_down_loop_fuel (fuel : nat) :
  forall (fuel' n : nat) (h : list T) (k : nat),
    n <= fuel + k -> n <= fuel' + k ->
    down fuel n h k = down fuel' n h k.
Proof.
  induction fuel as [|fuel IH]; intros fuel' n h k Hf Hf'.
  - destruct fuel' as [|fuel']; [done|].
    rewrite heapify_down_loop_unfold.
    destruct (pick_range n h k) as [->|?]; [|lia].
    by rewrite Nat.eqb_refl.
  - rewrite heapify_down_loop_unfold.
    destruct (pick_range n h k) as [E|[E1 E2]].
    + rewrite E, Nat.eqb_refl. destruct fuel' as [|fuel']; [done|].
      rewrite heapify_down_loop_unfold. by rewrite E, Nat.eqb_refl.
    + destruct fuel' as [|fuel']; [lia|].
      rewrite heapify_down_loop_unfold.
      destruct (pick key is_max_heap n h k =? k) eqn:E; [done|].
      apply IH; lia.
Qed.

Lemma heapify_down_loop_length (fuel : nat) :
  forall (n : nat) (h : list T) (k : nat), length (down fuel n h k) = length h.
Proof.
  induction fuel as [|fuel IH]; intros n h k; [done|].
  rewrite heapify_down_loop_unfold.
  case_match; rewrite ?IH, ?swap_length; done.
Qed.

Lemma heapify_down_loop_Permutation (fuel : nat) :
  forall (n : nat) (h : list T) (k : nat), down fuel n h k ≡ₚ h.
Proof.
  induction fuel as [|fuel IH]; intros n h k; [done|].
  rewrite heapify_down_loop_unfold.
  case_match; rewrite ?IH, ?swap_Permutation; done.
Qed.

(** ** [insert] *)

Local Abbreviation ins := (insert key is_max_heap).
Local Abbreviation ext := (extract_max key is_max_heap).

Lemma insert_heap_property (h : list T) (x : T) :
  heap_ok h -> heap_ok (ins h x).
Proof.
  intros H. unfold insert, _heapify_up. cbv zeta.
  apply heapify_up_loop_ok; [done|].
  rewrite length_app. cbn [length]. replace (length h + 1 - 1) with (length h) by lia.
  split.
  - intros i c p Hi Hne Hc Hp.
    assert (i < length h).
    { apply lookup_lt_Some in Hc. rewrite length_app in Hc. simpl in Hc. lia. }
    pose proof (parent_lt i Hi).
    rewrite lookup_app_l in Hc, Hp by lia. by apply (H i).
  - intros i c g _ Hi Hpar Hc _.
    apply lookup_lt_Some in Hc. rewrite length_app in Hc. simpl in Hc.
    pose proof (parent_lt i Hi). lia.
Qed.

Lemma insert_length (h : list T) (x : T) : length (ins h x) = S (length h).
Proof.
  unfold insert, _heapify_up. cbv zeta.
  rewrite heapify_up_loop_length, length_app. simpl. lia.
Qed.

Lemma insert_Permutation (h : list T) (x : T) : ins h x ≡ₚ x :: h.
Proof.
  unfold insert, _heapify_up. cbv zeta.
  rewrite heapify_up_loop_Permutation. by rewrite Permutation_app_comm.
Qed.

(** ** [extract_max] by cases on the shape of the list *)

Lemma extract_max_nil : ext [] = (Raise IndexError, []).
Proof. reflexivity. Qed.

Lemma extract_max_singleton (x : T) : ext [x] = (Ok x, []).
Proof. reflexivity. Qed.

Lemma pop_snoc (l : list T) (x : T) : pop (l ++ [x]) = (Ok x, l).
Proof.
  unfold pop. rewrite last_snoc, length_app. simpl.
  replace (length l + 1 - 1) with (length l) by lia.
  by rewrite take_app_length.
Qed.

Lemma extract_max_cons (root : T) (mid : list T) (x : T) :
  ext (root :: mid ++ [x]) =
    (Ok root, _heapify_down key is_max_heap (x :: mid) 0).
Proof.
  unfold extract_max, is_empty.
  change (root :: mid ++ [x]) with ((root :: mid) ++ [x]).
  rewrite pop_snoc, length_app. cbn [length].
  replace (S (length mid) + 1 =? 0) with false by (symmetry; apply Nat.eqb_neq; lia).
  replace (S (length mid) + 1 =? 1) with false by (symmetry; apply Nat.eqb_neq; lia).
  reflexivity.
Qed.

Lemma heap_shape (h : list T) :
  h = [] \/ (exists x, h = [x]) \/ (exists root mid x, h = root :: mid ++ [x]).
Proof.
  destruct h as [|root t]; [by left|right].
  destruct t as [|y t] using rev_ind; [left; by exists root|right].
  by exists root, t, y.
Qed.

Lemma heapify_down_root_ok (root x : T) (mid : list T) :
  heap_ok (root :: mid ++ [x]) ->
  heap_ok (_heapify_down key is_max_heap (x :: mid) 0).
Proof.
  intros H. unfold _heapify_down. cbv zeta.
  apply heapify_down_loop_ok; [lia|]. split.
  - intros i c p Hi Hpar Hc Hp.
    destruct i as [|i]; [lia|].
    destruct ((S i - 1) / 2) as [|j] eqn:E; [done|].
    cbn in Hc, Hp. apply (H (S i)); [done|..].
    + cbn. by apply lookup_app_l_Some.
    + rewrite E. cbn. by apply lookup_app_l_Some.
  - intros; lia.
Qed.

(** What a successful extraction gives. *)
Lemma extract_max_spec (h : list T) :
  h <> [] -> heap_ok h ->
  exists root h',
    ext h = (Ok root, h') /\ h !! 0 = Some root /\
    heap_ok h' /\ h ≡ₚ root :: h' /\ length h = S (length h').
Proof.
  intros Hne H.
  destruct (heap_shape h) as [->|[[x ->]|(root & mid & x & ->)]]; [done|..].
  - exists x, []. repeat split; done.
  - exists root, (_heapify_down key is_max_heap (x :: mid) 0).
    rewrite extract_max_cons. repeat split; try done.
    + by apply (heapify_down_root_ok root).
    + unfold _heapify_down. cbv zeta. rewrite heapify_down_loop_Permutation.
      constructor. by rewrite Permutation_app_comm.
    + unfold _heapify_down. cbv zeta. rewrite heapify_down_loop_length.
      cbn. rewrite length_app. cbn. lia.
Qed.

(** The root may sit above every element. *)
Lemma root_dominates (h : list T) (root : T) :
  heap_ok h -> h !! 0 = Some root ->
  forall i x, h !! i = Some x -> dom root x.
Proof.
  intros H Hroot i. induction (lt_wf i) as [i _ IH]. intros x Hx.
  destruct (decide (i = 0)) as [->|Hi].
  - assert (x = root) as -> by congruence. apply dominates_refl.
  - assert (0 < i) as Hpos by lia. pose proof (parent_lt i Hpos) as Hlt.
    assert (is_Some (h !! ((i - 1) / 2))) as [p Hp].
    { apply lookup_lt_is_Some. apply lookup_lt_Some in Hx. lia. }
    apply (dominates_trans _ p).
    + by apply (IH ((i - 1) / 2)).
    + by apply (H i).
Qed.

(** ** Draining a heap *)

Lemma drain_loop_spec (fuel : nat) :
  forall (h out0 : list T),
    heap_ok h -> length h <= fuel ->
    exists out,
      drain_loop key is_max_heap fuel h out0 = Some (Ok (out0 ++ out)) /\
      out ≡ₚ h /\ StronglySorted dom out.
Proof.
  induction fuel as [|fuel IH]; intros h out0 H Hf.
  - destruct h; [|simpl in Hf; lia].
    exists []. rewrite app_nil_r. repeat split; [done|constructor].
  - destruct h as [|y t] eqn:Eh.
    { exists []. rewrite app_nil_r. repeat split; [done|constructor]. }
    destruct (extract_max_spec (y :: t)) as (root & h' & He & Hr & Hok & Hp & Hl);
      [done|done|].
    destruct (IH h' (out0 ++ [root]) Hok) as (out & Hd & Hperm & Hs).
    { simpl in Hl, Hf. lia. }
    exists (root :: out). split; [|split].
    + cbn [drain_loop]. unfold is_empty at 1. cbn [length Nat.eqb].
      rewrite He, Hd. by rewrite <- app_assoc.
    + by rewrite Hp, Hperm.
    + constructor; [done|].
      apply Forall_forall. intros x Hx.
      assert (x ∈ y :: t) as Hin.
      { rewrite Hp. right. by rewrite <- Hperm. }
      apply list_elem_of_lookup in Hin as [i Hi].
      by apply (root_dominates (y :: t) root H Hr i).
Qed.

End HeapTheory.


(** ** Building and draining *)

Section BuildDrain.

Context {T : Type}.
Variable key : T -> Z.
Variable is_max_heap : bool.

Lemma fold_insert_spec (l : list T) :
  forall h : list T,
    heap_property key is_max_heap h ->
    heap_property key is_max_heap (fold_left (insert key is_max_heap) l h) /\
    fold_left (insert key is_max_heap) l h ≡ₚ h ++ l.
Proof.
  induction l as [|x l IH]; intros h H; cbn [fold_left].
  - by rewrite app_nil_r.
  - destruct (IH (insert key is_max_heap h x)) as [IH1 IH2].
    { by apply insert_heap_property. }
    split; [done|].
    rewrite IH2, insert_Permutation. cbn [app]. apply Permutation_middle.
Qed.

Lemma build_spec (l : list T) :
  heap_property key is_max_heap (build key is_max_heap l) /\
  build key is_max_heap l ≡ₚ l.
Proof.
  unfold build. apply (fold_insert_spec l []). by intros [|i] c p.
Qed.

Lemma drain_spec (h : list T) :
  heap_property key is_max_heap h ->
  exists out,
    drain key is_max_heap h = Some (Ok out) /\
    out ≡ₚ h /\ StronglySorted (dominates key is_max_heap) out.
Proof.
  intros H. unfold drain.
  destruct (drain_loop_spec key is_max_heap (length h) h [] H) as (out & ? & ? & ?);
    [done|].
  by exists out.
Qed.

End BuildDrain.

Lemma StronglySorted_map_key {T : Type} (key : T -> Z) (R : Z -> Z -> Prop)
      (l : list T) :
  StronglySorted (fun a b => R (key a) (key b)) l ->
  StronglySorted R (map key l).
Proof.
  induction 1 as [|x l _ IH Hx]; cbn; constructor; [done|].
  by apply Forall_map.
Qed.

(** C4. For every list of items (a multiset of priorities given in any
    order), inserting them one by one into an empty max-heap and then
    extracting until the heap is empty returns all of them, by
    non-increasing priority; with a min-heap, by non-decreasing
    priority. *)
Theorem C4_extraction_is_sorted {T : Type} (key : T -> Z) (l : list T) :
  (exists out,
     drain key true (build key true l) = Some (Ok out) /\
     length out = length l /\ out ≡ₚ l /\
     StronglySorted (fun a b => (a >= b)%Z) (map key out)) /\
  (exists out,
     drain key false (build key false l) = Some (Ok out) /\
     length out = length l /\ out ≡ₚ l /\
     StronglySorted (fun a b => (a <= b)%Z) (map key out)).
Proof.
  split.
  - destruct (build_spec key true l) as [Hb Hp].
    destruct (drain_spec key true _ Hb) as (out & Hd & Hperm & Hs).
    exists out. rewrite Hp in Hperm. repeat split; try done.
    + by rewrite Hperm.
    + by apply (StronglySorted_map_key key (fun a b => (a >= b)%Z)).
  - destruct (build_spec key false l) as [Hb Hp].
    destruct (drain_spec key false _ Hb) as (out & Hd & Hperm & Hs).
    exists out. rewrite Hp in Hperm. repeat split; try done.
    + by rewrite Hperm.
    + by apply (StronglySorted_map_key key (fun a b => (a <= b)%Z)).
Qed.

(** The ordering test of [tests/test_priority_queue.py], on priorities. *)
Example extract_max_ordering :
  drain id true (build id true [10; 5; 15; 20]%Z) = Some (Ok [20; 15; 10; 5]%Z) /\
  drain id false (build id false [10; 5; 15; 20]%Z) = Some (Ok [5; 10; 15; 20]%Z).
Proof. split; reflexivity. Qed.

(** C7, as stated, fails for [peek]: on an empty heap it returns [None]
    and raises nothing. *)
Lemma C7_peek_on_empty_returns_None :
  peek (@init Z) = Ok None /\ peek (@init Z) <> Raise IndexError.
Proof. split; [reflexivity | discriminate]. Qed.

(** C7, amended. On an empty heap (in particular the heap of [__init__],
    into which nothing was inserted) [extract_max] and [extract_min]
    raise [IndexError] and leave the heap as it was; [peek] raises
    nothing there and returns [None]. *)
Theorem C7_empty_heap {T : Type} (key : T -> Z) (is_max_heap : bool) :
  extract_max key is_max_heap init = (Raise IndexError, init) /\
  extract_min key is_max_heap init = (Raise IndexError, init) /\
  (forall h : list T,
     is_empty h = true ->
     extract_max key is_max_heap h = (Raise IndexError, h) /\
     extract_min key is_max_heap h = (Raise IndexError, h) /\
     peek h = Ok None).
Proof.
  repeat split; try reflexivity.
  - unfold extract_max. by rewrite H.
  - unfold extract_min. by rewrite H.
  - unfold peek. by rewrite H.
Qed.

Lemma C7_empty_heap_witness :
  extract_max id true ([] : list Z) = (Raise IndexError, []) /\
  extract_min id true ([] : list Z) = (Raise IndexError, []) /\
  peek ([] : list Z) = Ok None.
Proof.
  apply (proj2 (proj2 (C7_empty_heap id true)) []). reflexivity.
Defined.

(** C10. [extract_min] and [extract_max] are the same function of the
    heap, whatever its mode.  On every non-empty heap both return the
    root and leave the same heap: the other elements, one fewer, in
    heap order again.  So on a max-heap [extract_min] returns an
    element of highest priority, and on a min-heap [extract_max]
    returns an element of lowest priority. *)
Theorem C10_extract_min_is_extract_max {T : Type} (key : T -> Z) :
  (forall (is_max_heap : bool) (h : list T),
     extract_min key is_max_heap h = extract_max key is_max_heap h) /\
  (forall h : list T,
     h <> [] -> heap_property key true h ->
     exists x h',
       extract_min key true h = (Ok x, h') /\
       extract_max key true h = (Ok x, h') /\
       h !! 0 = Some x /\
       h ≡ₚ x :: h' /\
       length h = S (length h') /\
       heap_property key true h' /\
       forall y, y ∈ h -> (key y <= key x)%Z) /\
  (forall h : list T,
     h <> [] -> heap_property key false h ->
     exists x h',
       extract_max key false h = (Ok x, h') /\
       extract_min key false h = (Ok x, h') /\
       h !! 0 = Some x /\
       h ≡ₚ x :: h' /\
       length h = S (length h') /\
       heap_property key false h' /\
       forall y, y ∈ h -> (key x <= key y)%Z).
Proof.
  split; [reflexivity|]. split.
  - intros h Hne H.
    destruct (extract_max_spec key true h Hne H)
      as (x & h' & He & Hr & Hok & Hp & Hl).
    exists x, h'. split; [exact He|]. split; [exact He|].
    split; [done|]. split; [done|]. split; [done|]. split; [done|].
    intros y [i Hi]%list_elem_of_lookup.
    pose proof (root_dominates key true h x H Hr i y Hi) as D.
    unfold dominates in D. lia.
  - intros h Hne H.
    destruct (extract_max_spec key false h Hne H)
      as (x & h' & He & Hr & Hok & Hp & Hl).
    exists x, h'. split; [exact He|]. split; [exact He|].
    split; [done|]. split; [done|]. split; [done|]. split; [done|].
    intros y [i Hi]%list_elem_of_lookup.
    pose proof (root_dominates key false h x H Hr i y Hi) as D.
    by unfold dominates in D.
Qed.

Lemma C10_extract_min_is_extract_max_witness :
  (exists x h',
     extract_min id true [30; 10; 20]%Z = (Ok x, h') /\
     extract_max id true [30; 10; 20]%Z = (Ok x, h') /\
     [30; 10; 20]%Z !! 0 = Some x /\
     [30; 10; 20]%Z ≡ₚ x :: h' /\
     length [30; 10; 20]%Z = S (length h') /\
     heap_property id true h' /\
     forall y, y ∈ [30; 10; 20]%Z -> (id y <= id x)%Z) /\
  (exists x h',
     extract_max id false [5; 10; 20]%Z = (Ok x, h') /\
     extract_min id false [5; 10; 20]%Z = (Ok x, h') /\
     [5; 10; 20]%Z !! 0 = Some x /\
     [5; 10; 20]%Z ≡ₚ x :: h' /\
     length [5; 10; 20]%Z = S (length h') /\
     heap_property id false h' /\
     forall y, y ∈ [5; 10; 20]%Z -> (id x <= id y)%Z).
Proof.
  split.
  - apply (proj1 (proj2 (C10_extract_min_is_extract_max id)) [30; 10; 20]%Z).
    + discriminate.
    + apply heap_propertyb_spec. reflexivity.
  - apply (proj2 (proj2 (C10_extract_min_is_extract_max id)) [5; 10; 20]%Z).
    + discriminate.
    + apply heap_propertyb_spec. reflexivity.
Defined.

(** ** The scheduler *)

Lemma fold_insert_scheduler (tasks : list Task) :
  forall (h : list Task) (clock : float),
    fold_left
      (fun s task =>
         mkScheduler (insert priority true (priority_queue s) task)
                     (current_time s))
      tasks (mkScheduler h clock)
    = mkScheduler (fold_left (insert priority true) tasks h) clock.
Proof.
  induction tasks as [|t tasks IH]; intros h clock; [done|].
  cbn [fold_left priority_queue current_time]. apply IH.
Qed.

Lemma schedule_loop_spec (fuel : nat) :
  forall (pq : list Task) (clock : float)
         (results0 : list SchedulingResult) (out0 : list Task),
    heap_property priority true pq -> length pq <= fuel ->
    exists order results clock',
      drain_loop priority true fuel pq out0 = Some (Ok (out0 ++ order)) /\
      schedule_loop fuel (mkScheduler pq clock) results0
        = Some (Ok (results0 ++ results), mkScheduler [] clock') /\
      timeline clock order results clock' /\
      length results = length pq.
Proof.
  induction fuel as [|fuel IH]; intros pq clock results0 out0 H Hf.
  - destruct pq; [|simpl in Hf; lia].
    exists [], [], clock. rewrite !app_nil_r. repeat split; constructor.
  - destruct pq as [|y t] eqn:Epq.
    { exists [], [], clock. rewrite !app_nil_r. repeat split; constructor. }
    destruct (extract_max_spec priority true (y :: t))
      as (root & h' & He & _ & Hok & _ & Hl); [done|done|].
    set (r := run_task clock root).
    destruct (IH h' (Result.completion_time r) (results0 ++ [r]) (out0 ++ [root]) Hok)
      as (order & results & clock' & Hd & Hs & Ht & Hlen).
    { simpl in Hl, Hf. lia. }
    exists (root :: order), (r :: results), clock'. split; [|split; [|split]].
    + cbn [drain_loop]. unfold is_empty at 1. cbn [length Nat.eqb].
      rewrite He, Hd. by rewrite <- app_assoc.
    + cbn [schedule_loop priority_queue current_time].
      unfold is_empty at 1. cbn [length Nat.eqb].
      rewrite He. fold r. rewrite Hs. by rewrite <- app_assoc.
    + by constructor.
    + cbn [length]. rewrite Hlen. simpl in Hl. lia.
Qed.

(** C5. [schedule_tasks] always returns, with one result per task; the
    results follow the order in which the tasks leave the max-heap built
    from the input, and form the timeline of that order from clock 0:
    start at the clock, completion one execution time later, wait since
    arrival, deadline met when absent or not exceeded, clock set to the
    completion time. *)
Theorem C5_schedule_timeline (self : TaskScheduler) (tasks : list Task) :
  exists order results clock,
    drain priority true (build priority true tasks) = Some (Ok order) /\
    order ≡ₚ tasks /\
    schedule_tasks self tasks = Some (Ok results, mkScheduler [] clock) /\
    length results = length tasks /\
    timeline 0%float order results clock.
Proof.
  destruct (build_spec priority true tasks) as [Hb Hp].
  destruct (schedule_loop_spec (length (build priority true tasks))
              (build priority true tasks) 0%float [] [] Hb)
    as (order & results & clock & Hd & Hs & Ht & Hlen); [done|].
  destruct (drain_spec priority true _ Hb) as (out & Hd' & Hperm & _).
  exists order, results, clock.
  assert (out = order) as <-.
  { unfold drain in Hd'. rewrite Hd in Hd'. by simplify_eq. }
  repeat split; try done.
  - by rewrite Hperm.
  - unfold schedule_tasks. cbv zeta. rewrite fold_insert_scheduler.
    cbn [priority_queue]. apply Hs.
  - by rewrite Hlen, Hp.
Qed.

(** The scenarios of the specification: basic ordering and a missed
    deadline. *)
Example schedule_basic_ordering :
  schedule_tasks new_scheduler
    [mkTask "A" 10 0 None 5 ""; mkTask "B" 30 0 None 3 "";
     mkTask "C" 20 0 None 4 ""]
  = Some (Ok [Result.mk "B" 0 3 true 0; Result.mk "C" 3 7 true 3;
              Result.mk "A" 7 12 true 7],
          mkScheduler [] 12%float).
Proof. reflexivity. Qed.

Example schedule_deadline_miss :
  schedule_tasks new_scheduler [mkTask "T1" 20 0 (Some 3%float) 5 ""]
  = Some (Ok [Result.mk "T1" 0 5 false 0], mkScheduler [] 5%float).
Proof. reflexivity. Qed.

(** C8. Scheduling a task list gives one result sequence, whatever the
    state the scheduler was left in by earlier calls: the call resets
    queue and clock, so a second call on the same instance, or a call on
    any other instance, returns the same results (ties among priorities
    included). *)
Theorem C8_schedule_deterministic (self : TaskScheduler) (tasks : list Task) :
  exists results self',
    schedule_tasks self tasks = Some (Ok results, self') /\
    schedule_tasks self' tasks = Some (Ok results, self') /\
    forall other : TaskScheduler,
      schedule_tasks other tasks = Some (Ok results, self').
Proof.
  destruct (build_spec priority true tasks) as [Hb _].
  destruct (schedule_loop_spec (length (build priority true tasks))
              (build priority true tasks) 0%float [] [] Hb)
    as (_ & results & clock & _ & Hs & _); [done|].
  assert (forall s : TaskScheduler,
            schedule_tasks s tasks = Some (Ok results, mkScheduler [] clock))
    as Hany.
  { intros s. unfold schedule_tasks. cbv zeta. rewrite fold_insert_scheduler.
    cbn [priority_queue]. apply Hs. }
  exists results, (mkScheduler [] clock). repeat split; apply Hany.
Qed.

(** ** Statistics *)

Lemma count_ones (A : Type) (l : list A) (acc : Z) :
  fold_left Z.add (map (fun _ => 1%Z) l) acc = (acc + Z.of_nat (length l))%Z.
Proof.
  revert acc. induction l as [|x l IH]; intros acc; cbn [map fold_left length].
  - lia.
  - rewrite IH. lia.
Qed.

(** ** Binary64 addition and comparison

    What the clock of the scheduler needs: adding an execution time
    that is [>= 0] never moves it back.  From the specification of the
    operations in the standard library. *)

Lemma pow2_pos (k : Z) : (0 <= k)%Z -> (0 < 2 ^ k)%Z.
Proof. intros. by apply Z.pow_pos_nonneg. Qed.

Lemma pow2_split (a b : Z) :
  (0 <= a)%Z -> (0 <= b)%Z -> (2 ^ (a + b) = 2 ^ a * 2 ^ b)%Z.
Proof. intros. by apply Z.pow_add_r. Qed.

Lemma digits2_pos_bounds (p : positive) :
  (2 ^ (Z.pos (digits2_pos p) - 1) <= Z.pos p < 2 ^ Z.pos (digits2_pos p))%Z.
Proof.
  induction p as [p IH|p IH|]; cbn [digits2_pos]; [| |by cbn].
  - rewrite Pos2Z.inj_succ.
    replace (Z.succ (Z.pos (digits2_pos p)) - 1)%Z
      with (Z.succ (Z.pos (digits2_pos p) - 1)) by lia.
    rewrite !Z.pow_succ_r by lia. lia.
  - rewrite Pos2Z.inj_succ.
    replace (Z.succ (Z.pos (digits2_pos p)) - 1)%Z
      with (Z.succ (Z.pos (digits2_pos p) - 1)) by lia.
    rewrite !Z.pow_succ_r by lia. lia.
Qed.

Lemma shr_1_m (r : shr_record) :
  (0 <= shr_m r)%Z -> shr_m (shr_1 r) = (shr_m r / 2)%Z.
Proof.
  destruct r as [m rb sb]. cbn [shr_m]. intros Hm. unfold shr_1.
  destruct m as [|[p|p|]|p]; cbn [shr_m]; try lia; try done.
Qed.

Lemma iter_pos_shr_m (n : positive) :
  forall r : shr_record,
    (0 <= shr_m r)%Z ->
    shr_m (SpecFloat.iter_pos shr_1 n r) = (shr_m r / 2 ^ Z.pos n)%Z.
Proof.
  induction n as [n IH|n IH|]; intros r Hr; cbn [SpecFloat.iter_pos].
  - assert (0 <= shr_m (shr_1 r))%Z as H1.
    { rewrite shr_1_m by done. by apply Z.div_pos. }
    assert (0 <= shr_m (SpecFloat.iter_pos shr_1 n (shr_1 r)))%Z as H2.
    { rewrite IH by done. apply Z.div_pos; [done|]. by apply pow2_pos. }
    rewrite IH, IH, shr_1_m by done.
    pose proof (pow2_pos (Z.pos n) ltac:(lia)).
    rewrite !Z.div_div by lia. f_equal.
    replace (Z.pos n~1)%Z with (1 + Z.pos n + Z.pos n)%Z by lia.
    rewrite !pow2_split by lia. lia.
  - assert (0 <= shr_m (SpecFloat.iter_pos shr_1 n r))%Z as H2.
    { rewrite IH by done. apply Z.div_pos; [done|]. by apply pow2_pos. }
    rewrite IH, IH by done.
    pose proof (pow2_pos (Z.pos n) ltac:(lia)).
    rewrite !Z.div_div by lia. f_equal.
    replace (Z.pos n~0)%Z with (Z.pos n + Z.pos n)%Z by lia.
    by rewrite !pow2_split by lia.
  - rewrite shr_1_m by done. done.
Qed.

Lemma shr_spec (r : shr_record) (e n : Z) :
  (0 <= shr_m r)%Z ->
  shr_m (fst (shr r e n)) = (shr_m r / 2 ^ Z.max n 0)%Z /\
  snd (shr r e n) = (e + Z.max n 0)%Z.
Proof.
  intros Hr. destruct n as [|n|n]; cbn [shr fst snd].
  - cbn. rewrite Z.div_1_r. split; [done|lia].
  - rewrite iter_pos_shr_m by done. rewrite Z.max_l by lia. done.
  - rewrite Z.max_r by lia. cbn. rewrite Z.div_1_r. split; [done|lia].
Qed.

Lemma shr_record_of_loc_m (m : Z) (l : location) :
  shr_m (shr_record_of_loc m l) = m.
Proof. by destruct l as [|[]]. Qed.

Lemma shr_fexp_spec (m e : Z) (l : location) :
  (0 <= m)%Z ->
  let n := Z.max (fexp prec emax (Zdigits2 m + e) - e) 0 in
  shr_m (fst (shr_fexp prec emax m e l)) = (m / 2 ^ n)%Z /\
  snd (shr_fexp prec emax m e l) = (e + n)%Z.
Proof.
  intros Hm. cbv zeta. unfold shr_fexp.
  destruct (shr_spec (shr_record_of_loc m l) e
              (fexp prec emax (Zdigits2 m + e) - e)) as [H1 H2].
  { by rewrite shr_record_of_loc_m. }
  rewrite shr_record_of_loc_m in H1. done.
Qed.

Lemma round_nearest_even_ge (m : Z) (l : location) :
  (m <= round_nearest_even m l)%Z.
Proof.
  destruct l as [|[]]; cbn; try lia. destruct (Z.even m); lia.
Qed.

Lemma fexp_unfold (e : Z) : fexp prec emax e = Z.max (e - 53) (-1074).
Proof. reflexivity. Qed.

(** A mantissa of [d] digits cut down to 53 digits is at least 2^52. *)
Lemma top_bits (M d : Z) :
  (2 ^ (d - 1) <= M)%Z -> (53 <= d)%Z -> (2 ^ 52 <= M / 2 ^ (d - 53))%Z.
Proof.
  intros HM Hd. apply Z.div_le_lower_bound; [apply pow2_pos; lia|].
  rewrite <- pow2_split by lia. by replace (d - 53 + 52)%Z with (d - 1)%Z by lia.
Qed.

Lemma canonical_facts (mx : positive) (ex : Z) :
  canonical mx ex ->
  (-1074 <= ex)%Z /\ (Z.pos mx < 2 ^ 53)%Z.
Proof.
  unfold canonical. rewrite fexp_unfold. intros H.
  pose proof (digits2_pos_bounds mx) as [_ Hlt].
  split; [lia|].
  eapply Z.lt_le_trans; [exact Hlt|]. apply Z.pow_le_mono_r; lia.
Qed.

(** Cutting a mantissa down to the precision, from an exponent below
    that of a representable number it is not less than. *)
Lemma shr_fexp_bound_low (mx : positive) (ex : Z) (pm : positive) (E : Z) (l : location) :
  canonical mx ex -> (E <= ex)%Z ->
  (Z.pos mx * 2 ^ (ex - E) <= Z.pos pm)%Z ->
  let T := shr_m (fst (shr_fexp prec emax (Z.pos pm) E l)) in
  let e' := snd (shr_fexp prec emax (Z.pos pm) E l) in
  (ex <= e')%Z /\ (Z.pos mx <= T * 2 ^ (e' - ex))%Z.
Proof.
  intros Hc HE Hv. cbv zeta.
  destruct (shr_fexp_spec (Z.pos pm) E l) as [-> ->]; [lia|].
  cbn [Zdigits2]. rewrite fexp_unfold.
  pose proof (canonical_facts mx ex Hc) as [Hex Hmx].
  unfold canonical in Hc. rewrite fexp_unfold in Hc.
  pose proof (digits2_pos_bounds mx) as [Hx1 Hx2].
  pose proof (digits2_pos_bounds pm) as [Hm1 Hm2].
  set (d := Z.pos (digits2_pos pm)) in *.
  set (dx := Z.pos (digits2_pos mx)) in *.
  assert (dx + ex <= d + E)%Z as Hd.
  { assert (2 ^ (dx - 1 + (ex - E)) < 2 ^ d)%Z as Hlt.
    { rewrite pow2_split by lia.
      pose proof (pow2_pos (ex - E) ltac:(lia)). nia. }
    apply Z.pow_lt_mono_r_iff in Hlt; lia. }
  set (n := Z.max (Z.max (d + E - 53) (-1074) - E) 0).
  assert (ex <= E + n)%Z as Hle by lia.
  split; [done|].
  destruct (decide (E + n = ex)%Z) as [Heq|Hne].
  - rewrite Heq, Z.sub_diag, Z.mul_1_r.
    replace n with (ex - E)%Z by lia.
    apply Z.div_le_lower_bound; [apply pow2_pos; lia|]. lia.
  - assert (n = d - 53)%Z as Hn by lia.
    assert (2 ^ 52 <= Z.pos pm / 2 ^ n)%Z as HT.
    { rewrite Hn. apply top_bits; [done|lia]. }
    assert (2 ^ 1 <= 2 ^ (E + n - ex))%Z as H2
      by (apply Z.pow_le_mono_r; lia).
    change (2 ^ 53)%Z with (2 ^ 52 * 2 ^ 1)%Z in Hmx. nia.
Qed.

(** The same from an exponent above. *)
Lemma shr_fexp_bound_high (mx : positive) (ex : Z) (pm : positive) (E : Z) (l : location) :
  canonical mx ex -> (ex <= E)%Z ->
  (Z.pos mx <= Z.pos pm * 2 ^ (E - ex))%Z ->
  let T := shr_m (fst (shr_fexp prec emax (Z.pos pm) E l)) in
  let e' := snd (shr_fexp prec emax (Z.pos pm) E l) in
  (ex <= e')%Z /\ (Z.pos mx <= T * 2 ^ (e' - ex))%Z.
Proof.
  intros Hc HE Hv. cbv zeta.
  destruct (shr_fexp_spec (Z.pos pm) E l) as [-> ->]; [lia|].
  cbn [Zdigits2]. rewrite fexp_unfold.
  pose proof (canonical_facts mx ex Hc) as [Hex Hmx].
  pose proof (digits2_pos_bounds pm) as [Hm1 Hm2].
  set (d := Z.pos (digits2_pos pm)) in *.
  set (n := Z.max (Z.max (d + E - 53) (-1074) - E) 0).
  split; [lia|].
  destruct (decide (n = 0%Z)) as [Heq|Hne].
  - rewrite Heq, Z.add_0_r. cbn. by rewrite Z.div_1_r.
  - assert (n = d - 53)%Z as Hn by lia.
    assert (2 ^ 52 <= Z.pos pm / 2 ^ n)%Z as HT.
    { rewrite Hn. apply top_bits; [done|lia]. }
    assert (2 ^ 1 <= 2 ^ (E + n - ex))%Z as H2
      by (apply Z.pow_le_mono_r; lia).
    change (2 ^ 53)%Z with (2 ^ 52 * 2 ^ 1)%Z in Hmx. nia.
Qed.

Lemma pos_iter_xO (m d : positive) :
  Z.pos (Pos.iter xO m d) = (Z.pos m * 2 ^ Z.pos d)%Z.
Proof.
  induction d as [|d IH] using Pos.peano_ind.
  - cbn. lia.
  - rewrite Pos.iter_succ, Pos2Z.inj_succ, Z.pow_succ_r by lia.
    change (Z.pos (Pos.iter xO m d)~0) with (2 * Z.pos (Pos.iter xO m d))%Z.
    rewrite IH. lia.
Qed.

Lemma shl_align_spec (mx : positive) (ex ex' : Z) :
  snd (shl_align mx ex ex') = Z.min ex ex' /\
  Z.pos (fst (shl_align mx ex ex')) = (Z.pos mx * 2 ^ (ex - Z.min ex ex'))%Z.
Proof.
  unfold shl_align. destruct (ex' - ex)%Z as [|d|d] eqn:Ed; cbn [fst snd].
  - replace (ex - Z.min ex ex')%Z with 0%Z by lia. cbn. lia.
  - replace (ex - Z.min ex ex')%Z with 0%Z by lia. cbn. lia.
  - rewrite pos_iter_xO.
    replace (ex - Z.min ex ex')%Z with (Z.pos d) by lia. lia.
Qed.

Lemma binary_round_aux_bound (mx : positive) (ex : Z) (pm : positive) (E : Z) :
  canonical mx ex -> (E <= ex)%Z ->
  (Z.pos mx * 2 ^ (ex - E) <= Z.pos pm)%Z ->
  not_below mx ex (binary_round_aux prec emax false (Z.pos pm) E loc_Exact).
Proof.
  intros Hc HE Hv. unfold binary_round_aux.
  destruct (shr_fexp_bound_low mx ex pm E loc_Exact Hc HE Hv) as [He' HT].
  destruct (shr_fexp prec emax (Z.pos pm) E loc_Exact) as [mrs' e'] eqn:E1.
  cbn [fst snd] in He', HT.
  pose proof (round_nearest_even_ge (shr_m mrs') (loc_of_shr_record mrs')) as Hr.
  pose proof (pow2_pos (e' - ex) ltac:(lia)) as Hp.
  destruct (round_nearest_even (shr_m mrs') (loc_of_shr_record mrs'))
    as [|pr|pr] eqn:Er; [nia| |nia].
  destruct (shr_fexp_bound_high mx ex pr e' loc_Exact Hc He') as [He'' HT2];
    [nia|].
  destruct (shr_fexp prec emax (Z.pos pr) e' loc_Exact) as [mrs'' e''] eqn:E2.
  cbn [fst snd] in He'', HT2.
  pose proof (pow2_pos (e'' - ex) ltac:(lia)) as Hp2.
  destruct (shr_m mrs'') as [|m|m] eqn:Em; [nia| |nia].
  destruct (e'' <=? emax - prec)%Z; cbn [not_below]; [|done].
  destruct (decide (e'' = ex)) as [->|Hne].
  - right. split; [done|]. rewrite Z.sub_diag in HT2. cbn in HT2. lia.
  - left. lia.
Qed.

Lemma SFadd_finite_bound (mx : positive) (ex : Z) (my : positive) (ey : Z) :
  canonical mx ex ->
  not_below mx ex
    (SFadd prec emax (S754_finite false mx ex) (S754_finite false my ey)).
Proof.
  intros Hc. cbn [SFadd cond_Zopp].
  destruct (shl_align_spec mx ex (Z.min ex ey)) as [_ Hx].
  destruct (shl_align_spec my ey (Z.min ex ey)) as [_ Hy].
  set (ax := fst (shl_align mx ex (Z.min ex ey))) in *.
  set (ay := fst (shl_align my ey (Z.min ex ey))) in *.
  change (Z.pos ax + Z.pos ay)%Z with (Z.pos (ax + ay)).
  cbn [binary_normalize]. unfold binary_round.
  destruct (shl_align_spec (ax + ay) (Z.min ex ey)
              (fexp prec emax (Z.pos (digits2_pos (ax + ay)) + Z.min ex ey)))
    as [HE Hz].
  destruct (shl_align (ax + ay) (Z.min ex ey)
              (fexp prec emax (Z.pos (digits2_pos (ax + ay)) + Z.min ex ey)))
    as [mz E] eqn:Ez.
  cbn [fst snd] in HE, Hz.
  apply binary_round_aux_bound; [done|lia|].
  rewrite Hz, Pos2Z.inj_add, Hx.
  replace (ex - E)%Z with ((ex - Z.min ex (Z.min ex ey)) + (Z.min ex ey - E))%Z
    by lia.
  rewrite pow2_split by lia.
  replace (Z.min ex ey - Z.min (Z.min ex ey)
             (fexp prec emax (Z.pos (digits2_pos (ax + ay)) + Z.min ex ey)))%Z
    with (Z.min ex ey - E)%Z by lia.
  pose proof (pow2_pos (Z.min ex ey - E) ltac:(lia)).
  pose proof (pow2_pos (ex - Z.min ex (Z.min ex ey)) ltac:(lia)).
  nia.
Qed.

Lemma not_below_compare (mx : positive) (ex : Z) (r : spec_float) :
  not_below mx ex r ->
  SFltb (S754_finite false mx ex) r = true \/ r = S754_finite false mx ex.
Proof.
  destruct r as [s|s| |s m e]; cbn [not_below]; try done; destruct s; try done.
  - intros _. by left.
  - unfold SFltb, SFcompare. intros [Hlt|[-> Hle]].
    + left. apply Z.compare_lt_iff in Hlt. by rewrite Hlt.
    + rewrite Z.compare_refl.
      change (Pos.compare_cont Eq mx m) with (Pos.compare mx m).
      destruct (Pos.compare_spec mx m) as [->|Hlt|Hgt]; [by right|by left|lia].
Qed.

(** Adding a number that is [>= 0] to one of positive sign never gives
    less: binary64 addition rounds to the nearest number, and the
    number that was added to is one. *)
Lemma float_add_never_less (c e : float) :
  plus_signed c -> PrimFloat.leb 0 e = true ->
  plus_signed (c + e) /\
  (PrimFloat.ltb c (c + e) = true \/ (c + e)%float = c).
Proof.
  unfold plus_signed.
  rewrite FloatAxioms.leb_spec, FloatAxioms.ltb_spec, FloatAxioms.add_spec.
  replace (Prim2SF 0) with (S754_zero false) by reflexivity.
  intros Hc He.
  assert (SFltb (Prim2SF c) (SF64add (Prim2SF c) (Prim2SF e)) = true \/
          SF64add (Prim2SF c) (Prim2SF e) = Prim2SF c ->
          SFltb (Prim2SF c) (SF64add (Prim2SF c) (Prim2SF e)) = true \/
          (c + e)%float = c) as Hinj.
  { intros [H|H]; [by left|right].
    apply Prim2SF_inj. by rewrite FloatAxioms.add_spec. }
  pose proof (FloatAxioms.Prim2SF_valid c) as Vc.
  unfold SF64add in *.
  destruct (Prim2SF c) as [sc|sc| |sc mc ec]; try done; subst sc;
    destruct (Prim2SF e) as [se|se| |se me ee]; try done;
    try (destruct se; try done);
    try (split; [done|]; apply Hinj; cbn; by auto).
  assert (canonical mc ec) as Hcan.
  { cbn in Vc. apply andb_true_iff in Vc as [Vc _].
    by apply Z.eqb_eq in Vc. }
  pose proof (SFadd_finite_bound mc ec me ee Hcan) as Hb.
  split.
  - destruct (SFadd prec emax _ _) as [s|s| |s m e']; cbn in Hb; try done;
      by destruct s.
  - apply Hinj. by apply not_below_compare.
Qed.

Lemma SFeqb_refl (x : spec_float) :
  SFeqb x x = match x with S754_nan => false | _ => true end.
Proof.
  destruct x as [s|s| |s m e]; try done; try (by destruct s).
  unfold SFeqb, SFcompare.
  rewrite Z.compare_refl, Pos.compare_cont_refl. by destruct s.
Qed.

Lemma SFltb_irrefl (x : spec_float) : SFltb x x = false.
Proof.
  destruct x as [s|s| |s m e]; try done; try (by destruct s).
  unfold SFltb, SFcompare.
  rewrite Z.compare_refl, Pos.compare_cont_refl. by destruct s.
Qed.

Lemma SFltb_trans (x y z : spec_float) :
  SFltb x y = true -> SFltb y z = true -> SFltb x z = true.
Proof.
  unfold SFltb.
  destruct x as [s1|s1| |s1 m1 e1], y as [s2|s2| |s2 m2 e2],
           z as [s3|s3| |s3 m3 e3];
    cbn [SFcompare]; try done;
    try (destruct s1; done); try (destruct s2; done); try (destruct s3; done);
    try (destruct s1, s2; done); try (destruct s2, s3; done);
    try (destruct s1, s3; done); try (destruct s1, s2, s3; done).
  change (Pos.compare_cont Eq m1 m2) with (Pos.compare m1 m2).
  change (Pos.compare_cont Eq m2 m3) with (Pos.compare m2 m3).
  change (Pos.compare_cont Eq m1 m3) with (Pos.compare m1 m3).
  destruct s1, s2, s3; try done;
    destruct (Z.compare_spec e1 e2), (Z.compare_spec e2 e3),
             (Z.compare_spec e1 e3); try done; try lia;
    destruct (Pos.compare_spec m1 m2), (Pos.compare_spec m2 m3),
             (Pos.compare_spec m1 m3); try done; try lia.
Qed.

Lemma float_ltb_irrefl (x : float) : PrimFloat.ltb x x = false.
Proof. rewrite FloatAxioms.ltb_spec. apply SFltb_irrefl. Qed.

Lemma float_ltb_trans (x y z : float) :
  PrimFloat.ltb x y = true -> PrimFloat.ltb y z = true ->
  PrimFloat.ltb x z = true.
Proof. rewrite !FloatAxioms.ltb_spec. apply SFltb_trans. Qed.

Lemma float_max_attained (first : float) (rest : list float) :
  float_max first rest ∈ first :: rest.
Proof.
  revert first. induction rest as [|x rest IH]; intros first.
  - left.
  - cbn [float_max fold_left].
    destruct (PrimFloat.ltb first x).
    + right. apply IH.
    + specialize (IH first). apply elem_of_cons in IH as [E|E].
      * unfold float_max in E. rewrite E. left.
      * right. by right.
Qed.

Lemma float_max_last (first : float) (rest : list float) :
  never_decreases (first :: rest) ->
  last (first :: rest) = Some (float_max first rest).
Proof.
  revert first. induction rest as [|x rest IH]; intros first H; [done|].
  cbn [float_max fold_left].
  assert ((if PrimFloat.ltb first x then x else first) = x) as ->.
  { destruct (H 0 first x) as [E|E]; [done|done|..].
    - by rewrite E.
    - rewrite E. by destruct (PrimFloat.ltb first first). }
  change (last (first :: x :: rest)) with (last (x :: rest)).
  apply IH. intros i a b Ha Hb. by apply (H (S i)).
Qed.

Lemma timeline_last (clock : float) (order : list Task)
      (results : list SchedulingResult) (clock' : float) :
  timeline clock order results clock' ->
  clock' = match last results with
           | Some r => Result.completion_time r
           | None => clock
           end.
Proof.
  induction 1 as [clock|clock t ts r rs clock' _ _ _ _ _ _ IH]; [done|].
  rewrite IH. destruct rs as [|r' rs]; [done|].
  change (last (r :: r' :: rs)) with (last (r' :: rs)).
  destruct (last (r' :: rs)) eqn:E; [done|]. by apply last_None in E.
Qed.

(** The clock a scheduling run ends at is the completion time of its
    last result. *)
Lemma schedule_tasks_clock (self : TaskScheduler) (tasks : list Task)
      (results : list SchedulingResult) (self' : TaskScheduler) :
  schedule_tasks self tasks = Some (Ok results, self') ->
  current_time self' = match last results with
                       | Some r => Result.completion_time r
                       | None => 0%float
                       end.
Proof.
  destruct (build_spec priority true tasks) as [Hb _].
  destruct (schedule_loop_spec (length (build priority true tasks))
              (build priority true tasks) 0%float [] [] Hb)
    as (order & results0 & clock & _ & Hs & Ht & _); [done|].
  unfold schedule_tasks. cbv zeta. rewrite fold_insert_scheduler.
  cbn [priority_queue]. unfold build in Hs. rewrite Hs. intros [= <- <-].
  cbn [current_time]. by apply (timeline_last _ order).
Qed.

(** [max] over the completion times: nothing in the sequence is
    greater than what it returns. *)
Lemma float_max_upper_gen (rest : list float) :
  forall (m : float) (seen : list float),
    (forall c, c ∈ seen -> PrimFloat.ltb m c = false) ->
    forall c, c ∈ seen ++ rest ->
      PrimFloat.ltb
        (fold_left (fun m x => if PrimFloat.ltb m x then x else m) rest m) c
      = false.
Proof.
  induction rest as [|x rest IH]; intros m seen Hm c Hc.
  - rewrite app_nil_r in Hc. by apply Hm.
  - cbn [fold_left]. apply (IH _ (seen ++ [x])); [|by rewrite <- app_assoc].
    intros c' Hc'. apply elem_of_app in Hc' as [Hc'|Hc'].
    + destruct (PrimFloat.ltb m x) eqn:E; [|by apply Hm].
      destruct (PrimFloat.ltb x c') eqn:E'; [|done].
      rewrite <- (Hm c' Hc'). symmetry. by apply (float_ltb_trans m x c').
    + apply list_elem_of_singleton in Hc' as ->.
      destruct (PrimFloat.ltb m x) eqn:E; [apply float_ltb_irrefl|done].
Qed.

Lemma float_max_upper (first : float) (rest : list float) (c : float) :
  c ∈ first :: rest -> PrimFloat.ltb (float_max first rest) c = false.
Proof.
  intros Hc. apply (float_max_upper_gen rest first [first]); [|done].
  intros c' ->%list_elem_of_singleton. apply float_ltb_irrefl.
Qed.

Lemma plus_signed_0 : plus_signed 0.
Proof. reflexivity. Qed.

Lemma plus_signed_zero_or_pos (c : float) :
  plus_signed c -> c = 0%float \/ PrimFloat.ltb 0 c = true.
Proof.
  unfold plus_signed. rewrite FloatAxioms.ltb_spec.
  replace (Prim2SF 0) with (S754_zero false) by reflexivity. intros H.
  destruct (Prim2SF c) as [s|s| |s m e] eqn:E; try done; subst s;
    [left|by right|by right].
  apply Prim2SF_inj. by rewrite E.
Qed.

Lemma never_decreases_tail (a : float) (l : list float) :
  never_decreases (a :: l) -> never_decreases l.
Proof. intros H i x y Hx Hy. by apply (H (S i)). Qed.

(** Along a timeline of tasks with [execution_time >= 0] the clock
    never moves back. *)
Lemma timeline_never_decreases (clock : float) (order : list Task)
      (rs : list SchedulingResult) (clock' : float) :
  timeline clock order rs clock' ->
  plus_signed clock -> execution_times_ok order ->
  never_decreases (clock :: map Result.completion_time rs) /\
  plus_signed clock'.
Proof.
  induction 1 as [clock|clock t ts r rs clock' H1 H2 H3 H4 H5 Ht IH];
    intros Hc Hf.
  - split; [|done]. intros [|i] a b Ha Hb; discriminate.
  - apply Forall_cons in Hf as [He Hf].
    destruct (float_add_never_less clock (execution_time t) Hc He) as [Hs Hm].
    rewrite H2 in H3. rewrite <- H3 in Hs, Hm.
    destruct (IH Hs Hf) as [Hnd Hc'].
    split; [|done]. intros [|i] a b Ha Hb.
    + cbn in Ha, Hb. injection Ha as <-. injection Hb as <-. exact Hm.
    + exact (Hnd i a b Ha Hb).
Qed.

(** A scheduling run of tasks with [execution_time >= 0]: it ends, its
    completion times never decrease, and its clock ends at the last of
    them. *)
Lemma schedule_tasks_run (self : TaskScheduler) (tasks : list Task) :
  execution_times_ok tasks ->
  exists results clock,
    schedule_tasks self tasks = Some (Ok results, mkScheduler [] clock) /\
    length results = length tasks /\
    never_decreases (map Result.completion_time results) /\
    plus_signed clock /\
    clock = match last results with
            | Some r => Result.completion_time r
            | None => 0%float
            end.
Proof.
  intros Hok.
  destruct (build_spec priority true tasks) as [Hb Hp].
  destruct (schedule_loop_spec (length (build priority true tasks))
              (build priority true tasks) 0%float [] [] Hb)
    as (order & results & clock & Hd & Hs & Ht & Hlen); [done|].
  destruct (drain_spec priority true _ Hb) as (out & Hd' & Hperm & _).
  assert (out = order) as ->.
  { unfold drain in Hd'. rewrite Hd in Hd'. by simplify_eq. }
  assert (execution_times_ok order) as Hok'.
  { unfold execution_times_ok. by rewrite Hperm, Hp. }
  destruct (timeline_never_decreases _ _ _ _ Ht plus_signed_0 Hok')
    as [Hnd Hc].
  exists results, clock. split; [|split; [|split; [|split]]].
  - unfold schedule_tasks. cbv zeta. rewrite fold_insert_scheduler.
    cbn [priority_queue]. apply Hs.
  - by rewrite Hlen, Hp.
  - by apply never_decreases_tail in Hnd.
  - done.
  - by apply (timeline_last _ order).
Qed.

Lemma last_map {A B : Type} (f : A -> B) (l : list A) :
  last (map f l) = option_map f (last l).
Proof.
  induction l as [|a l IH]; [done|]. destruct l as [|b l]; [done|].
  exact IH.
Qed.

(** Outside a run the order of the sequence matters: for two hand-made
    results completing at 5.0 and then 3.0, [total_execution_time] is
    5.0, the greatest completion time, and not the last one. *)
Lemma total_time_of_unordered_results :
  let results := [Result.mk "A" 0 5 true 0; Result.mk "B" 5 3 true 5] in
  last (map Result.completion_time results) = Some 3%float /\
  Stats.total_execution_time (get_statistics plain_sum results) = 5%float /\
  Stats.total_execution_time (get_statistics plain_sum results) <> 3%float.
Proof.
  cbv zeta. repeat split; try reflexivity.
  intros E. apply (f_equal (PrimFloat.ltb 3)) in E. vm_compute in E.
  discriminate.
Qed.

(** C6. [get_statistics] is a function of the result sequence alone.
    On every sequence: [total_tasks] is its length and
    [completed_tasks] equals it; [deadline_met] counts the results that
    met their deadline and [deadline_met + deadline_missed =
    total_tasks]; on a non-empty sequence [total_execution_time] is one
    of the completion times and none of them is greater, so it is the
    last one when completion times never decrease; [average_wait_time]
    is the sum of the wait times, added left to right from 0, over the
    count; [throughput] is [completed_tasks / total_execution_time]
    when [total_execution_time > 0] and 0.0 otherwise, so 0.0 when
    [total_execution_time] is 0; on the empty sequence every count is 0
    and the three floats are 0.0.  Scheduling the empty task list
    returns the empty sequence.  And on the results of a scheduling run
    of tasks with [execution_time >= 0]: completion times never
    decrease, [total_execution_time] is the clock the run ends at,
    which is the completion time of the last result, and [throughput]
    is [completed_tasks / total_execution_time] unless
    [total_execution_time] is 0, when it is 0.0. *)
Theorem C6_get_statistics :
  (forall results : list SchedulingResult,
     let st := get_statistics plain_sum results in
     let completions := map Result.completion_time results in
     Stats.total_tasks st = Z.of_nat (length results) /\
     Stats.completed_tasks st = Stats.total_tasks st /\
     Stats.deadline_met st
       = Z.of_nat (length (filter (fun r => Result.deadline_met r = true)
                                  results)) /\
     (Stats.deadline_met st + Stats.deadline_missed st)%Z
       = Stats.total_tasks st /\
     (results <> [] ->
      Stats.total_execution_time st ∈ completions /\
      (forall c, c ∈ completions ->
                 PrimFloat.ltb (Stats.total_execution_time st) c = false) /\
      (never_decreases completions ->
       last completions = Some (Stats.total_execution_time st)) /\
      Stats.average_wait_time st
        = (fold_left PrimFloat.add (map Result.wait_time results) 0
           / float_of_count (Z.of_nat (length results)))%float) /\
     Stats.throughput st
       = (if PrimFloat.ltb 0 (Stats.total_execution_time st)
          then (float_of_count (Stats.completed_tasks st)
                / Stats.total_execution_time st)%float
          else 0%float) /\
     (Stats.total_execution_time st = 0%float ->
      Stats.throughput st = 0%float) /\
     (results = [] -> st = Stats.mk 0 0 0 0 0%float 0%float 0%float)) /\
  (forall self : TaskScheduler,
     schedule_tasks self [] = Some (Ok [], mkScheduler [] 0%float)) /\
  (forall (self : TaskScheduler) (tasks : list Task),
     execution_times_ok tasks ->
     exists results self',
       schedule_tasks self tasks = Some (Ok results, self') /\
       length results = length tasks /\
       never_decreases (map Result.completion_time results) /\
       let st := get_statistics plain_sum results in
       Stats.total_execution_time st = current_time self' /\
       current_time self' = match last results with
                            | Some r => Result.completion_time r
                            | None => 0%float
                            end /\
       (Stats.total_execution_time st = 0%float ->
        Stats.throughput st = 0%float) /\
       (Stats.total_execution_time st <> 0%float ->
        Stats.throughput st
          = (float_of_count (Stats.completed_tasks st)
             / Stats.total_execution_time st)%float)).
Proof.
  assert (forall results : list SchedulingResult,
            let st := get_statistics plain_sum results in
            Stats.throughput st
              = (if PrimFloat.ltb 0 (Stats.total_execution_time st)
                 then (float_of_count (Stats.completed_tasks st)
                       / Stats.total_execution_time st)%float
                 else 0%float)) as Hthr.
  { intros [|first rest]; reflexivity. }
  split; [|split].
  - intros results. cbv zeta. destruct results as [|first rest].
    { repeat split; try reflexivity; try done. }
    pose proof (count_ones _
        (filter (fun r => Result.deadline_met r = true) (first :: rest)) 0)
      as Hcount.
    assert ((Z.of_nat (length (first :: rest)) >? 0)%Z = true) as Hpos.
    { rewrite Z.gtb_ltb. apply Z.ltb_lt. cbn [length]. lia. }
    split; [reflexivity|]. split; [reflexivity|].
    split; [unfold get_statistics; cbv zeta; by rewrite Hcount|].
    split; [unfold get_statistics; cbv zeta; rewrite Hcount;
            cbn [Stats.deadline_met Stats.deadline_missed Stats.total_tasks];
            lia|].
    split; [|split; [apply Hthr|split; [|done]]].
    + intros _.
      split; [apply (float_max_attained (Result.completion_time first)
                       (map Result.completion_time rest))|].
      split; [intros c; apply (float_max_upper (Result.completion_time first)
                                 (map Result.completion_time rest))|].
      split; [apply (float_max_last (Result.completion_time first)
                       (map Result.completion_time rest))|].
      unfold get_statistics. cbv zeta. by rewrite Hpos.
    + intros E. rewrite (Hthr (first :: rest)). cbv zeta. by rewrite E.
  - reflexivity.
  - intros self tasks Hok.
    destruct (schedule_tasks_run self tasks Hok)
      as (results & clock & Hs & Hlen & Hnd & Hc & Hlast).
    exists results, (mkScheduler [] clock).
    split; [done|]. split; [done|]. split; [done|]. cbv zeta.
    cbn [current_time].
    assert (Stats.total_execution_time (get_statistics plain_sum results)
            = clock) as Ht.
    { destruct results as [|first rest]; [by rewrite Hlast|].
      pose proof (float_max_last (Result.completion_time first)
                    (map Result.completion_time rest) Hnd) as Hl.
      change (Result.completion_time first
                :: map Result.completion_time rest)
        with (map Result.completion_time (first :: rest)) in Hl.
      rewrite Hlast. rewrite last_map in Hl.
      destruct (last (first :: rest)) as [r|]; [|done].
      cbn [option_map] in Hl. injection Hl as Hl. symmetry. exact Hl. }
    split; [done|]. split; [done|].
    rewrite (Hthr results). cbv zeta. rewrite Ht. split.
    + intros ->. reflexivity.
    + intros Hne. destruct (plus_signed_zero_or_pos clock Hc) as [E|E];
        [done|by rewrite E].
Qed.

Lemma C6_get_statistics_witness :
  let tasks := [mkTask "A" 10 0 None 5 ""; mkTask "B" 30 0 None 3 "";
                mkTask "C" 20 0 (Some 6%float) 4 ""] in
  let results :=
    [Result.mk "B" 0 3 true 0; Result.mk "C" 3 7 false 3;
     Result.mk "A" 7 12 true 7] in
  (Stats.total_execution_time (get_statistics plain_sum results)
     ∈ map Result.completion_time results /\
   last (map Result.completion_time results)
     = Some (Stats.total_execution_time (get_statistics plain_sum results))) /\
  get_statistics plain_sum [] = Stats.mk 0 0 0 0 0%float 0%float 0%float /\
  Stats.throughput (get_statistics plain_sum [Result.mk "Z" 0 0 true 0])
    = 0%float /\
  (exists rs self',
     schedule_tasks new_scheduler tasks = Some (Ok rs, self') /\
     rs = results /\
     Stats.total_execution_time (get_statistics plain_sum rs)
       = current_time self' /\
     current_time self' = 12%float).
Proof.
  cbv zeta. split; [|split; [|split]].
  - destruct (proj1 C6_get_statistics
                [Result.mk "B" 0 3 true 0; Result.mk "C" 3 7 false 3;
                 Result.mk "A" 7 12 true 7])
      as (_ & _ & _ & _ & H & _).
    destruct (H ltac:(discriminate)) as (Hin & _ & Hlast & _).
    split; [exact Hin|]. apply Hlast.
    intros [|[|[|i]]] a b Ha Hb; cbn in Ha, Hb; simplify_eq; left; reflexivity.
  - apply (proj1 C6_get_statistics []). reflexivity.
  - apply (proj1 C6_get_statistics [Result.mk "Z" 0 0 true 0]). reflexivity.
  - destruct (proj2 (proj2 C6_get_statistics) new_scheduler
                [mkTask "A" 10 0 None 5 ""; mkTask "B" 30 0 None 3 "";
                 mkTask "C" 20 0 (Some 6%float) 4 ""])
      as (rs & self' & Hs & _ & _ & Ht & Hl & _).
    { repeat constructor. }
    exists rs, self'. split; [exact Hs|].
    vm_compute in Hs. injection Hs as <- <-.
    split; [reflexivity|]. split; reflexivity.
Defined.

(** ** Key updates on task objects *)

Section Rekey.

Context {T : Type}.
Variables key key' : T -> Z.
Variable is_max_heap : bool.

(** The heap property under [key], seen under a key [key'] that differs
    at index [i] only, where the item ranks higher than before: the
    hole [_heapify_up] repairs. *)
Lemma rekey_up_ok (h : list T) (i : nat) (x : T) :
  heap_property key is_max_heap h ->
  h !! i = Some x ->
  (forall j e, h !! j = Some e -> j <> i -> key' e = key e) ->
  ranks_above is_max_heap (key' x) (key x) = true ->
  up_ok key' is_max_heap h i.
Proof.
  intros H Hx Hsame Hdir.
  assert (forall j c p, 0 < j -> h !! j = Some c -> h !! ((j - 1) / 2) = Some p ->
                        dominates key is_max_heap p c) as H' by exact H.
  unfold up_ok, dominates, ranks_above in *. split.
  - intros j c p Hj Hne Hc Hp.
    pose proof (H' j c p Hj Hc Hp) as D.
    rewrite (Hsame j c Hc Hne).
    destruct (decide ((j - 1) / 2 = i)) as [E|E].
    + rewrite E in Hp. assert (p = x) as -> by congruence.
      destruct is_max_heap; lia.
    + by rewrite (Hsame _ p Hp E).
  - intros j c g Hi Hj Hpar Hc Hg.
    pose proof (parent_lt j Hj). pose proof (parent_lt i Hi).
    rewrite (Hsame j c Hc) by lia. rewrite (Hsame _ g Hg) by lia.
    pose proof (H' i x g Hi Hx Hg).
    rewrite <- Hpar in Hx. pose proof (H' j c x Hj Hc Hx).
    destruct is_max_heap; lia.
Qed.

(** The same when the item ranks lower than before: the hole
    [_heapify_down] repairs. *)
Lemma rekey_down_ok (h : list T) (i : nat) (x : T) :
  heap_property key is_max_heap h ->
  h !! i = Some x ->
  (forall j e, h !! j = Some e -> j <> i -> key' e = key e) ->
  ranks_above is_max_heap (key x) (key' x) = true ->
  down_ok key' is_max_heap h i.
Proof.
  intros H Hx Hsame Hdir.
  assert (forall j c p, 0 < j -> h !! j = Some c -> h !! ((j - 1) / 2) = Some p ->
                        dominates key is_max_heap p c) as H' by exact H.
  unfold down_ok, dominates, ranks_above in *. split.
  - intros j c p Hj Hne Hc Hp.
    pose proof (H' j c p Hj Hc Hp) as D.
    rewrite (Hsame _ p Hp Hne).
    destruct (decide (j = i)) as [E|E].
    + rewrite E in Hc. assert (c = x) as -> by congruence.
      destruct is_max_heap; lia.
    + by rewrite (Hsame j c Hc E).
  - intros j c g Hi Hj Hpar Hc Hg.
    pose proof (parent_lt j Hj). pose proof (parent_lt i Hi).
    rewrite (Hsame j c Hc) by lia. rewrite (Hsame _ g Hg) by lia.
    pose proof (H' i x g Hi Hx Hg).
    rewrite <- Hpar in Hx. pose proof (H' j c x Hj Hc Hx).
    destruct is_max_heap; lia.
Qed.

End Rekey.

Lemma item_is_eq (a b : item) : item_is a b = true <-> a = b.
Proof.
  destruct a as [r|n], b as [r'|k]; cbn; split; try done.
  - by intros ->%Nat.eqb_eq.
  - intros [= ->]. apply Nat.eqb_refl.
  - by intros ->%Z.eqb_eq.
  - intros [= ->]. apply Z.eqb_refl.
Qed.

Lemma item_is_at_spec (h : list item) (i : nat) (x : item) :
  item_is_at h i x = true <-> h !! i = Some x.
Proof.
  unfold item_is_at. destruct (h !! i) as [e|]; [|done].
  rewrite item_is_eq. split; congruence.
Qed.

Lemma only_at_spec (h : list item) (i : nat) (x : item) :
  only_at h i x = true ->
  forall j, h !! j = Some x -> j = i.
Proof.
  unfold only_at. rewrite forallb_forall. intros H j Hj.
  assert (In j (seq 0 (length h))) as Hin.
  { apply in_seq. apply lookup_lt_Some in Hj. lia. }
  apply H in Hin. apply orb_true_iff in Hin as [E|E].
  - by apply Nat.eqb_eq in E.
  - apply negb_true_iff in E. apply item_is_at_spec in Hj. congruence.
Qed.

Lemma default_key_store_same (m : memory) (r : ref) (p : Z) :
  default_key (store_priority m r p) (ITask r) = p.
Proof. unfold default_key, store_priority. by rewrite Nat.eqb_refl. Qed.

Lemma default_key_store_other (m : memory) (r : ref) (p : Z) (e : item) :
  e <> ITask r ->
  default_key (store_priority m r p) e = default_key m e.
Proof.
  intros Hne. destruct e as [r'|n]; [|done].
  unfold default_key, store_priority.
  destruct (r' =? r) eqn:E; [|done].
  apply Nat.eqb_eq in E. congruence.
Qed.

Lemma extract_max_heap_property {T : Type} (key : T -> Z) (is_max_heap : bool)
      (h : list T) :
  heap_property key is_max_heap h ->
  heap_property key is_max_heap (snd (extract_max key is_max_heap h)).
Proof.
  intros H. destruct h as [|y t]; [done|].
  destruct (extract_max_spec key is_max_heap (y :: t))
    as (root & h' & -> & _ & Hok & _); done.
Qed.

(** The memory after a key update on [x]. *)
Lemma increase_key_found (q : queue) (x : item) (p : Z) (i : nat) :
  list_index (mem q) (heap q) x = Ok i ->
  increase_key q x p =
    (let m := match x with
              | ITask r => store_priority (mem q) r p
              | IInt _ => mem q
              end in
     mkQueue m (_heapify_up (default_key m) (max_mode q) (heap q) i) (max_mode q),
     true).
Proof. intros E. unfold increase_key. by rewrite E. Qed.

Lemma decrease_key_found (q : queue) (x : item) (p : Z) (i : nat) :
  list_index (mem q) (heap q) x = Ok i ->
  decrease_key q x p =
    (let m := match x with
              | ITask r => store_priority (mem q) r p
              | IInt _ => mem q
              end in
     mkQueue m (_heapify_down (default_key m) (max_mode q) (heap q) i) (max_mode q),
     true).
Proof. intros E. unfold decrease_key. by rewrite E. Qed.

Lemma fits_update_found (bubble_up : bool) (q : queue) (r : ref) (p : Z) (i : nat) :
  fits_update bubble_up q (ITask r) p = true ->
  list_index (mem q) (heap q) (ITask r) = Ok i ->
  heap q !! i = Some (ITask r) /\
  (forall j e, heap q !! j = Some e -> j <> i ->
               default_key (store_priority (mem q) r p) e = default_key (mem q) e) /\
  (if bubble_up
   then ranks_above (max_mode q) p (priority (mem q r))
   else ranks_above (max_mode q) (priority (mem q r)) p) = true.
Proof.
  unfold fits_update. intros H E. rewrite E in H.
  apply andb_true_iff in H as [H Hdir]. apply andb_true_iff in H as [Hat Honly].
  apply item_is_at_spec in Hat. repeat split; [done| |done].
  intros j e He Hne. apply default_key_store_other. intros ->.
  by apply Hne, (only_at_spec (heap q) i (ITask r)).
Qed.

Lemma increase_key_queue_ok (q : queue) (x : item) (p : Z) :
  queue_ok q -> fits_update true q x p = true ->
  queue_ok (fst (increase_key q x p)).
Proof.
  intros H Hfit.
  destruct (list_index (mem q) (heap q) x) as [i|e] eqn:E.
  2:{ unfold increase_key. by rewrite E. }
  rewrite (increase_key_found q x p i E). cbv zeta.
  unfold queue_ok, _heapify_up. cbn [fst mem heap max_mode].
  apply heapify_up_loop_ok; [done|].
  destruct x as [r|n].
  - destruct (fits_update_found true q r p i Hfit E) as (Hx & Hsame & Hdir).
    apply (rekey_up_ok (default_key (mem q)) _ _ _ i (ITask r)); try done.
    by rewrite default_key_store_same.
  - by apply heap_ok_up_ok.
Qed.

Lemma decrease_key_queue_ok (q : queue) (x : item) (p : Z) :
  queue_ok q -> fits_update false q x p = true ->
  queue_ok (fst (decrease_key q x p)).
Proof.
  intros H Hfit.
  destruct (list_index (mem q) (heap q) x) as [i|e] eqn:E.
  2:{ unfold decrease_key. by rewrite E. }
  rewrite (decrease_key_found q x p i E). cbv zeta.
  unfold queue_ok, _heapify_down. cbn [fst mem heap max_mode]. cbv zeta.
  apply heapify_down_loop_ok; [lia|].
  destruct x as [r|n].
  - destruct (fits_update_found false q r p i Hfit E) as (Hx & Hsame & Hdir).
    apply (rekey_down_ok (default_key (mem q)) _ _ _ i (ITask r)); try done.
    by rewrite default_key_store_same.
  - by apply heap_ok_down_ok.
Qed.

Lemma apply_op_queue_ok (q : queue) (o : op) :
  queue_ok q -> fits q o = true -> queue_ok (apply_op q o).
Proof.
  intros H Hfit. destruct o as [x| | |x p|x p]; cbn [apply_op fits] in *.
  - by apply insert_heap_property.
  - unfold q_extract_max, queue_ok.
    pose proof (extract_max_heap_property _ _ _ H) as H'.
    by destruct (extract_max _ _ _).
  - unfold q_extract_min, queue_ok.
    pose proof (extract_max_heap_property _ _ _ H) as H'.
    change (extract_min (default_key (mem q)) (max_mode q) (heap q))
      with (extract_max (default_key (mem q)) (max_mode q) (heap q)).
    by destruct (extract_max _ _ _).
  - by apply increase_key_queue_ok.
  - by apply decrease_key_queue_ok.
Qed.

(** C1, as stated, fails: [increase_key] only bubbles up, so a new
    priority lower than the old one leaves the task above a child of
    higher priority. *)
Lemma C1_increase_key_to_lower_priority_breaks_heap :
  let m := objects [mkTask "A" 20 0 None 1 ""; mkTask "B" 10 0 None 1 ""] in
  let q := run_ops (mkQueue m [] true) [Insert (ITask 0); Insert (ITask 1)] in
  queue_ok q /\
  heap (run_ops q [IncreaseKey (ITask 0) 5]) = [ITask 0; ITask 1] /\
  ~ queue_ok (run_ops q [IncreaseKey (ITask 0) 5]).
Proof.
  cbv zeta. split; [|split].
  - apply heap_propertyb_spec. reflexivity.
  - reflexivity.
  - intros H. apply heap_propertyb_spec in H. vm_compute in H. discriminate.
Qed.

(** C1, amended. From every queue that satisfies the binary-heap
    invariant, every finite sequence of [insert], [extract_max],
    [extract_min], [increase_key] and [decrease_key] in which each key
    update fits the queue it is applied to ([increase_key] with a new
    priority that does not rank below the old one in the heap's mode,
    [decrease_key] with one that does not rank above it, the scan
    stopping at the task itself, present once) leaves a queue that
    satisfies the invariant: every parent priority is [>=] its
    children's in a max-heap, [<=] in a min-heap. *)
Theorem C1_heap_invariant_preserved (q : queue) (ops : list op) :
  queue_ok q -> fits_run q ops = true -> queue_ok (run_ops q ops).
Proof.
  revert q. induction ops as [|o ops IH]; intros q H Hfit; [done|].
  cbn [fits_run] in Hfit. apply andb_true_iff in Hfit as [Ho Hrest].
  cbn [run_ops fold_left]. apply IH; [|done].
  by apply apply_op_queue_ok.
Qed.

Lemma C1_heap_invariant_preserved_witness :
  let m := objects [mkTask "A" 10 0 None 1 ""; mkTask "B" 30 0 None 1 "";
                    mkTask "C" 20 0 None 1 ""; mkTask "D" 5 0 None 1 ""] in
  queue_ok
    (run_ops (mkQueue m [] true)
       [Insert (ITask 0); Insert (ITask 1); Insert (ITask 2); Insert (ITask 3);
        IncreaseKey (ITask 3) 40; DecreaseKey (ITask 1) 1; ExtractMax;
        Insert (IInt 7); ExtractMin; DecreaseKey (ITask 2) 2]).
Proof.
  cbv zeta. apply C1_heap_invariant_preserved.
  - apply heap_propertyb_spec. reflexivity.
  - vm_compute. reflexivity.
Defined.

(** The key-update tests of [tests/test_priority_queue.py]. *)
Example test_increase_key :
  let m := objects [mkTask "T1" 10 0 None 1 ""; mkTask "T2" 20 1 None 1 ""] in
  let q := run_ops (mkQueue m [] true) [Insert (ITask 0); Insert (ITask 1)] in
  peek (heap q) = Ok (Some (ITask 1)) /\
  snd (increase_key q (ITask 0) 25) = true /\
  priority (mem (fst (increase_key q (ITask 0) 25)) 0) = 25%Z /\
  peek (heap (fst (increase_key q (ITask 0) 25))) = Ok (Some (ITask 0)).
Proof. cbv zeta. repeat split; reflexivity. Qed.

Example test_decrease_key :
  let m := objects [mkTask "T1" 20 0 None 1 ""; mkTask "T2" 10 1 None 1 ""] in
  let q := run_ops (mkQueue m [] true) [Insert (ITask 0); Insert (ITask 1)] in
  peek (heap q) = Ok (Some (ITask 0)) /\
  snd (decrease_key q (ITask 0) 5) = true /\
  priority (mem (fst (decrease_key q (ITask 0) 5)) 0) = 5%Z /\
  peek (heap (fst (decrease_key q (ITask 0) 5))) = Ok (Some (ITask 1)).
Proof. cbv zeta. repeat split; reflexivity. Qed.

Example test_key_update_not_found :
  let q := mkQueue (objects [mkTask "T1" 10 0 None 1 ""]) [] true in
  snd (increase_key q (ITask 0) 20) = false /\
  snd (decrease_key q (ITask 0) 5) = false /\
  heap (fst (increase_key q (ITask 0) 20)) = [].
Proof. cbv zeta. repeat split; reflexivity. Qed.

(** C3. The code at the failing inputs: with two tasks of priority 10 in
    the heap, the scan for the second stops at the slot of the first,
    the second gets its new priority without being moved, and the heap
    order is broken; and for a task that was never inserted but shares a
    priority with one that was, the update reports success. *)
Theorem C3_key_update_scans_by_priority :
  let m := objects [mkTask "A" 10 0 None 1 ""; mkTask "B" 10 0 None 1 "";
                    mkTask "C" 10 0 None 1 ""] in
  let q := run_ops (mkQueue m [] true) [Insert (ITask 0); Insert (ITask 1)] in
  let q1 := increase_key q (ITask 1) 20 in
  let q2 := increase_key q (ITask 2) 20 in
  heap q = [ITask 0; ITask 1] /\
  list_index (mem q) (heap q) (ITask 1) = Ok 0 /\
  snd q1 = true /\
  heap (fst q1) = [ITask 0; ITask 1] /\
  priority (mem (fst q1) 0) = 10%Z /\
  priority (mem (fst q1) 1) = 20%Z /\
  queue_okb (fst q1) = false /\
  peek (heap (fst q1)) = Ok (Some (ITask 0)) /\
  list_index (mem q) (heap q) (ITask 2) = Ok 0 /\
  snd q2 = true /\
  priority (mem (fst q2) 2) = 20%Z.
Proof. cbv zeta. repeat split; reflexivity. Qed.

(** ** The scan of [list.index] *)

Lemma list_index_first_same_priority (m : memory) (h : list item) (r : ref) :
  forall (i : nat) (r' : ref),
    h !! i = Some (ITask r') ->
    priority (m r') = priority (m r) ->
    (forall j r'', j < i -> h !! j = Some (ITask r'') ->
                   priority (m r'') <> priority (m r)) ->
    list_index m h (ITask r) = Ok i.
Proof.
  induction h as [|e h IH]; intros i r' Hi Hp Hbefore; [done|].
  destruct i as [|i]; cbn [list_index].
  - cbn in Hi. injection Hi as ->. cbn. rewrite Hp, Z.eqb_refl.
    by rewrite orb_true_r.
  - assert (item_is e (ITask r) || item_eq m e (ITask r) = false) as ->.
    { destruct e as [r''|n]; cbn; [|done].
      assert (priority (m r'') <> priority (m r)) as Hne
        by (apply (Hbefore 0); [lia|done]).
      apply orb_false_iff. split.
      - apply Nat.eqb_neq. by intros ->.
      - by apply Z.eqb_neq. }
    rewrite (IH i r'); [done|done|done|].
    intros j r'' Hj. apply (Hbefore (S j)). lia.
Qed.

(** C9. [Task.__eq__] looks at the priority only: two tasks are equal
    exactly when their priorities are, whatever their other fields; a
    task never equals a value that is not a task; and therefore the
    scan of [list.index] for a task stops at the first task of the same
    priority, whether or not it is the task asked for. *)
Theorem C9_task_equality_is_priority_equality :
  (forall a b : Task,
     TaskM.__eq__ a (OTask b) = true <-> priority a = priority b) /\
  (forall (a : Task) (x : object),
     isinstance_Task x = false -> TaskM.__eq__ a x = false) /\
  (forall (m : memory) (h : list item) (r r' : ref) (i : nat),
     h !! i = Some (ITask r') ->
     priority (m r') = priority (m r) ->
     (forall j r'', j < i -> h !! j = Some (ITask r'') ->
                    priority (m r'') <> priority (m r)) ->
     list_index m h (ITask r) = Ok i).
Proof.
  split; [|split].
  - intros a b. cbn. apply Z.eqb_eq.
  - intros a [t|n|s|]; cbn; done.
  - intros m h r r' i. apply list_index_first_same_priority.
Qed.

Lemma C9_task_equality_is_priority_equality_witness :
  let m := objects [mkTask "A" 10 0 None 1 ""; mkTask "B" 10 5 (Some 9%float) 2 "b"] in
  TaskM.__eq__ (m 0) (OTask (m 1)) = true /\
  TaskM.__eq__ (m 0) (OInt 10) = false /\
  [ITask 0; ITask 1] !! 0 = Some (ITask 0) /\
  list_index m [ITask 0; ITask 1] (ITask 1) = Ok 0.
Proof.
  cbv zeta. split; [|split; [|split]].
  - apply (proj1 C9_task_equality_is_priority_equality). reflexivity.
  - apply (proj1 (proj2 C9_task_equality_is_priority_equality)). reflexivity.
  - reflexivity.
  - apply (proj2 (proj2 C9_task_equality_is_priority_equality) _ _ 1 0 0).
    + reflexivity.
    + reflexivity.
    + intros j r'' Hj. lia.
Defined.

(** ** Key update against rebuilding *)

Lemma sorted_Permutation_unique {T : Type} (key : T -> Z) (is_max_heap : bool)
      (l1 : list T) :
  forall l2 : list T,
    StronglySorted (dominates key is_max_heap) l1 ->
    StronglySorted (dominates key is_max_heap) l2 ->
    l1 ≡ₚ l2 -> NoDup (map key l1) -> l1 = l2.
Proof.
  induction l1 as [|a l1 IH]; intros l2 S1 S2 Hp Hnd.
  - by apply Permutation_nil_l in Hp.
  - destruct l2 as [|b l2].
    { by apply Permutation_nil_r in Hp. }
    apply StronglySorted_inv in S1 as [S1 F1].
    apply StronglySorted_inv in S2 as [S2 F2].
    cbn [map] in Hnd. apply NoDup_cons in Hnd as [Hnotin Hnd].
    assert (a = b) as ->.
    { assert (a ∈ b :: l2) as Ha by (rewrite <- Hp; left).
      assert (b ∈ a :: l1) as Hb by (rewrite Hp; left).
      apply elem_of_cons in Ha as [Ha|Ha]; [done|].
      apply elem_of_cons in Hb as [Hb|Hb]; [done|].
      exfalso. apply Hnotin.
      rewrite Forall_forall in F1, F2.
      pose proof (F1 b Hb) as D1. pose proof (F2 a Ha) as D2.
      assert (key a = key b) as ->
        by (unfold dominates in D1, D2; destruct is_max_heap; lia).
      apply list_elem_of_fmap. by exists b. }
    f_equal. apply IH; try done. by apply Permutation_cons_inv in Hp.
Qed.

Lemma heapify_up_Permutation {T : Type} (key : T -> Z) (is_max_heap : bool)
      (h : list T) (i : nat) :
  _heapify_up key is_max_heap h i ≡ₚ h.
Proof. apply heapify_up_loop_Permutation. Qed.

Lemma heapify_down_Permutation {T : Type} (key : T -> Z) (is_max_heap : bool)
      (h : list T) (i : nat) :
  _heapify_down key is_max_heap h i ≡ₚ h.
Proof. apply heapify_down_loop_Permutation. Qed.

(** C2, as stated, fails: lowering the priority of the root through
    [increase_key] leaves it at the root, so draining returns it first,
    while a heap rebuilt with the new priority returns it last. *)
Lemma C2_update_then_drain_differs_from_rebuild :
  let m := objects [mkTask "A" 20 0 None 1 ""; mkTask "B" 10 0 None 1 ""] in
  let q := run_ops (mkQueue m [] true) [Insert (ITask 0); Insert (ITask 1)] in
  let q' := fst (increase_key q (ITask 0) 5) in
  let key' := default_key (mem q') in
  priority (mem q' 0) = 5%Z /\
  drain key' true (heap q') = Some (Ok [ITask 0; ITask 1]) /\
  drain key' true (build key' true [ITask 0; ITask 1])
    = Some (Ok [ITask 1; ITask 0]) /\
  drain key' true (build key' true [ITask 1; ITask 0])
    = Some (Ok [ITask 1; ITask 0]).
Proof. cbv zeta. repeat split; reflexivity. Qed.

(** C2, amended. Take a queue that satisfies the invariant and holds the
    task X once, where the scan finds it, and a new priority that the
    entry point used is made for ([increase_key] when it does not rank
    below the old one in the heap's mode, [decrease_key] when it does
    not rank above it), the priorities after the update being pairwise
    distinct.  Then updating and draining returns the items in the same
    order as draining a heap rebuilt from scratch by inserting the same
    items, in any order, with X's priority replaced. *)
Theorem C2_update_then_drain_is_rebuild
        (bubble_up : bool) (q : queue) (r : ref) (p : Z) (i : nat)
        (l : list item) :
  let update := if bubble_up then increase_key else decrease_key in
  let m' := store_priority (mem q) r p in
  queue_ok q ->
  list_index (mem q) (heap q) (ITask r) = Ok i ->
  fits_update bubble_up q (ITask r) p = true ->
  NoDup (map (default_key m') (heap q)) ->
  l ≡ₚ heap q ->
  exists out,
    snd (update q (ITask r) p) = true /\
    mem (fst (update q (ITask r) p)) = m' /\
    drain (default_key m') (max_mode q) (heap (fst (update q (ITask r) p)))
      = Some (Ok out) /\
    drain (default_key m') (max_mode q) (build (default_key m') (max_mode q) l)
      = Some (Ok out).
Proof.
  cbv zeta. intros H Hfound Hfit Hnd Hl.
  set (m' := store_priority (mem q) r p) in *.
  set (q' := fst ((if bubble_up then increase_key else decrease_key) q (ITask r) p)).
  assert (queue_ok q' /\ mem q' = m' /\ max_mode q' = max_mode q /\
          heap q' ≡ₚ heap q /\
          snd ((if bubble_up then increase_key else decrease_key) q (ITask r) p) = true)
    as (Hok & Hmem & Hmode & Hperm & Hret).
  { subst q'. destruct bubble_up.
    - pose proof (increase_key_queue_ok q (ITask r) p H Hfit) as Hok.
      rewrite (increase_key_found q (ITask r) p i Hfound) in *.
      cbv zeta in *. cbn [fst snd mem heap max_mode] in *.
      repeat split; try done. apply heapify_up_Permutation.
    - pose proof (decrease_key_queue_ok q (ITask r) p H Hfit) as Hok.
      rewrite (decrease_key_found q (ITask r) p i Hfound) in *.
      cbv zeta in *. cbn [fst snd mem heap max_mode] in *.
      repeat split; try done. apply heapify_down_Permutation. }
  unfold queue_ok in Hok. rewrite Hmem, Hmode in Hok.
  destruct (drain_spec _ _ _ Hok) as (out & Hd & Hp1 & Hs1).
  destruct (build_spec (default_key m') (max_mode q) l) as [Hb Hpb].
  destruct (drain_spec _ _ _ Hb) as (out2 & Hd2 & Hp2 & Hs2).
  assert (out = out2) as <-.
  { apply (sorted_Permutation_unique (default_key m') (max_mode q)); try done.
    - by rewrite Hp1, Hperm, Hp2, Hpb, Hl.
    - assert (map (default_key m') (heap q) ≡ₚ map (default_key m') out) as Hpm
        by (apply Permutation_map; by rewrite Hp1, Hperm).
      by rewrite <- Hpm. }
  exists out. repeat split; done.
Qed.

Lemma C2_update_then_drain_is_rebuild_witness :
  let m := objects [mkTask "A" 10 0 None 1 ""; mkTask "B" 30 0 None 1 "";
                    mkTask "C" 20 0 None 1 ""] in
  let q := mkQueue m [ITask 1; ITask 0; ITask 2] true in
  let m' := store_priority m 0 40 in
  exists out,
    snd (increase_key q (ITask 0) 40) = true /\
    mem (fst (increase_key q (ITask 0) 40)) = m' /\
    drain (default_key m') true (heap (fst (increase_key q (ITask 0) 40)))
      = Some (Ok out) /\
    drain (default_key m') true
          (build (default_key m') true [ITask 0; ITask 1; ITask 2])
      = Some (Ok out).
Proof.
  cbv zeta.
  apply (C2_update_then_drain_is_rebuild true
           (mkQueue (objects [mkTask "A" 10 0 None 1 ""; mkTask "B" 30 0 None 1 "";
                              mkTask "C" 20 0 None 1 ""])
                    [ITask 1; ITask 0; ITask 2] true)
           0 40 1 [ITask 0; ITask 1; ITask 2]).
  - apply heap_propertyb_spec. reflexivity.
  - reflexivity.
  - reflexivity.
  - vm_compute. repeat (apply NoDup_cons; split); try apply NoDup_nil_2;
      rewrite ?elem_of_cons, elem_of_nil; lia.
  - apply perm_swap.
Defined.


(** * Further properties of the code *)

(** ** The queue as a container *)

(** [extract_max] by cases, on any list. *)
Lemma extract_max_cases {T : Type} (key : T -> Z) (is_max_heap : bool)
      (h : list T) :
  (h = [] /\ extract_max key is_max_heap h = (Raise IndexError, h)) \/
  (exists root h',
     extract_max key is_max_heap h = (Ok root, h') /\
     h !! 0 = Some root /\ h ≡ₚ root :: h' /\ length h = S (length h')).
Proof.
  destruct (heap_shape h) as [->|[[x ->]|(root & mid & x & ->)]].
  - by left.
  - right. exists x, []. by rewrite extract_max_singleton.
  - right. exists root, (_heapify_down key is_max_heap (x :: mid) 0).
    rewrite extract_max_cons. unfold _heapify_down. cbv zeta.
    repeat split.
    + rewrite heapify_down_loop_Permutation. constructor.
      by rewrite Permutation_app_comm.
    + rewrite heapify_down_loop_length. cbn. rewrite length_app. cbn. lia.
Qed.

Lemma key_update_heap_Permutation (q : queue) (x : item) (p : Z) :
  heap (fst (increase_key q x p)) ≡ₚ heap q /\
  heap (fst (decrease_key q x p)) ≡ₚ heap q.
Proof.
  unfold increase_key, decrease_key.
  destruct (list_index (mem q) (heap q) x) as [i|e]; cbn [fst heap]; [|done].
  split; [apply heapify_up_Permutation | apply heapify_down_Permutation].
Qed.

(** X1. Size conservation: [insert] makes [size] one larger, an
    extraction that returns an item makes it one smaller, an extraction
    that raises leaves the heap as it was, and [increase_key] and
    [decrease_key] never change [size]. *)
Theorem X1_size_conservation :
  (forall (T : Type) (key : T -> Z) (is_max_heap : bool) (h : list T) (x : T),
     size (insert key is_max_heap h x) = S (size h)) /\
  (forall (T : Type) (key : T -> Z) (is_max_heap : bool) (h h' : list T) (x : T),
     extract_max key is_max_heap h = (Ok x, h') -> size h = S (size h')) /\
  (forall (T : Type) (key : T -> Z) (is_max_heap : bool) (h h' : list T) (e : exn),
     extract_max key is_max_heap h = (Raise e, h') -> h' = h /\ size h = 0) /\
  (forall (q : queue) (x : item) (p : Z),
     size (heap (fst (increase_key q x p))) = size (heap q) /\
     size (heap (fst (decrease_key q x p))) = size (heap q)).
Proof.
  unfold size. repeat split.
  - intros. apply insert_length.
  - intros T key mode h h' x E.
    destruct (extract_max_cases key mode h) as [[_ E']|(r & h'' & E' & _ & _ & L)];
      rewrite E' in E; by simplify_eq.
  - destruct (extract_max_cases key is_max_heap h) as [[_ E']|(r & h'' & E' & _)];
      rewrite E' in H; by simplify_eq.
  - destruct (extract_max_cases key is_max_heap h) as [[-> E']|(r & h'' & E' & _)];
      [done|]. rewrite E' in H. by simplify_eq.
  - by rewrite (proj1 (key_update_heap_Permutation q x p)).
  - by rewrite (proj2 (key_update_heap_Permutation q x p)).
Qed.

Lemma X1_size_conservation_witness :
  size [30; 10; 20]%Z = S (size [20; 10]%Z) /\
  ([] : list Z) = [] /\ size ([] : list Z) = 0.
Proof.
  split.
  - apply (proj1 (proj2 X1_size_conservation) Z id true [30; 10; 20]%Z
                 [20; 10]%Z 30%Z).
    reflexivity.
  - apply (proj1 (proj2 (proj2 X1_size_conservation)) Z id true [] []
                 IndexError).
    reflexivity.
Defined.

(** X2. No item is lost or invented: after [insert] the heap holds the
    old items and the new one; an extraction that returns an item
    returns the root and leaves the others; [increase_key] and
    [decrease_key] keep the same items, whether or not the heap order
    holds. *)
Theorem X2_items_conserved :
  (forall (T : Type) (key : T -> Z) (is_max_heap : bool) (h : list T) (x : T),
     insert key is_max_heap h x ≡ₚ x :: h) /\
  (forall (T : Type) (key : T -> Z) (is_max_heap : bool) (h h' : list T) (x : T),
     extract_max key is_max_heap h = (Ok x, h') ->
     h !! 0 = Some x /\ h ≡ₚ x :: h') /\
  (forall (q : queue) (x : item) (p : Z),
     heap (fst (increase_key q x p)) ≡ₚ heap q /\
     heap (fst (decrease_key q x p)) ≡ₚ heap q).
Proof.
  split; [|split].
  - intros. apply insert_Permutation.
  - intros T key mode h h' x E.
    destruct (extract_max_cases key mode h) as [[_ E']|(r & h'' & E' & R & P & _)];
      rewrite E' in E; by simplify_eq.
  - apply key_update_heap_Permutation.
Qed.

Lemma X2_items_conserved_witness :
  [30; 10; 20]%Z !! 0 = Some 30%Z /\ [30; 10; 20]%Z ≡ₚ [30; 20; 10]%Z.
Proof.
  apply (proj1 (proj2 X2_items_conserved) Z id true [30; 10; 20]%Z
               [20; 10]%Z 30%Z).
  reflexivity.
Defined.

(** X3. [peek] never raises and does not depend on key or mode: it
    returns [None] on the empty heap and the root otherwise; the root
    is the item the next extraction returns, and on a heap that
    satisfies the invariant no item has a higher priority in a max-heap
    (a lower one in a min-heap). *)
Theorem X3_peek_is_next_extraction :
  (forall (T : Type) (h : list T), peek h = Ok (h !! 0)) /\
  (forall (T : Type) (key : T -> Z) (is_max_heap : bool) (h h' : list T) (x : T),
     extract_max key is_max_heap h = (Ok x, h') <->
     (peek h = Ok (Some x) /\ h' = snd (extract_max key is_max_heap h))) /\
  (forall (T : Type) (key : T -> Z) (is_max_heap : bool) (h : list T) (x : T),
     heap_property key is_max_heap h -> peek h = Ok (Some x) ->
     forall y, y ∈ h -> dominates key is_max_heap x y).
Proof.
  assert (forall (T : Type) (h : list T), peek h = Ok (h !! 0)) as Hpeek.
  { intros T [|x h]; reflexivity. }
  split; [done|]. split.
  - intros T key mode h h' x. rewrite Hpeek. split.
    + intros E.
      destruct (extract_max_cases key mode h) as [[_ E']|(r & h'' & E' & R & _)];
        rewrite E' in E; simplify_eq. by rewrite E', R.
    + intros [E ->]. injection E as E.
      destruct (extract_max_cases key mode h) as [[-> _]|(r & h'' & E' & R & _)];
        [done|]. rewrite E'. cbn [snd]. congruence.
  - intros T key mode h x H E y [i Hi]%list_elem_of_lookup.
    rewrite Hpeek in E. injection E as E.
    by apply (root_dominates key mode h x H E i).
Qed.

Lemma X3_peek_is_next_extraction_witness :
  (peek [30; 10; 20]%Z = Ok (Some 30%Z) /\
   [20; 10]%Z = snd (extract_max id true [30; 10; 20]%Z)) /\
  forall y, y ∈ [30; 10; 20]%Z -> dominates id true 30%Z y.
Proof.
  split.
  - apply (proj1 (proj2 X3_peek_is_next_extraction) Z id true). reflexivity.
  - apply (proj2 (proj2 X3_peek_is_next_extraction) Z id true [30; 10; 20]%Z).
    + apply heap_propertyb_spec. reflexivity.
    + reflexivity.
Defined.

(** X4. The empty state is one state for every operation: [is_empty]
    holds exactly when [size] is 0, exactly when [peek] returns [None],
    and exactly when [extract_max] (or [extract_min]) raises
    [IndexError]; no other exception leaves an extraction. *)
Theorem X4_empty_state {T : Type} (key : T -> Z) (is_max_heap : bool)
        (h : list T) :
  (is_empty h = true <-> size h = 0) /\
  (is_empty h = true <-> peek h = Ok None) /\
  (is_empty h = true <->
   fst (extract_max key is_max_heap h) = Raise IndexError) /\
  (is_empty h = true <->
   fst (extract_min key is_max_heap h) = Raise IndexError) /\
  (forall e, fst (extract_max key is_max_heap h) = Raise e -> e = IndexError).
Proof.
  change (extract_min key is_max_heap h) with (extract_max key is_max_heap h).
  destruct (extract_max_cases key is_max_heap h) as [[-> E]|(r & h' & E & R & _)].
  - repeat split; try done. intros e. rewrite E. cbn. congruence.
  - rewrite E. destruct h as [|x h]; [done|]. cbn. repeat split; try done.
Qed.

Lemma X4_empty_state_witness :
  fst (extract_max id true ([] : list Z)) = Raise IndexError /\
  IndexError = IndexError.
Proof.
  split; [reflexivity|].
  apply (proj2 (proj2 (proj2 (proj2 (X4_empty_state id true ([] : list Z)))))
           IndexError).
  reflexivity.
Defined.

(** ** Key updates: what the scan finds *)

Lemma list_index_exn (m : memory) (h : list item) (x : item) (e : exn) :
  list_index m h x = Raise e -> e = ValueError.
Proof.
  induction h as [|y h IH]; cbn [list_index]; [congruence|].
  destruct (item_is y x || item_eq m y x); [done|].
  destruct (list_index m h x); [done|]. intros [= <-]. by apply IH.
Qed.

Lemma list_index_Raise (m : memory) (h : list item) (x : item) :
  (forall y, y ∈ h -> item_is y x || item_eq m y x = false) <->
  list_index m h x = Raise ValueError.
Proof.
  induction h as [|e h IH]; cbn [list_index].
  - split; [done|]. intros _ y Hy. by apply elem_of_nil in Hy.
  - destruct (item_is e x || item_eq m e x) eqn:E.
    + split; [|done]. intros H. rewrite H in E; [done|left].
    + destruct (list_index m h x) as [i|e'] eqn:E'.
      * split; [|done]. intros H.
        assert (Ok i = Raise ValueError :> result nat); [|done].
        apply IH. intros y Hy. apply H. by right.
      * pose proof (list_index_exn m h x e' E') as ->. split; [done|].
        intros _ y Hy. apply elem_of_cons in Hy as [->|Hy]; [done|].
        by apply IH.
Qed.

Lemma list_index_Ok (m : memory) (h : list item) (x : item) (i : nat) :
  list_index m h x = Ok i ->
  exists y, h !! i = Some y /\ item_is y x || item_eq m y x = true.
Proof.
  revert i. induction h as [|e h IH]; intros i; cbn [list_index]; [done|].
  destruct (item_is e x || item_eq m e x) eqn:E.
  - intros [= <-]. by exists e.
  - destruct (list_index m h x) as [j|e'] eqn:E'; [|done].
    intros [= <-]. by apply IH.
Qed.

(** X5. A key update fails exactly when nothing in the heap is the item
    or equals it: then [increase_key] and [decrease_key] return [False]
    and change neither the heap nor any priority; in every other case
    they return [True].  For a task, "equals" means "has the same
    priority". *)
Theorem X5_key_update_not_found (q : queue) (x : item) (p : Z) :
  let absent :=
    forall y, y ∈ heap q -> item_is y x || item_eq (mem q) y x = false in
  (absent <-> increase_key q x p = (q, false)) /\
  (absent <-> decrease_key q x p = (q, false)) /\
  (~ absent <-> snd (increase_key q x p) = true) /\
  (~ absent <-> snd (decrease_key q x p) = true) /\
  (forall r, x = ITask r ->
     (absent <->
      forall r', ITask r' ∈ heap q ->
                 priority (mem q r') <> priority (mem q r))).
Proof.
  cbv zeta.
  assert (forall r, x = ITask r ->
            ((forall y, y ∈ heap q ->
                        item_is y x || item_eq (mem q) y x = false) <->
             forall r', ITask r' ∈ heap q ->
                        priority (mem q r') <> priority (mem q r))) as Htask.
  { intros r ->. split.
    - intros H r' Hin Heq. apply H in Hin. cbn in Hin.
      rewrite Heq, Z.eqb_refl in Hin. by rewrite orb_true_r in Hin.
    - intros H y Hy. destruct y as [r'|n]; cbn; [|done].
      pose proof (H r' Hy) as Hne. apply orb_false_iff. split.
      + apply Nat.eqb_neq. by intros ->.
      + by apply Z.eqb_neq. }
  rewrite (list_index_Raise (mem q) (heap q) x).
  unfold increase_key, decrease_key.
  destruct (list_index (mem q) (heap q) x) as [i|e] eqn:E; cbn [snd].
  - repeat (split; [intuition congruence|]). exact Htask.
  - pose proof (list_index_exn _ _ _ _ E) as ->.
    repeat (split; [intuition congruence|]). exact Htask.
Qed.

Lemma X5_key_update_not_found_witness :
  let q := mkQueue (objects [mkTask "A" 10 0 None 1 ""; mkTask "B" 20 0 None 1 ""])
                   [ITask 0] true in
  ITask 0 ∈ heap q /\
  item_is (ITask 0) (ITask 1) || item_eq (mem q) (ITask 0) (ITask 1) = false.
Proof.
  cbv zeta. split; [apply list_elem_of_here|].
  pose proof (proj2 (proj2 (proj2 (proj2
           (X5_key_update_not_found
              (mkQueue (objects [mkTask "A" 10 0 None 1 ""; mkTask "B" 20 0 None 1 ""])
                       [ITask 0] true)
              (ITask 1) 30)))) 1 eq_refl) as [_ H].
  apply H.
  - intros r' Hin. apply list_elem_of_singleton in Hin. injection Hin as ->.
    cbn. lia.
  - apply list_elem_of_here.
Defined.

Lemma peek_lookup {T : Type} (h : list T) : peek h = Ok (h !! 0).
Proof. by destruct h. Qed.

(** X6. Raising a task above everything else brings it to the root: in
    a queue that satisfies the invariant, after an [increase_key] that
    fits (the scan stops at the task itself, present once, and the new
    priority does not rank below the old one) with a new priority that
    ranks strictly above every other item, [peek] returns the task. *)
Theorem X6_increase_key_to_top (q : queue) (r : ref) (p : Z) (i : nat) :
  queue_ok q ->
  list_index (mem q) (heap q) (ITask r) = Ok i ->
  fits_update true q (ITask r) p = true ->
  (forall y, y ∈ heap q -> y <> ITask r ->
             if max_mode q then (default_key (mem q) y < p)%Z
             else (p < default_key (mem q) y)%Z) ->
  snd (increase_key q (ITask r) p) = true /\
  peek (heap (fst (increase_key q (ITask r) p))) = Ok (Some (ITask r)).
Proof.
  intros H Hfound Hfit Htop.
  pose proof (increase_key_queue_ok q (ITask r) p H Hfit) as Hok.
  pose proof (proj1 (key_update_heap_Permutation q (ITask r) p)) as Hperm.
  destruct (fits_update_found true q r p i Hfit Hfound) as (Hx & Hsame & _).
  rewrite (increase_key_found q (ITask r) p i Hfound) in *.
  cbv zeta in *. cbn [fst snd heap mem max_mode] in *. split; [done|].
  unfold queue_ok in Hok. cbn [heap mem max_mode] in Hok.
  set (m' := store_priority (mem q) r p) in *.
  set (h' := _heapify_up (default_key m') (max_mode q) (heap q) i) in *.
  rewrite peek_lookup. f_equal.
  assert (ITask r ∈ h') as Hin.
  { rewrite Hperm. by apply list_elem_of_lookup_2 in Hx. }
  destruct (h' !! 0) as [x0|] eqn:E0.
  2:{ apply lookup_ge_None in E0. apply list_elem_of_lookup in Hin as [j Hj].
      apply lookup_lt_Some in Hj. lia. }
  f_equal. apply list_elem_of_lookup in Hin as [j Hj].
  pose proof (root_dominates _ _ h' x0 Hok E0 j (ITask r) Hj) as D.
  destruct (item_is x0 (ITask r)) eqn:Eis.
  { by apply item_is_eq in Eis. }
  exfalso.
  assert (x0 <> ITask r) as Hne.
  { intros E. apply item_is_eq in E. congruence. }
  assert (x0 ∈ heap q) as Hin0.
  { rewrite <- Hperm. by apply list_elem_of_lookup_2 in E0. }
  specialize (Htop x0 Hin0 Hne).
  unfold dominates in D. subst m'.
  rewrite default_key_store_same, (default_key_store_other _ _ _ _ Hne) in D.
  destruct (max_mode q); lia.
Qed.

Lemma X6_increase_key_to_top_witness :
  let q := mkQueue (objects [mkTask "A" 10 0 None 1 ""; mkTask "B" 30 0 None 1 "";
                             mkTask "C" 20 0 None 1 ""])
                   [ITask 1; ITask 0; ITask 2] true in
  snd (increase_key q (ITask 0) 40) = true /\
  peek (heap (fst (increase_key q (ITask 0) 40))) = Ok (Some (ITask 0)).
Proof.
  cbv zeta.
  apply (X6_increase_key_to_top _ 0 40 1).
  - apply heap_propertyb_spec. reflexivity.
  - reflexivity.
  - reflexivity.
  - intros y Hy Hne. cbn [max_mode mem heap] in *.
    repeat (apply elem_of_cons in Hy as [->|Hy]); try done;
      try (cbn; lia).
    by apply elem_of_nil in Hy.
Defined.

(** ** Min-heaps and max-heaps *)

Section SameOrder.

Context {T : Type}.
Variables key1 key2 : T -> Z.
Variables mode1 mode2 : bool.
Hypothesis same_compare :
  forall a b, _compare key1 mode1 a b = _compare key2 mode2 a b.

Lemma compare_at_same (h : list T) (i j : nat) :
  compare_at key1 mode1 h i j = compare_at key2 mode2 h i j.
Proof. unfold compare_at. by repeat case_match. Qed.

Lemma heapify_up_loop_same (fuel : nat) :
  forall (h : list T) (i : nat),
    heapify_up_loop key1 mode1 fuel h i = heapify_up_loop key2 mode2 fuel h i.
Proof.
  induction fuel as [|fuel IH]; intros h i; cbn [heapify_up_loop]; [done|].
  rewrite compare_at_same. by repeat case_match.
Qed.

Lemma pick_same (n : nat) (h : list T) (k : nat) :
  pick key1 mode1 n h k = pick key2 mode2 n h k.
Proof. unfold pick. cbv zeta. by rewrite !compare_at_same. Qed.

Lemma heapify_down_loop_same (fuel : nat) :
  forall (n : nat) (h : list T) (k : nat),
    heapify_down_loop key1 mode1 fuel n h k
    = heapify_down_loop key2 mode2 fuel n h k.
Proof.
  induction fuel as [|fuel IH]; intros n h k; [done|].
  rewrite !heapify_down_loop_unfold, pick_same. by case_match.
Qed.

Lemma insert_same (h : list T) (x : T) :
  insert key1 mode1 h x = insert key2 mode2 h x.
Proof. unfold insert, _heapify_up. apply heapify_up_loop_same. Qed.

Lemma extract_max_same (h : list T) :
  extract_max key1 mode1 h = extract_max key2 mode2 h.
Proof.
  unfold extract_max, _heapify_down. cbv zeta.
  repeat case_match; try done. by rewrite heapify_down_loop_same.
Qed.

Lemma heap_property_same (h : list T) :
  heap_property key1 mode1 h -> heap_property key2 mode2 h.
Proof.
  intros H i c p Hi Hc Hp. apply compare_false.
  rewrite <- same_compare. apply compare_false. by apply (H i).
Qed.

End SameOrder.

(** X7. A min-heap over a key is the max-heap over the negated key:
    [insert], [extract_max], [extract_min] and the two bubbling
    procedures compute the same lists in both, and the invariant of one
    is the invariant of the other. *)
Theorem X7_min_heap_is_max_heap_of_negated_key {T : Type} (key : T -> Z) :
  let neg := fun x => (- key x)%Z in
  (forall h x, insert key false h x = insert neg true h x) /\
  (forall h, extract_max key false h = extract_max neg true h) /\
  (forall h, extract_min key false h = extract_min neg true h) /\
  (forall h i, _heapify_up key false h i = _heapify_up neg true h i) /\
  (forall h i, _heapify_down key false h i = _heapify_down neg true h i) /\
  (forall h, heap_property key false h <-> heap_property neg true h).
Proof.
  cbv zeta.
  assert (forall a b, _compare key false a b
                      = _compare (fun x => (- key x)%Z) true a b) as Hc.
  { intros a b. unfold _compare. cbv zeta.
    destruct (Z.ltb_spec (key a) (key b)), (Z.gtb_spec (- key a) (- key b)); lia. }
  assert (forall a b, _compare (fun x => (- key x)%Z) true a b
                      = _compare key false a b) as Hc' by (intros; by rewrite Hc).
  repeat split.
  - intros. by apply insert_same.
  - intros. by apply extract_max_same.
  - intros. by apply (extract_max_same key (fun x => (- key x)%Z) false true).
  - intros. by apply heapify_up_loop_same.
  - intros. by apply heapify_down_loop_same.
  - by apply heap_property_same.
  - by apply heap_property_same.
Qed.

(** ** Bubbling in a heap that is already in order *)

Section InOrder.

Context {T : Type}.
Variable key : T -> Z.
Variable is_max_heap : bool.

Lemma compare_at_in_order (h : list T) (i : nat) :
  heap_property key is_max_heap h -> 0 < i ->
  compare_at key is_max_heap h i ((i - 1) / 2) = false.
Proof.
  intros H Hi. unfold compare_at.
  destruct (h !! i) as [c|] eqn:Hc; [|done].
  destruct (h !! ((i - 1) / 2)) as [p|] eqn:Hp; [|done].
  apply compare_false. by apply (H i).
Qed.

Lemma heapify_up_loop_in_order (fuel : nat) (h : list T) (i : nat) :
  heap_property key is_max_heap h ->
  heapify_up_loop key is_max_heap fuel h i = h.
Proof.
  intros H. destruct fuel as [|fuel]; cbn [heapify_up_loop]; [done|].
  destruct (0 <? i) eqn:Hi; [|done]. apply Nat.ltb_lt in Hi.
  by rewrite compare_at_in_order.
Qed.

Lemma pick_in_order (n : nat) (h : list T) (k : nat) :
  heap_property key is_max_heap h -> pick key is_max_heap n h k = k.
Proof.
  intros H. unfold pick. cbv zeta.
  pose proof (compare_at_in_order h (2 * k + 1) H) as H1.
  pose proof (compare_at_in_order h (2 * k + 2) H) as H2.
  rewrite parent_left in H1. rewrite parent_right in H2.
  rewrite H1 by lia. rewrite andb_false_r. rewrite H2 by lia.
  by rewrite andb_false_r.
Qed.

Lemma heapify_down_loop_in_order (fuel n : nat) (h : list T) (k : nat) :
  heap_property key is_max_heap h ->
  heapify_down_loop key is_max_heap fuel n h k = h.
Proof.
  intros H. destruct fuel as [|fuel]; [done|].
  rewrite heapify_down_loop_unfold, pick_in_order by done.
  by rewrite Nat.eqb_refl.
Qed.

End InOrder.

Lemma heap_property_ext {T : Type} (key1 key2 : T -> Z) (is_max_heap : bool)
      (h : list T) :
  (forall x, key1 x = key2 x) ->
  heap_property key1 is_max_heap h -> heap_property key2 is_max_heap h.
Proof.
  intros E. apply heap_property_same. intros a b.
  unfold _compare. by rewrite !E.
Qed.

Lemma store_priority_same (m : memory) (r r' : ref) :
  store_priority m r (priority (m r)) r' = m r'.
Proof.
  unfold store_priority. destruct (r' =? r) eqn:E; [|done].
  apply Nat.eqb_eq in E as ->. by destruct (m r).
Qed.

(** X8. In a heap that satisfies the invariant the two bubbling
    procedures move nothing, from whatever index.  So in a queue that
    satisfies the invariant a key update of an [int] item, whose
    [new_priority] is ignored, leaves the queue as it was, and a key
    update of a task to the priority it already has changes neither the
    order of the heap nor any task. *)
Theorem X8_bubbling_in_order :
  (forall (T : Type) (key : T -> Z) (is_max_heap : bool) (h : list T) (i : nat),
     heap_property key is_max_heap h ->
     _heapify_up key is_max_heap h i = h /\
     _heapify_down key is_max_heap h i = h) /\
  (forall (q : queue) (n p : Z),
     queue_ok q ->
     fst (increase_key q (IInt n) p) = q /\
     fst (decrease_key q (IInt n) p) = q) /\
  (forall (q : queue) (r : ref),
     queue_ok q ->
     let same := priority (mem q r) in
     heap (fst (increase_key q (ITask r) same)) = heap q /\
     heap (fst (decrease_key q (ITask r) same)) = heap q /\
     forall r',
       mem (fst (increase_key q (ITask r) same)) r' = mem q r' /\
       mem (fst (decrease_key q (ITask r) same)) r' = mem q r').
Proof.
  split; [|split].
  - intros T key mode h i H. split.
    + by apply heapify_up_loop_in_order.
    + by apply heapify_down_loop_in_order.
  - intros q n p H. unfold increase_key, decrease_key.
    destruct (list_index (mem q) (heap q) (IInt n)); [|done].
    cbv zeta. cbn [fst]. unfold _heapify_up, _heapify_down. cbv zeta.
    rewrite heapify_up_loop_in_order, heapify_down_loop_in_order by done.
    by destruct q.
  - intros q r H. cbv zeta. unfold increase_key, decrease_key.
    destruct (list_index (mem q) (heap q) (ITask r)); [|done].
    cbv zeta. cbn [fst heap mem].
    assert (heap_property
              (default_key (store_priority (mem q) r (priority (mem q r))))
              (max_mode q) (heap q)) as H'.
    { apply (heap_property_ext (default_key (mem q))); [|done].
      intros [r'|n]; cbn [default_key]; [|done].
      by rewrite store_priority_same. }
    unfold _heapify_up, _heapify_down. cbv zeta.
    rewrite heapify_up_loop_in_order, heapify_down_loop_in_order by done.
    repeat split; apply store_priority_same.
Qed.

Lemma X8_bubbling_in_order_witness :
  let q := mkQueue (objects [mkTask "A" 10 0 None 1 ""; mkTask "B" 30 0 None 1 ""])
                   [ITask 1; IInt 20; ITask 0] true in
  (_heapify_up id true [30; 10; 20]%Z 2 = [30; 10; 20]%Z /\
   _heapify_down id true [30; 10; 20]%Z 0 = [30; 10; 20]%Z) /\
  (fst (increase_key q (IInt 20) 99) = q /\
   fst (decrease_key q (IInt 20) 99) = q) /\
  heap (fst (increase_key q (ITask 0) 10)) = heap q.
Proof.
  cbv zeta. split; [|split].
  - split.
    + apply (proj1 X8_bubbling_in_order Z id true [30; 10; 20]%Z 2).
      apply heap_propertyb_spec. reflexivity.
    + apply (proj1 X8_bubbling_in_order Z id true [30; 10; 20]%Z 0).
      apply heap_propertyb_spec. reflexivity.
  - apply (proj1 (proj2 X8_bubbling_in_order)).
    apply heap_propertyb_spec. reflexivity.
  - apply (proj2 (proj2 X8_bubbling_in_order)
             (mkQueue (objects [mkTask "A" 10 0 None 1 ""; mkTask "B" 30 0 None 1 ""])
                      [ITask 1; IInt 20; ITask 0] true) 0).
    apply heap_propertyb_spec. reflexivity.
Defined.

(** ** Comparisons of tasks *)

(** X9. The comparison methods of [Task] agree with one another: [>]
    and [>=] are [<] and [<=] with the operands exchanged, [<=] is the
    negation of [>], equality is [<=] in both directions, exactly one
    of [a < b], [a == b], [a > b] holds, and [<=] is transitive. *)
Theorem X9_task_comparisons (a b c : Task) :
  TaskM.__gt__ a b = TaskM.__lt__ b a /\
  TaskM.__ge__ a b = TaskM.__le__ b a /\
  TaskM.__le__ a b = negb (TaskM.__gt__ a b) /\
  TaskM.__ge__ a b = negb (TaskM.__lt__ a b) /\
  TaskM.__eq__ a (OTask b) = TaskM.__le__ a b && TaskM.__ge__ a b /\
  ((TaskM.__lt__ a b = true /\ TaskM.__eq__ a (OTask b) = false /\
    TaskM.__gt__ a b = false) \/
   (TaskM.__lt__ a b = false /\ TaskM.__eq__ a (OTask b) = true /\
    TaskM.__gt__ a b = false) \/
   (TaskM.__lt__ a b = false /\ TaskM.__eq__ a (OTask b) = false /\
    TaskM.__gt__ a b = true)) /\
  (TaskM.__le__ a b = true -> TaskM.__le__ b c = true ->
   TaskM.__le__ a c = true).
Proof.
  unfold TaskM.__gt__, TaskM.__lt__, TaskM.__ge__, TaskM.__le__, TaskM.__eq__.
  rewrite !Z.gtb_ltb, !Z.geb_leb.
  destruct (Z.ltb_spec (priority a) (priority b)),
           (Z.ltb_spec (priority b) (priority a)),
           (Z.leb_spec (priority a) (priority b)),
           (Z.leb_spec (priority b) (priority a)),
           (Z.eqb_spec (priority a) (priority b)); try lia;
    cbn; repeat split; try done; try lia; try (intuition lia);
    rewrite ?Z.leb_le; lia.
Qed.

Lemma X9_task_comparisons_witness :
  TaskM.__le__ (mkTask "A" 5 0 None 1 "") (mkTask "C" 15 2 None 1 "") = true.
Proof.
  apply (X9_task_comparisons (mkTask "A" 5 0 None 1 "")
           (mkTask "B" 10 1 None 1 "") (mkTask "C" 15 2 None 1 ""));
    reflexivity.
Defined.

(** ** More on the scheduler *)

Lemma timeline_functional (clock : float) (order : list Task)
      (rs : list SchedulingResult) (c1 : float) :
  timeline clock order rs c1 ->
  forall rs' c2, timeline clock order rs' c2 -> rs = rs' /\ c1 = c2.
Proof.
  induction 1 as [clock|clock t ts r rs c1 H1 H2 H3 H4 H5 _ IH];
    intros rs' c2 H'; inversion H' as [|? ? ? r' rs'' ? G1 G2 G3 G4 G5 G6];
    subst; [done|].
  assert (r = r') as <-.
  { destruct r, r'. cbn in *. clear H' IH G6. by subst. }
  destruct (IH _ _ G6) as [-> ->]. done.
Qed.

Lemma timeline_shape (clock : float) (order : list Task)
      (rs : list SchedulingResult) (clock' : float) :
  timeline clock order rs clock' ->
  map Result.task_id rs = map task_id order /\
  Forall2 (fun t r => deadline t = None -> Result.deadline_met r = true)
          order rs.
Proof.
  induction 1 as [clock|clock t ts r rs c1 H1 H2 H3 H4 H5 _ [IH1 IH2]];
    [by split; [|constructor]|].
  split.
  - cbn. by rewrite H1, IH1.
  - constructor; [|done]. intros E. by rewrite H5, E.
Qed.

(** What a scheduling run returns, with the order of extraction. *)
Lemma schedule_tasks_order (self : TaskScheduler) (tasks : list Task) :
  exists order results clock,
    schedule_tasks self tasks = Some (Ok results, mkScheduler [] clock) /\
    order ≡ₚ tasks /\
    StronglySorted (dominates priority true) order /\
    timeline 0%float order results clock.
Proof.
  destruct (build_spec priority true tasks) as [Hb Hp].
  destruct (schedule_loop_spec (length (build priority true tasks))
              (build priority true tasks) 0%float [] [] Hb)
    as (order & results & clock & Hd & Hs & Ht & _); [done|].
  destruct (drain_spec priority true _ Hb) as (out & Hd' & Hperm & Hsorted).
  assert (out = order) as ->.
  { unfold drain in Hd'. rewrite Hd in Hd'. by simplify_eq. }
  exists order, results, clock. repeat split; try done.
  - unfold schedule_tasks. cbv zeta. rewrite fold_insert_scheduler.
    cbn [priority_queue]. apply Hs.
  - by rewrite Hperm.
Qed.

(** X10. Highest priority first, nobody lost: the results of
    [schedule_tasks] name the input tasks, each once, in an order of
    non-increasing priority. *)
Theorem X10_schedule_by_priority (self : TaskScheduler) (tasks : list Task) :
  exists order results self',
    schedule_tasks self tasks = Some (Ok results, self') /\
    order ≡ₚ tasks /\
    StronglySorted (fun a b => (a >= b)%Z) (map priority order) /\
    map Result.task_id results = map task_id order /\
    map Result.task_id results ≡ₚ map task_id tasks.
Proof.
  destruct (schedule_tasks_order self tasks)
    as (order & results & clock & Hs & Hp & Hsorted & Ht).
  destruct (timeline_shape _ _ _ _ Ht) as [Hid _].
  exists order, results, (mkScheduler [] clock). repeat split; try done.
  - by apply (StronglySorted_map_key priority (fun a b => (a >= b)%Z)).
  - rewrite Hid. by apply Permutation_map.
Qed.

(** X11. With pairwise distinct priorities the order in which the tasks
    are handed to [schedule_tasks] does not matter: any rearrangement
    of the list gives the same results and the same final state. *)
Theorem X11_schedule_ignores_input_order
        (self self' : TaskScheduler) (tasks tasks' : list Task) :
  tasks ≡ₚ tasks' ->
  NoDup (map priority tasks) ->
  schedule_tasks self tasks = schedule_tasks self' tasks'.
Proof.
  intros Hp Hnd.
  destruct (schedule_tasks_order self tasks)
    as (o1 & r1 & c1 & -> & Hp1 & S1 & T1).
  destruct (schedule_tasks_order self' tasks')
    as (o2 & r2 & c2 & -> & Hp2 & S2 & T2).
  assert (o1 = o2) as <-.
  { apply (sorted_Permutation_unique priority true); try done.
    - by rewrite Hp1, Hp2.
    - assert (map priority tasks ≡ₚ map priority o1) as <-
        by (by apply Permutation_map). done. }
  by destruct (timeline_functional _ _ _ _ T1 _ _ T2) as [-> ->].
Qed.

Lemma X11_schedule_ignores_input_order_witness :
  schedule_tasks new_scheduler
    [mkTask "A" 10 0 None 5 ""; mkTask "B" 30 0 None 3 ""; mkTask "C" 20 0 None 4 ""]
  = schedule_tasks new_scheduler
    [mkTask "C" 20 0 None 4 ""; mkTask "A" 10 0 None 5 ""; mkTask "B" 30 0 None 3 ""].
Proof.
  apply X11_schedule_ignores_input_order.
  - symmetry. apply (Permutation_cons_append [_; _]).
  - cbn. repeat (apply NoDup_cons; split); try apply NoDup_nil_2;
      rewrite ?elem_of_cons, elem_of_nil; lia.
Defined.

Lemma get_statistics_counts (float_sum : list float -> float)
      (results : list SchedulingResult) :
  let st := get_statistics float_sum results in
  let met :=
    Z.of_nat (length (filter (fun r => Result.deadline_met r = true) results)) in
  Stats.total_tasks st = Z.of_nat (length results) /\
  Stats.completed_tasks st = Z.of_nat (length results) /\
  Stats.deadline_met st = met /\
  Stats.deadline_missed st = (Z.of_nat (length results) - met)%Z.
Proof.
  cbv zeta. destruct results as [|first rest]; [done|].
  unfold get_statistics. cbv zeta.
  cbn [Stats.total_tasks Stats.completed_tasks Stats.deadline_met
       Stats.deadline_missed].
  rewrite count_ones. repeat split; lia.
Qed.

(** X12. [simulate_scheduler] always returns statistics, those of the
    results of [schedule_tasks] on a fresh scheduler.  It prints that
    schedule, once, when [verbose] is true and prints nothing when it
    is false; the statistics returned are the same either way.
    [total_tasks] and [completed_tasks] are the number of tasks given,
    [deadline_met + deadline_missed] too, and the all-zero statistics
    come back exactly for the empty task list. *)
Theorem X12_simulate_scheduler (float_sum : list float -> float)
        (tasks : list Task) (verbose : bool) :
  exists results self' st,
    schedule_tasks new_scheduler tasks = Some (Ok results, self') /\
    st = get_statistics float_sum results /\
    simulate_scheduler_run float_sum tasks verbose
      = Some (Ok st, if verbose then [print_schedule results] else []) /\
    simulate_scheduler float_sum tasks verbose = Some (Ok st) /\
    simulate_scheduler float_sum tasks (negb verbose) = Some (Ok st) /\
    length results = length tasks /\
    Stats.total_tasks st = Z.of_nat (length tasks) /\
    Stats.completed_tasks st = Z.of_nat (length tasks) /\
    (Stats.deadline_met st + Stats.deadline_missed st)%Z
      = Z.of_nat (length tasks) /\
    (tasks = [] <-> st = Stats.mk 0 0 0 0 0%float 0%float 0%float).
Proof.
  destruct (schedule_tasks_order new_scheduler tasks)
    as (order & results & clock & Hs & Hp & _ & Ht).
  destruct (timeline_shape _ _ _ _ Ht) as [Hid _].
  assert (length results = length tasks) as Hlen.
  { rewrite <- Hp, <- (length_map task_id order), <- Hid. by rewrite length_map. }
  destruct (get_statistics_counts float_sum results) as (H1 & H2 & H3 & H4).
  exists results, (mkScheduler [] clock), (get_statistics float_sum results).
  unfold simulate_scheduler, simulate_scheduler_run. cbv zeta. rewrite Hs.
  rewrite H1, H2, H3, H4, Hlen.
  split; [done|]. split; [done|]. split; [done|]. split; [done|].
  split; [done|]. split; [done|]. split; [done|]. split; [done|].
  split; [lia|]. split.
  - intros ->. destruct results; [done|discriminate].
  - intros E. rewrite E in H1. cbn in H1. destruct tasks; [done|].
    cbn in Hlen. lia.
Qed.

(** X13. Deadline counts: [deadline_met] and [deadline_missed] of
    [get_statistics] lie between 0 and [total_tasks]; and when no task
    has a deadline, [simulate_scheduler] reports every task as having
    met its deadline and none as having missed it. *)
Theorem X13_deadline_counts (float_sum : list float -> float) :
  (forall results : list SchedulingResult,
     let st := get_statistics float_sum results in
     (0 <= Stats.deadline_met st <= Stats.total_tasks st)%Z /\
     (0 <= Stats.deadline_missed st <= Stats.total_tasks st)%Z) /\
  (forall (tasks : list Task) (verbose : bool),
     Forall (fun t => deadline t = None) tasks ->
     exists st,
       simulate_scheduler float_sum tasks verbose = Some (Ok st) /\
       Stats.deadline_met st = Z.of_nat (length tasks) /\
       Stats.deadline_missed st = 0%Z).
Proof.
  split.
  - intros results. cbv zeta.
    destruct (get_statistics_counts float_sum results) as (H1 & _ & H3 & H4).
    rewrite H1, H3, H4.
    pose proof (length_filter (fun r => Result.deadline_met r = true) results).
    lia.
  - intros tasks verbose Hnone.
    destruct (schedule_tasks_order new_scheduler tasks)
      as (order & results & clock & Hs & Hp & _ & Ht).
    destruct (timeline_shape _ _ _ _ Ht) as [Hid Hmet].
    assert (length results = length tasks) as Hlen.
    { rewrite <- Hp, <- (length_map task_id order), <- Hid. by rewrite length_map. }
    rewrite <- Hp in Hnone.
    assert (filter (fun r => Result.deadline_met r = true) results = results)
      as Hall.
    { clear - Hmet Hnone. induction Hmet as [|t r ts rs Htr _ IH]; [done|].
      apply Forall_cons in Hnone as [Ht Hts].
      rewrite filter_cons_True by (by apply Htr). f_equal. by apply IH. }
    destruct (get_statistics_counts float_sum results) as (_ & _ & H3 & H4).
    exists (get_statistics float_sum results).
    unfold simulate_scheduler, simulate_scheduler_run. cbv zeta. rewrite Hs.
    rewrite H3, H4, Hall, Hlen. repeat split; lia.
Qed.

Lemma X13_deadline_counts_witness :
  exists st,
    simulate_scheduler plain_sum
      [mkTask "A" 10 0 None 5 ""; mkTask "B" 30 0 None 3 ""] false
      = Some (Ok st) /\
    Stats.deadline_met st = 2%Z /\ Stats.deadline_missed st = 0%Z.
Proof.
  apply (proj2 (X13_deadline_counts plain_sum)
           [mkTask "A" 10 0 None 5 ""; mkTask "B" 30 0 None 3 ""] false).
  repeat constructor.
Defined.

(** ** Heapsort *)

Section HeapsortTheory.

Context {T : Type}.
Variable key : T -> Z.

Local Abbreviation dom := (dominates key true).
Local Abbreviation down := (heapify_down_loop key true).

Lemma key_gt_at_compare_at (arr : list T) (a b : nat) :
  key_gt_at key arr a b = compare_at key true arr a b.
Proof. reflexivity. Qed.

(** The recursion of [_heapify] is the loop of [_heapify_down] in a
    max-heap. *)
Lemma heapify_rec_loop (fuel : nat) :
  forall (arr : list T) (n i : nat),
    heapify_rec key fuel arr n i = down fuel n arr i.
Proof.
  induction fuel as [|fuel IH]; intros arr n i; [done|].
  rewrite heapify_down_loop_unfold. cbn [heapify_rec]. cbv zeta.
  rewrite !key_gt_at_compare_at. fold (pick key true n arr i).
  destruct (pick key true n arr i =? i); cbn [negb]; [done|]. apply IH.
Qed.

(** Below the bound [n] the loop sees the first [n] elements only, and
    it leaves the others where they are. *)
Lemma compare_at_app (A B : list T) (i j : nat) :
  i < length A -> j < length A ->
  compare_at key true (A ++ B) i j = compare_at key true A i j.
Proof.
  intros Hi Hj. unfold compare_at. by rewrite !lookup_app_l.
Qed.

Lemma pick_app (A B : list T) (k : nat) :
  pick key true (length A) (A ++ B) k = pick key true (length A) A k.
Proof.
  unfold pick. cbv zeta.
  destruct (2 * k + 1 <? length A) eqn:E1; cbn [andb].
  - apply Nat.ltb_lt in E1. rewrite (compare_at_app A B (2 * k + 1) k) by lia.
    destruct (2 * k + 2 <? length A) eqn:E2; cbn [andb]; [|done].
    apply Nat.ltb_lt in E2.
    destruct (compare_at key true A (2 * k + 1) k);
      by rewrite compare_at_app by lia.
  - destruct (2 * k + 2 <? length A) eqn:E2; cbn [andb]; [|done].
    apply Nat.ltb_lt in E2. apply Nat.ltb_ge in E1. lia.
Qed.

Lemma swap_app (A B : list T) (i j : nat) :
  i < length A -> j < length A -> swap (A ++ B) i j = swap A i j ++ B.
Proof.
  intros Hi Hj. unfold swap. rewrite !lookup_app_l by done.
  destruct (A !! j) as [b|]; [|done]. destruct (A !! i) as [a|]; [|done].
  rewrite insert_app_l by done.
  rewrite insert_app_l by (by rewrite length_insert). done.
Qed.

Lemma heapify_down_loop_app (fuel : nat) :
  forall (n : nat) (A B : list T) (k : nat),
    n = length A -> down fuel n (A ++ B) k = down fuel n A k ++ B.
Proof.
  induction fuel as [|fuel IH]; intros n A B k ->; [done|].
  rewrite !heapify_down_loop_unfold, pick_app.
  destruct (pick_range key true (length A) A k) as [E|[E1 E2]].
  - by rewrite E, Nat.eqb_refl.
  - destruct (pick key true (length A) A k =? k) eqn:E; [done|].
    rewrite swap_app by lia. apply IH. by rewrite swap_length.
Qed.

(** *** [_heapify] on a heap in order from [s] on *)

Lemma heap_from_done (s : nat) (h : list T) (k : nat) :
  down_ok_from key true s h k ->
  (forall c xs xk, 0 < c -> (c - 1) / 2 = k ->
                   h !! c = Some xs -> h !! k = Some xk -> dom xk xs) ->
  heap_from key true s h.
Proof.
  intros [H1 _] Hch i c p Hi Hs Hc Hp.
  destruct (decide ((i - 1) / 2 = k)) as [E|E].
  - apply (Hch i); [done|done|done|]. by rewrite <- E.
  - by apply (H1 i).
Qed.

Lemma down_ok_from_swap (s : nat) (h : list T) (k c : nat) (xk xc : T) :
  down_ok_from key true s h k ->
  0 < c -> (c - 1) / 2 = k ->
  h !! c = Some xc -> h !! k = Some xk -> dom xc xk ->
  (forall i xs, 0 < i -> (i - 1) / 2 = k -> h !! i = Some xs -> dom xc xs) ->
  down_ok_from key true s (swap h k c) c.
Proof.
  intros [H1 H2] Hc Hpar Hxc Hxk Hd Hch.
  assert (k < c) as Hkc by (pose proof (parent_lt c Hc); lia).
  split.
  - intros i x pp Hi Hs Hic Hx Hpp.
    pose proof (parent_lt i Hi) as Hlt.
    destruct (decide (i = c)) as [Eic|Eic].
    + rewrite Eic, Hpar in *.
      rewrite (swap_lookup_2 h k c xk xc) in Hx by done.
      rewrite (swap_lookup_1 h k c xk xc) in Hpp by (done || lia).
      by simplify_eq.
    + destruct (decide (i = k)) as [Eik|Eik].
      * rewrite Eik in *.
        rewrite (swap_lookup_1 h k c xk xc) in Hx by (done || lia).
        rewrite swap_lookup_ne in Hpp by lia.
        assert (x = xc) as -> by congruence.
        by apply (H2 c xc pp).
      * rewrite swap_lookup_ne in Hx by done.
        destruct (decide ((i - 1) / 2 = k)) as [Epk|Epk].
        -- rewrite Epk in Hpp.
           rewrite (swap_lookup_1 h k c xk xc) in Hpp by (done || lia).
           assert (pp = xc) as -> by congruence.
           by apply (Hch i).
        -- rewrite swap_lookup_ne in Hpp by done.
           by apply (H1 i).
  - intros i x g _ Hs Hi Hic Hx Hg.
    pose proof (parent_lt i Hi) as Hlt.
    rewrite Hpar in Hg, Hs.
    rewrite (swap_lookup_1 h k c xk xc) in Hg by (done || lia).
    rewrite swap_lookup_ne in Hx by lia.
    assert (g = xc) as -> by congruence.
    apply (H1 i); [done|lia|lia|done|]. by rewrite Hic.
Qed.

Lemma heapify_down_loop_from (s fuel : nat) :
  forall (h : list T) (k : nat),
    length h <= fuel + k ->
    down_ok_from key true s h k ->
    heap_from key true s (down fuel (length h) h k).
Proof.
  induction fuel as [|fuel IH]; intros h k Hf Hdown.
  - cbn [heapify_down_loop]. apply (heap_from_done s h k Hdown).
    intros c xs xk Hc Hp Hxs _. apply lookup_lt_Some in Hxs.
    pose proof (parent_lt c Hc). lia.
  - rewrite heapify_down_loop_unfold.
    destruct (pick_spec key true h k)
      as [[-> Hch]|(Hlt & Hpar & xc & xk & Hxc & Hxk & Hd & Hch)].
    + rewrite Nat.eqb_refl. by apply (heap_from_done s h k).
    + destruct (pick key true (length h) h k =? k) eqn:E.
      { apply Nat.eqb_eq in E. lia. }
      rewrite <- (swap_length h k (pick key true (length h) h k)) at 1.
      apply IH.
      * rewrite swap_length. lia.
      * apply (down_ok_from_swap s h k _ xk xc); try done. lia.
Qed.

Lemma heap_from_0 (h : list T) :
  heap_from key true 0 h <-> heap_property key true h.
Proof.
  split; intros H i c p Hi; [apply (H i); [done|lia] | intros _; by apply (H i)].
Qed.

Lemma heap_from_half (h : list T) : heap_from key true (length h / 2) h.
Proof.
  intros i c p Hi Hs Hc _. apply lookup_lt_Some in Hc. exfalso.
  revert Hs Hc Hi. generalize (length h). intros n. index_arith.
Qed.

Lemma heapify_length (arr : list T) (n i : nat) :
  length (_heapify key arr n i) = length arr.
Proof.
  unfold _heapify. rewrite heapify_rec_loop. apply heapify_down_loop_length.
Qed.

Lemma heapify_Permutation (arr : list T) (n i : nat) :
  _heapify key arr n i ≡ₚ arr.
Proof.
  unfold _heapify. rewrite heapify_rec_loop.
  apply heapify_down_loop_Permutation.
Qed.

Lemma build_loop_spec (n m : nat) :
  forall h : list T,
    length h = n -> heap_from key true m h ->
    let h' := fold_left (fun arr i => _heapify key arr n i) (rev (seq 0 m)) h in
    heap_property key true h' /\ h' ≡ₚ h /\ length h' = n.
Proof.
  induction m as [|m IH]; intros h Hn H; cbv zeta.
  - cbn. by rewrite <- heap_from_0.
  - rewrite seq_S, rev_app_distr. cbn [rev app fold_left Nat.add].
    destruct (IH (_heapify key h n m)) as (IH1 & IH2 & IH3).
    + by rewrite heapify_length.
    + unfold _heapify. rewrite heapify_rec_loop. rewrite <- Hn.
      apply heapify_down_loop_from; [lia|]. split.
      * intros i c p Hi Hs Hne. apply (H i); [done|lia].
      * intros i c g Hm Hs. pose proof (parent_lt m Hm). lia.
    + split; [done|]. split; [|done]. by rewrite IH2, heapify_Permutation.
Qed.

Lemma build_max_heap_spec (arr : list T) :
  heap_property key true (_build_max_heap key arr) /\
  _build_max_heap key arr ≡ₚ arr /\
  length (_build_max_heap key arr) = length arr.
Proof.
  unfold _build_max_heap. cbv zeta.
  apply (build_loop_spec (length arr) (length arr / 2) arr); [done|].
  apply heap_from_half.
Qed.

(** *** The extraction loop of [heapsort] and the queue *)

Lemma swap_ends (root x : T) (mid B : list T) :
  swap (root :: mid ++ x :: B) 0 (S (length mid)) = x :: mid ++ root :: B.
Proof.
  assert ((root :: mid ++ x :: B) !! S (length mid) = Some x) as H1.
  { change ((mid ++ x :: B) !! length mid = Some x).
    by apply list_lookup_middle. }
  unfold swap. rewrite H1. cbn. f_equal.
  pose proof (insert_app_r mid (x :: B) 0 root) as E.
  rewrite Nat.add_0_r in E. exact E.
Qed.

Lemma drain_loop_cons (fuel : nat) (y : T) (t out : list T) :
  drain_loop key true (S fuel) (y :: t) out =
    match extract_max key true (y :: t) with
    | (Ok x, h') => drain_loop key true fuel h' (out ++ [x])
    | (Raise e, _) => Some (Raise e)
    end.
Proof. reflexivity. Qed.

Lemma sort_down_drain (m : nat) :
  forall (h B out0 : list T),
    length h = m ->
    exists out,
      drain_loop key true m h out0 = Some (Ok (out0 ++ out)) /\
      fold_left (fun arr i => _heapify key (swap arr 0 i) i 0)
                (rev (seq 1 (m - 1))) (h ++ B)
        = rev out ++ B /\
      out ≡ₚ h.
Proof.
  induction m as [|m IH]; intros h B out0 Hlen.
  - destruct h; [|done]. exists []. by rewrite app_nil_r.
  - destruct (heap_shape h) as [->|[[x ->]|(root & mid & x & ->)]]; [done|..].
    + cbn in Hlen. assert (m = 0) as -> by lia. by exists [x].
    + cbn in Hlen. rewrite length_app in Hlen. cbn in Hlen.
      assert (m = S (length mid)) as -> by lia.
      set (h' := _heapify_down key true (x :: mid) 0).
      assert (length h' = S (length mid)) as Hlen'.
      { unfold h', _heapify_down. cbv zeta.
        by rewrite heapify_down_loop_length. }
      destruct (IH h' (root :: B) (out0 ++ [root]) Hlen') as (out & Hd & Hf & Hp).
      exists (root :: out). split; [|split].
      * rewrite drain_loop_cons, extract_max_cons. fold h'.
        rewrite Hd. by rewrite <- app_assoc.
      * replace (S (S (length mid)) - 1) with (S (length mid)) by lia.
        rewrite seq_S, rev_app_distr. cbn [rev app fold_left Nat.add].
        replace ((mid ++ [x]) ++ B) with (mid ++ x :: B)
          by (by rewrite <- app_assoc).
        rewrite swap_ends.
        assert (_heapify key (x :: mid ++ root :: B) (S (length mid)) 0
                = h' ++ root :: B) as ->.
        { unfold _heapify. rewrite heapify_rec_loop.
          by apply (heapify_down_loop_app _ _ (x :: mid) (root :: B) 0). }
        replace (length mid) with (S (length mid) - 1) at 1 by lia.
        rewrite Hf. by rewrite <- app_assoc.
      * rewrite Hp. unfold h', _heapify_down. cbv zeta.
        rewrite heapify_down_loop_Permutation.
        by rewrite (Permutation_app_comm mid [x]).
Qed.

Lemma StronglySorted_rev {A : Type} (R : A -> A -> Prop) (l : list A) :
  StronglySorted R l -> StronglySorted (fun a b => R b a) (rev l).
Proof.
  induction 1 as [|x l _ IH Hx]; cbn [rev]; [constructor|].
  apply StronglySorted_app. split; [|split; [done|repeat constructor]].
  intros a b Ha Hb. apply list_elem_of_singleton in Hb as ->.
  rewrite Forall_forall in Hx. apply Hx.
  apply list_elem_of_In. apply list_elem_of_In in Ha. by apply in_rev.
Qed.

Lemma heapsort_drain (arr : list T) (inplace : bool) :
  exists out,
    drain key true (_build_max_heap key arr) = Some (Ok out) /\
    fst (heapsort key arr inplace) = rev out /\
    out ≡ₚ arr /\
    StronglySorted dom out.
Proof.
  destruct (build_max_heap_spec arr) as (Hb & Hp & Hl).
  destruct (drain_spec key true _ Hb) as (out & Hd & Hperm & Hs).
  exists out. split; [done|]. split; [|split; [by rewrite Hperm|done]].
  destruct (sort_down_drain (length (_build_max_heap key arr))
              (_build_max_heap key arr) [] [] eq_refl) as (out' & Hd' & Hf & _).
  unfold drain in Hd. rewrite Hd in Hd'. cbn [app] in Hd'.
  assert (out' = out) as -> by congruence.
  rewrite !app_nil_r in Hf.
  destruct arr as [|a arr].
  - cbn in Hd. by simplify_eq.
  - assert (fst (heapsort key (a :: arr) inplace)
            = sort_down key (_build_max_heap key (a :: arr))) as ->
      by (unfold heapsort; by destruct inplace).
    apply Hf.
Qed.

End HeapsortTheory.

(** X14. [_heapify] of heapsort.py computes what the loop of
    [PriorityQueue._heapify_down] computes in a max-heap made of the
    first [n] elements, and leaves every element from index [n] on
    where it is; it keeps the length and the elements of the list. *)
Theorem X14_heapify_is_heapify_down {T : Type} (key : T -> Z)
        (A B : list T) (i : nat) :
  _heapify key (A ++ B) (length A) i = _heapify_down key true A i ++ B /\
  drop (length A) (_heapify key (A ++ B) (length A) i) = B /\
  take (length A) (_heapify key (A ++ B) (length A) i) ≡ₚ A /\
  length (_heapify key (A ++ B) (length A) i) = length (A ++ B).
Proof.
  assert (_heapify key (A ++ B) (length A) i
          = _heapify_down key true A i ++ B) as E.
  { unfold _heapify, _heapify_down. cbv zeta. rewrite heapify_rec_loop.
    by apply heapify_down_loop_app. }
  assert (length (_heapify_down key true A i) = length A) as L.
  { unfold _heapify_down. cbv zeta. apply heapify_down_loop_length. }
  rewrite E. repeat split.
  - rewrite <- L. by rewrite drop_app_length.
  - rewrite <- L, take_app_length. apply heapify_down_Permutation.
  - by rewrite !length_app, L.
Qed.

(** X15. [_build_max_heap] turns any list into a max-heap of the same
    elements: afterwards every parent's key is at least its
    children's. *)
Theorem X15_build_max_heap {T : Type} (key : T -> Z) (arr : list T) :
  heap_property key true (_build_max_heap key arr) /\
  _build_max_heap key arr ≡ₚ arr /\
  length (_build_max_heap key arr) = length arr /\
  (forall x, _build_max_heap key arr !! 0 = Some x ->
             forall y, y ∈ arr -> (key y <= key x)%Z).
Proof.
  destruct (build_max_heap_spec key arr) as (H & Hp & Hl).
  repeat split; try done.
  intros x Hx y Hy. rewrite <- Hp in Hy.
  apply list_elem_of_lookup in Hy as [i Hi].
  pose proof (root_dominates key true _ x H Hx i y Hi) as D.
  unfold dominates in D. lia.
Qed.

Lemma X15_build_max_heap_witness :
  _build_max_heap id [4; 10; 3; 5; 1]%Z !! 0 = Some 10%Z /\
  (id 5 <= id 10)%Z.
Proof.
  split; [reflexivity|].
  apply (proj2 (proj2 (proj2 (X15_build_max_heap id [4; 10; 3; 5; 1]%Z)))).
  - reflexivity.
  - do 3 apply list_elem_of_further. apply list_elem_of_here.
Defined.

Lemma StronglySorted_weaken {A : Type} (R R' : A -> A -> Prop) (l : list A) :
  (forall a b, R a b -> R' a b) ->
  StronglySorted R l -> StronglySorted R' l.
Proof.
  intros HR. induction 1 as [|x l _ IH Hx]; constructor; [done|].
  eapply Forall_impl; [exact Hx|]. intros y. apply HR.
Qed.

(** X16. [heapsort] sorts: the list it returns holds the elements of
    the input, each as often as the input does, in non-decreasing order
    of key, whatever [inplace] is; with [inplace=True] the caller's
    list is that sorted list, with [inplace=False] the caller's list is
    left as it was; the empty list comes back empty. *)
Theorem X16_heapsort_sorts {T : Type} (key : T -> Z) (arr : list T)
        (inplace : bool) :
  let sorted := fst (heapsort key arr inplace) in
  sorted ≡ₚ arr /\
  length sorted = length arr /\
  StronglySorted (fun a b => (key a <= key b)%Z) sorted /\
  sorted = fst (heapsort key arr (negb inplace)) /\
  snd (heapsort key arr inplace) = (if inplace then sorted else arr) /\
  heapsort key [] inplace = ([], []).
Proof.
  cbv zeta.
  destruct (heapsort_drain key arr inplace) as (out & _ & E & Hp & Hs).
  assert (fst (heapsort key arr inplace) ≡ₚ arr) as Hperm.
  { rewrite E, <- Hp. symmetry. apply Permutation_rev. }
  split; [done|]. split; [by rewrite Hperm|]. split; [|split; [|split; [|done]]].
  - rewrite E. apply StronglySorted_rev in Hs.
    eapply StronglySorted_weaken; [|exact Hs].
    intros a b D. cbv beta in D. unfold dominates in D. lia.
  - unfold heapsort. by destruct arr, inplace.
  - unfold heapsort. by destruct arr, inplace.
Qed.

(** X17. [heapsort] and the queue: the list [heapsort] returns is the
    reverse of the order in which a max-heap [PriorityQueue] whose heap
    is [_build_max_heap(arr)] hands out its items by repeated
    [extract_max]. *)
Theorem X17_heapsort_is_reversed_drain {T : Type} (key : T -> Z)
        (arr : list T) (inplace : bool) :
  exists out,
    drain key true (_build_max_heap key arr) = Some (Ok out) /\
    fst (heapsort key arr inplace) = rev out.
Proof.
  destruct (heapsort_drain key arr inplace) as (out & Hd & E & _).
  by exists out.
Qed.

(** ** The heap functions of heapsort.py and the queue *)

Lemma swap_comm {T : Type} (h : list T) (i j : nat) : swap h i j = swap h j i.
Proof.
  unfold swap.
  destruct (h !! j) as [b|] eqn:Hj, (h !! i) as [a|] eqn:Hi; try done.
  destruct (decide (i = j)) as [->|Hne].
  - by simplify_eq.
  - by apply list_insert_insert_ne.
Qed.

Lemma heap_insert_loop_up {T : Type} (key : T -> Z) (fuel : nat) :
  forall (arr : list T) (i : nat),
    heap_insert_loop key fuel arr i = heapify_up_loop key true fuel arr i.
Proof.
  induction fuel as [|fuel IH]; intros arr i; [done|].
  cbn [heap_insert_loop heapify_up_loop]. cbv zeta.
  destruct (0 <? i); [|done].
  assert (key_ge_at key arr ((i - 1) / 2) i
          = negb (compare_at key true arr i ((i - 1) / 2))) as ->.
  { unfold key_ge_at, compare_at, _compare. cbv zeta.
    destruct (arr !! ((i - 1) / 2)), (arr !! i); try done.
    rewrite Z.geb_leb, Z.gtb_ltb. apply Z.leb_antisym. }
  destruct (compare_at key true arr i ((i - 1) / 2)); cbn [negb]; [|done].
  rewrite swap_comm. apply IH.
Qed.

(** X18. [heap_insert] of heapsort.py is [PriorityQueue.insert] in a
    max-heap: the same list comes out.  It adds the item and nothing
    else, and a max-heap stays a max-heap. *)
Theorem X18_heap_insert {T : Type} (key : T -> Z) (arr : list T) (x : T) :
  heap_insert key arr x = insert key true arr x /\
  heap_insert key arr x ≡ₚ x :: arr /\
  (heap_property key true arr -> heap_property key true (heap_insert key arr x)).
Proof.
  assert (heap_insert key arr x = insert key true arr x) as E.
  { unfold heap_insert, insert, _heapify_up. cbv zeta. apply heap_insert_loop_up. }
  rewrite E. split; [done|]. split.
  - apply insert_Permutation.
  - apply insert_heap_property.
Qed.

Lemma X18_heap_insert_witness :
  heap_property id true (heap_insert id [10; 5; 3; 4; 1]%Z 15%Z).
Proof.
  apply (X18_heap_insert id [10; 5; 3; 4; 1]%Z 15%Z).
  apply heap_propertyb_spec. reflexivity.
Defined.

(** X19. [heap_extract_max] of heapsort.py is [PriorityQueue.extract_max]
    in a max-heap.  On the empty list it raises [IndexError] and leaves
    the list empty; on a max-heap it returns an element of greatest key
    and leaves a max-heap of the other elements. *)
Theorem X19_heap_extract_max {T : Type} (key : T -> Z) (arr : list T) :
  heap_extract_max key arr = extract_max key true arr /\
  heap_extract_max key [] = (Raise IndexError, []) /\
  (arr <> [] -> heap_property key true arr ->
   exists x arr',
     heap_extract_max key arr = (Ok x, arr') /\
     (forall y, y ∈ arr -> (key y <= key x)%Z) /\
     arr ≡ₚ x :: arr' /\
     heap_property key true arr').
Proof.
  assert (heap_extract_max key arr = extract_max key true arr) as E.
  { unfold heap_extract_max, extract_max.
    destruct arr as [|a arr]; [done|].
    change (is_empty (a :: arr)) with false. cbv iota.
    destruct (length (a :: arr) =? 1); [done|].
    destruct ((a :: arr) !! 0); [|done].
    destruct (pop (a :: arr)) as [[y|e] arr']; [|done].
    cbv zeta. unfold _heapify, _heapify_down. cbv zeta.
    by rewrite heapify_rec_loop. }
  split; [done|]. split; [done|].
  intros Hne H. rewrite E.
  destruct (extract_max_spec key true arr Hne H) as (x & arr' & Hx & Hr & Hok & Hp & _).
  exists x, arr'. repeat split; try done.
  intros y [i Hi]%list_elem_of_lookup.
  pose proof (root_dominates key true arr x H Hr i y Hi) as D.
  unfold dominates in D. lia.
Qed.

Lemma X19_heap_extract_max_witness :
  exists x arr',
    heap_extract_max id [10; 5; 3; 4; 1]%Z = (Ok x, arr') /\
    (forall y, y ∈ [10; 5; 3; 4; 1]%Z -> (id y <= id x)%Z) /\
    [10; 5; 3; 4; 1]%Z ≡ₚ x :: arr' /\
    heap_property id true arr'.
Proof.
  apply (X19_heap_extract_max id [10; 5; 3; 4; 1]%Z).
  - discriminate.
  - apply heap_propertyb_spec. reflexivity.
Defined.

(** ** Merge sort *)

(** The index loop of [_merge] computes the merge of the two remaining
    slices. *)
Lemma merge_loop_list_merge (fuel : nat) :
  forall (left right : list Z) (i j : nat) (result : list Z),
    i <= length left -> j <= length right ->
    (length left - i) + (length right - j) <= fuel ->
    let '(i', j', result') := merge_loop fuel left right i j result in
    (result' ++ drop i' left) ++ drop j' right
    = result ++ list_merge Z.le (drop i left) (drop j right).
Proof.
  induction fuel as [|fuel IH]; intros left right i j result Hi Hj Hf.
  - cbn [merge_loop]. rewrite (drop_ge left i), (drop_ge right j) by lia.
    by rewrite !app_nil_r.
  - cbn [merge_loop].
    destruct (i <? length left) eqn:Ei; cbn [andb].
    2:{ apply Nat.ltb_ge in Ei. rewrite (drop_ge left i) by lia.
        by rewrite list_merge_nil_l, app_nil_r. }
    destruct (j <? length right) eqn:Ej.
    2:{ apply Nat.ltb_ge in Ej. rewrite (drop_ge right j) by lia.
        by rewrite list_merge_nil_r, app_nil_r. }
    apply Nat.ltb_lt in Ei, Ej.
    destruct (lookup_lt_is_Some_2 left i Ei) as [a Ha].
    destruct (lookup_lt_is_Some_2 right j Ej) as [b Hb].
    rewrite Ha, Hb.
    rewrite (drop_S left a i Ha), (drop_S right b j Hb), list_merge_cons.
    destruct (Z.leb_spec a b) as [Hab|Hab].
    + rewrite decide_True by done.
      specialize (IH left right (S i) j (result ++ [a])).
      destruct (merge_loop fuel left right (S i) j (result ++ [a])) as [[i' j'] r'].
      rewrite IH by lia. rewrite (drop_S right b j Hb).
      by rewrite <- app_assoc.
    + rewrite decide_False by lia.
      specialize (IH left right i (S j) (result ++ [b])).
      destruct (merge_loop fuel left right i (S j) (result ++ [b])) as [[i' j'] r'].
      rewrite IH by lia. rewrite (drop_S left a i Ha).
      by rewrite <- app_assoc.
Qed.

Lemma merge_list_merge (left right : list Z) :
  _merge left right = list_merge Z.le left right.
Proof.
  unfold _merge.
  pose proof (merge_loop_list_merge (length left + length right)
                left right 0 0 []) as H.
  destruct (merge_loop (length left + length right) left right 0 0 [])
    as [[i j] r].
  apply H; lia.
Qed.

Lemma merge_Permutation_app (left right : list Z) :
  _merge left right ≡ₚ left ++ right.
Proof. rewrite merge_list_merge. apply merge_Permutation. Qed.

Lemma merge_sorted (left right : list Z) :
  StronglySorted Z.le left -> StronglySorted Z.le right ->
  StronglySorted Z.le (_merge left right).
Proof.
  intros Hl Hr. rewrite merge_list_merge.
  apply Sorted_StronglySorted; [apply _|].
  apply Sorted_list_merge; [apply _|by apply StronglySorted_Sorted..].
Qed.

(** X20. [_merge] returns the elements of its two arguments, each as
    often as they hold it, and when both arguments are in
    non-decreasing order so is the result. *)
Theorem X20_merge (left right : list Z) :
  _merge left right ≡ₚ left ++ right /\
  length (_merge left right) = length left + length right /\
  (StronglySorted Z.le left -> StronglySorted Z.le right ->
   StronglySorted Z.le (_merge left right)).
Proof.
  pose proof (merge_Permutation_app left right) as Hp.
  split; [done|]. split; [by rewrite Hp, length_app|].
  apply merge_sorted.
Qed.

Lemma X20_merge_witness :
  StronglySorted Z.le (_merge [1; 4; 9] [2; 3; 10])%Z.
Proof.
  apply X20_merge; repeat constructor; lia.
Defined.

Lemma merge_sort_rec_spec (fuel : nat) :
  forall arr : list Z,
    length arr <= fuel ->
    merge_sort_rec fuel arr ≡ₚ arr /\
    StronglySorted Z.le (merge_sort_rec fuel arr).
Proof.
  induction fuel as [|fuel IH]; intros arr Hf.
  - destruct arr; [|cbn in Hf; lia]. split; [done|constructor].
  - cbn [merge_sort_rec].
    destruct (length arr <=? 1) eqn:E.
    + apply Nat.leb_le in E. split; [done|].
      destruct arr as [|x [|y arr]]; [constructor|repeat constructor|cbn in E; lia].
    + apply Nat.leb_gt in E. cbv zeta.
      assert (0 < length arr / 2 < length arr) as Hmid.
      { revert E. generalize (length arr). intros n Hn. index_arith. }
      destruct (IH (take (length arr / 2) arr)) as [P1 S1].
      { rewrite length_take. lia. }
      destruct (IH (drop (length arr / 2) arr)) as [P2 S2].
      { rewrite length_drop. lia. }
      split.
      * rewrite merge_Permutation_app, P1, P2. by rewrite take_drop.
      * by apply merge_sorted.
Qed.

(** X21. [merge_sort] sorts: it returns the elements of the input, each
    as often as the input holds it, in non-decreasing order; a list of
    at most one element comes back as it is. *)
Theorem X21_merge_sort_sorts (arr : list Z) :
  merge_sort arr ≡ₚ arr /\
  length (merge_sort arr) = length arr /\
  StronglySorted Z.le (merge_sort arr) /\
  (length arr <= 1 -> merge_sort arr = arr).
Proof.
  destruct (merge_sort_rec_spec (length arr) arr) as [Hp Hs]; [done|].
  unfold merge_sort. repeat split; try done.
  - by rewrite Hp.
  - intros H. destruct arr as [|x [|y arr]]; [done|done|cbn in H; lia].
Qed.

Lemma X21_merge_sort_sorts_witness : merge_sort [7%Z] = [7%Z].
Proof. apply (X21_merge_sort_sorts [7%Z]). cbn. lia. Defined.

Lemma sorted_Z_unique (l1 l2 : list Z) :
  StronglySorted Z.le l1 -> StronglySorted Z.le l2 -> l1 ≡ₚ l2 -> l1 = l2.
Proof. intros. by apply (StronglySorted_unique Z.le). Qed.

(** X22. The sorting functions agree: on every list of integers
    [heapsort] (with the default key) and [merge_sort] return the same
    list, and sorting a sorted list again changes nothing. *)
Theorem X22_sorts_agree (arr : list Z) (inplace : bool) :
  fst (heapsort id arr inplace) = merge_sort arr /\
  merge_sort (merge_sort arr) = merge_sort arr /\
  fst (heapsort id (fst (heapsort id arr inplace)) inplace)
    = fst (heapsort id arr inplace).
Proof.
  assert (forall l b, fst (heapsort id l b) ≡ₚ l /\
                      StronglySorted Z.le (fst (heapsort id l b))) as Hh.
  { intros l b.
    destruct (heapsort_drain id l b) as (out & _ & E & Hp & Hs).
    rewrite E. split.
    - rewrite <- Hp. symmetry. apply Permutation_rev.
    - apply StronglySorted_rev in Hs.
      eapply StronglySorted_weaken; [|exact Hs].
      intros a c D. cbv beta in D. unfold dominates, id in D. lia. }
  assert (forall l, merge_sort l ≡ₚ l /\ StronglySorted Z.le (merge_sort l)) as Hm.
  { intros l. by apply (merge_sort_rec_spec (length l) l). }
  destruct (Hh arr inplace) as [P1 S1]. destruct (Hm arr) as [P2 S2].
  repeat split.
  - apply sorted_Z_unique; try done. by rewrite P1, P2.
  - destruct (Hm (merge_sort arr)) as [P3 S3]. by apply sorted_Z_unique.
  - destruct (Hh (fst (heapsort id arr inplace)) inplace) as [P3 S3].
    by apply sorted_Z_unique.
Qed.

(** ** [quicksort] and [_partition] *)

Lemma subscript_in_range (arr : list Z) (i : Z) :
  (0 <= i < Z.of_nat (length arr))%Z -> subscript arr i = Ok (Z.to_nat i).
Proof.
  intros H. unfold subscript. cbv zeta.
  destruct (0 <=? i)%Z eqn:E1; [|lia].
  destruct (i <? Z.of_nat (length arr))%Z eqn:E2; [done|lia].
Qed.

Lemma getitem_in_range (arr : list Z) (i : Z) :
  (0 <= i < Z.of_nat (length arr))%Z ->
  exists x, arr !! Z.to_nat i = Some x /\ getitem arr i = Ok x.
Proof.
  intros H. unfold getitem. rewrite subscript_in_range by done.
  destruct (lookup_lt_is_Some_2 arr (Z.to_nat i)) as [x Hx]; [lia|].
  exists x. by rewrite Hx.
Qed.

Lemma swap_items_in_range (arr : list Z) (i j : Z) :
  (0 <= i < Z.of_nat (length arr))%Z -> (0 <= j < Z.of_nat (length arr))%Z ->
  swap_items arr i j = Ok (swap arr (Z.to_nat i) (Z.to_nat j)).
Proof.
  intros Hi Hj. unfold swap_items. by rewrite !subscript_in_range.
Qed.

Lemma seg_perm_refl (l h : Z) (arr : list Z) : seg_perm l h arr arr.
Proof. repeat split; try done. intros n x Hn Hx. by exists n. Qed.

Lemma seg_perm_trans (l h : Z) (a b c : list Z) :
  seg_perm l h a b -> seg_perm l h b c -> seg_perm l h a c.
Proof.
  intros (L1 & P1 & O1 & I1) (L2 & P2 & O2 & I2). repeat split.
  - congruence.
  - by rewrite P2.
  - intros n Hn. rewrite O2, O1; done.
  - intros n x Hn Hx. destruct (I2 n x Hn Hx) as (m & Hm & Hmx).
    by apply (I1 m x).
Qed.

Lemma seg_perm_widen (l h l0 h0 : Z) (a b : list Z) :
  (l0 <= l)%Z -> (h <= h0)%Z -> seg_perm l h a b -> seg_perm l0 h0 a b.
Proof.
  intros Hl Hh (L1 & P1 & O1 & I1). unfold seg_perm, inside in *.
  repeat split; try done.
  - intros n Hn. apply O1. lia.
  - intros n x Hn Hx.
    destruct (decide (l <= Z.of_nat n <= h)%Z) as [Hin|Hout].
    + destruct (I1 n x Hin Hx) as (m & Hm & Hmx). exists m. split; [lia|done].
    + exists n. split; [done|]. by rewrite <- O1.
Qed.

Lemma seg_perm_swap (l h : Z) (arr : list Z) (i j : nat) :
  inside l h i -> inside l h j -> i < length arr -> j < length arr ->
  seg_perm l h arr (swap arr i j).
Proof.
  intros Hi Hj Li Lj.
  destruct (lookup_lt_is_Some_2 arr i Li) as [a Ha].
  destruct (lookup_lt_is_Some_2 arr j Lj) as [b Hb].
  repeat split.
  - apply swap_length.
  - apply swap_Permutation.
  - intros n Hn. apply swap_lookup_ne; intros ->; done.
  - intros n x Hn. rewrite (swap_lookup arr i j n a b) by done.
    repeat case_decide; intros Hx.
    + exists i. split; [done|congruence].
    + exists j. split; [done|congruence].
    + by exists n.
Qed.

Lemma partition_step_ok (pivot : Z) (arr : list Z) (i j : Z) :
  (0 <= i + 1)%Z -> (i < j)%Z -> (j < Z.of_nat (length arr))%Z ->
  exists aj, arr !! Z.to_nat j = Some aj /\
    partition_step pivot (Ok (arr, i)) j =
      if (aj <=? pivot)%Z
      then Ok (swap arr (Z.to_nat (i + 1)) (Z.to_nat j), (i + 1)%Z)
      else Ok (arr, i).
Proof.
  intros Hi Hij Hj.
  destruct (getitem_in_range arr j) as (aj & Haj & G); [lia|].
  exists aj. split; [done|]. unfold partition_step. rewrite G.
  destruct (aj <=? pivot)%Z; [|done].
  cbv zeta. by rewrite swap_items_in_range by lia.
Qed.

(** The loop of [_partition] (Lomuto): the positions [low..i] hold items
    up to the pivot, the positions after [i] and before [j] hold greater
    ones. *)
Lemma partition_loop_spec (pivot low high : Z) (k : nat) :
  forall (arr : list Z) (i j : Z),
    (0 <= low)%Z -> (low <= j)%Z -> (j + Z.of_nat k = high)%Z ->
    (high < Z.of_nat (length arr))%Z -> (low - 1 <= i < j)%Z ->
    (forall n x, arr !! n = Some x ->
                 (low <= Z.of_nat n <= i)%Z -> (x <= pivot)%Z) ->
    (forall n x, arr !! n = Some x ->
                 (i < Z.of_nat n < j)%Z -> (pivot < x)%Z) ->
    exists arr' i',
      fold_left (partition_step pivot) (range_from j k) (Ok (arr, i))
        = Ok (arr', i') /\
      (low - 1 <= i' < high)%Z /\
      seg_perm low (high - 1) arr arr' /\
      (forall n x, arr' !! n = Some x ->
                   (low <= Z.of_nat n <= i')%Z -> (x <= pivot)%Z) /\
      (forall n x, arr' !! n = Some x ->
                   (i' < Z.of_nat n < high)%Z -> (pivot < x)%Z).
Proof.
  induction k as [|k IH]; intros arr i j H0 Hlj Hjk Hlen Hi Hle Hgt.
  - exists arr, i. cbn [range_from fold_left].
    split; [done|]. split; [lia|]. split; [apply seg_perm_refl|].
    split; [done|]. intros n x Hx Hn. apply (Hgt n x Hx). lia.
  - cbn [range_from fold_left].
    destruct (partition_step_ok pivot arr i j) as (aj & Haj & ->); [lia..|].
    remember (Z.to_nat j) as J eqn:EJ.
    destruct (aj <=? pivot)%Z eqn:E;
      [apply Z.leb_le in E|apply Z.leb_gt in E].
    + remember (Z.to_nat (i + 1)) as I eqn:EI.
      destruct (lookup_lt_is_Some_2 arr I) as [ai Hai]; [lia|].
      destruct (IH (swap arr I J) (i + 1)%Z (j + 1)%Z)
        as (arr' & i' & F & Hi' & SP & Hle' & Hgt'); try lia.
      * rewrite swap_length. lia.
      * intros n x. rewrite (swap_lookup arr I J n ai aj) by done.
        repeat case_decide; intros Hx Hn.
        -- assert (I = J) as HIJ by lia. rewrite HIJ, Haj in Hai.
           injection Hai as <-. injection Hx as <-. lia.
        -- injection Hx as <-. lia.
        -- apply (Hle n x Hx). lia.
      * intros n x. rewrite (swap_lookup arr I J n ai aj) by done.
        repeat case_decide; intros Hx Hn.
        -- injection Hx as <-. apply (Hgt I ai Hai). lia.
        -- lia.
        -- apply (Hgt n x Hx). lia.
      * exists arr', i'. split; [done|]. split; [lia|]. split; [|done].
        eapply seg_perm_trans; [|exact SP].
        apply seg_perm_swap; unfold inside; lia.
    + destruct (IH arr i (j + 1)%Z)
        as (arr' & i' & F & Hi' & SP & Hle' & Hgt'); try done; try lia.
      * intros n x Hx Hn. destruct (decide (n = J)) as [->|Hne].
        -- rewrite Haj in Hx. injection Hx as <-. lia.
        -- apply (Hgt n x Hx). lia.
      * by exists arr', i'.
Qed.

Lemma partition_spec (arr : list Z) (low high : Z) :
  (0 <= low <= high)%Z -> (high < Z.of_nat (length arr))%Z ->
  exists arr' pi pivot,
    _partition arr low high = Ok (arr', pi) /\
    (low <= pi <= high)%Z /\
    seg_perm low high arr arr' /\
    arr !! Z.to_nat high = Some pivot /\
    arr' !! Z.to_nat pi = Some pivot /\
    (forall n x, arr' !! n = Some x ->
                 (low <= Z.of_nat n < pi)%Z -> (x <= pivot)%Z) /\
    (forall n x, arr' !! n = Some x ->
                 (pi < Z.of_nat n <= high)%Z -> (pivot < x)%Z).
Proof.
  intros Hl Hh.
  destruct (getitem_in_range arr high) as (pivot & Hp & G); [lia|].
  unfold _partition, range. rewrite G.
  destruct (partition_loop_spec pivot low high (Z.to_nat (high - low))
              arr (low - 1)%Z low)
    as (arr1 & i1 & F & Hi1 & SP & Hle & Hgt); try lia.
  rewrite F. pose proof SP as (L1 & P1 & O1 & I1).
  rewrite swap_items_in_range by lia.
  remember (Z.to_nat (i1 + 1)) as I eqn:EI.
  remember (Z.to_nat high) as J eqn:EJ.
  assert (arr1 !! J = Some pivot) as HJ.
  { rewrite O1; [done|]. unfold inside. lia. }
  destruct (lookup_lt_is_Some_2 arr1 I) as [ai Hai]; [lia|].
  exists (swap arr1 I J), (i1 + 1)%Z, pivot.
  split; [done|]. split; [lia|]. split.
  { eapply seg_perm_trans.
    - apply (seg_perm_widen low (high - 1)); [lia|lia|exact SP].
    - apply seg_perm_swap; unfold inside; lia. }
  split; [done|]. split.
  { rewrite <- EI. rewrite (swap_lookup arr1 I J I ai pivot) by done.
    case_decide as HIJ; [rewrite <- HIJ in HJ; congruence|].
    by rewrite decide_True. }
  split.
  - intros n x. rewrite (swap_lookup arr1 I J n ai pivot) by done.
    repeat case_decide; intros Hx Hn; [lia|lia|].
    apply (Hle n x Hx). lia.
  - intros n x. rewrite (swap_lookup arr1 I J n ai pivot) by done.
    repeat case_decide; intros Hx Hn.
    + injection Hx as <-. apply (Hgt I ai Hai). lia.
    + lia.
    + apply (Hgt n x Hx). lia.
Qed.

Lemma ordered_but_pop (L H lo hi : Z) (st : list (Z * Z)) (arr : list Z) :
  ~ (lo < hi)%Z ->
  ordered_but L H ((lo, hi) :: st) arr -> ordered_but L H st arr.
Proof.
  intros Hn O n m x y Hnm Hin Him Hx Hy.
  destruct (O n m x y Hnm Hin Him Hx Hy)
    as [(lo' & hi' & Hel & H1 & H2)|Hle]; [|by right].
  apply elem_of_cons in Hel as [Heq|Hel].
  - injection Heq as -> ->. unfold inside in *. lia.
  - left. by exists lo', hi'.
Qed.

(** After [_partition] on the range on top of the stack, with the two
    ranges beside the pivot put on the stack in its place, two positions
    are still in order unless one range holds both. *)
Lemma ordered_but_partition (L H lo hi pi pivot : Z)
      (st stack' : list (Z * Z)) (arr arr' : list Z) :
  (L <= lo)%Z -> (hi <= H)%Z -> (lo <= pi <= hi)%Z ->
  (forall lo' hi' n, (lo', hi') ∈ st -> inside lo hi n -> ~ inside lo' hi' n) ->
  ordered_but L H ((lo, hi) :: st) arr ->
  seg_perm lo hi arr arr' ->
  arr' !! Z.to_nat pi = Some pivot ->
  (forall n x, arr' !! n = Some x ->
               (lo <= Z.of_nat n < pi)%Z -> (x <= pivot)%Z) ->
  (forall n x, arr' !! n = Some x ->
               (pi < Z.of_nat n <= hi)%Z -> (pivot < x)%Z) ->
  (forall s, s ∈ st -> s ∈ stack') ->
  (lo, pi - 1)%Z ∈ stack' -> (pi + 1, hi)%Z ∈ stack' ->
  ordered_but L H stack' arr'.
Proof.
  intros HL HH Hpi Hdis O (L1 & P1 & O1 & I1) Hpv Hle Hgt Hst Hs1 Hs2.
  intros n m x y Hnm Hin Him Hx Hy. unfold ordered_but, inside in *.
  destruct (decide (lo <= Z.of_nat n <= hi)%Z) as [Nin|Nout];
    destruct (decide (lo <= Z.of_nat m <= hi)%Z) as [Min|Mout].
  - destruct (decide (Z.of_nat m < pi)%Z) as [Hm|Hm].
    { left. exists lo, (pi - 1)%Z. split; [done|]. lia. }
    destruct (decide (pi < Z.of_nat n)%Z) as [Hn|Hn].
    { left. exists (pi + 1)%Z, hi. split; [done|]. lia. }
    right.
    assert (x <= pivot)%Z as Hxp.
    { destruct (decide (Z.of_nat n = pi)) as [En|En].
      - assert (n = Z.to_nat pi) as -> by lia.
        rewrite Hpv in Hx. injection Hx as <-. lia.
      - apply (Hle n x Hx). lia. }
    assert (pivot <= y)%Z as Hpy.
    { destruct (decide (Z.of_nat m = pi)) as [Em|Em].
      - assert (m = Z.to_nat pi) as -> by lia.
        rewrite Hpv in Hy. injection Hy as <-. lia.
      - pose proof (Hgt m y Hy). lia. }
    lia.
  - destruct (I1 n x Nin Hx) as (n' & Nin' & Hx').
    rewrite O1 in Hy by done.
    destruct (O n' m x y) as [(lo' & hi' & Hel & H1 & H2)|Hxy];
      [lia|lia|lia|done|done| |by right].
    apply elem_of_cons in Hel as [Heq|Hel].
    + injection Heq as -> ->. done.
    + exfalso. by apply (Hdis lo' hi' n' Hel Nin').
  - destruct (I1 m y Min Hy) as (m' & Min' & Hy').
    rewrite O1 in Hx by done.
    destruct (O n m' x y) as [(lo' & hi' & Hel & H1 & H2)|Hxy];
      [lia|lia|lia|done|done| |by right].
    apply elem_of_cons in Hel as [Heq|Hel].
    + injection Heq as -> ->. done.
    + exfalso. by apply (Hdis lo' hi' m' Hel Min').
  - rewrite O1 in Hx by done. rewrite O1 in Hy by done.
    destruct (O n m x y) as [(lo' & hi' & Hel & H1 & H2)|Hxy];
      [lia|lia|lia|done|done| |by right].
    apply elem_of_cons in Hel as [Heq|Hel].
    + injection Heq as -> ->. done.
    + left. exists lo', hi'. split; [by apply Hst|done].
Qed.

Lemma disjoint_stack_partition (lo hi pi : Z) (st : list (Z * Z)) :
  (lo <= pi <= hi)%Z ->
  disjoint_stack ((lo, hi) :: st) ->
  disjoint_stack ((lo, pi - 1) :: (pi + 1, hi) :: st)%Z /\
  disjoint_stack ((pi + 1, hi) :: (lo, pi - 1) :: st)%Z.
Proof.
  intros Hpi [Hd Hst]. cbn [disjoint_stack]. unfold inside in *.
  split; (split; [|split; [|done]]).
  - intros lo' hi' n Hel Hin. apply elem_of_cons in Hel as [Heq|Hel].
    + injection Heq as -> ->. lia.
    + apply (Hd lo' hi' n Hel). lia.
  - intros lo' hi' n Hel Hin. apply (Hd lo' hi' n Hel). lia.
  - intros lo' hi' n Hel Hin. apply elem_of_cons in Hel as [Heq|Hel].
    + injection Heq as -> ->. lia.
    + apply (Hd lo' hi' n Hel). lia.
  - intros lo' hi' n Hel Hin. apply (Hd lo' hi' n Hel). lia.
Qed.

(** Whenever the loop of [quicksort] ends, it ends with a list, and
    with every two positions of the range in order. *)
Lemma quicksort_loop_spec (arr0 : list Z) (L H : Z) :
  (0 <= L)%Z -> (H < Z.of_nat (length arr0))%Z ->
  forall fuel arr stack r,
    quicksort_inv arr0 L H arr stack ->
    quicksort_loop fuel arr stack = Some r ->
    exists out, r = Ok out /\ quicksort_inv arr0 L H out [].
Proof.
  intros H0 HH fuel. induction fuel as [|fuel IH]; intros arr stack r Inv E.
  - destruct stack as [|[lo hi] st]; [|done].
    cbn in E. injection E as <-. by exists arr.
  - destruct stack as [|[lo hi] st].
    { cbn in E. injection E as <-. by exists arr. }
    cbn [quicksort_loop] in E.
    destruct Inv as (SP & Hb & Hd & Ho).
    destruct (Hb lo hi) as [HLlo HhiH]; [apply list_elem_of_here|].
    destruct (lo <? hi)%Z eqn:Elh;
      [apply Z.ltb_lt in Elh|apply Z.ltb_ge in Elh].
    + destruct (partition_spec arr lo hi)
        as (arr' & pi & pivot & EP & Hpi & SP' & _ & Hpv & Hle & Hgt);
        [lia|rewrite (proj1 SP); lia|].
      rewrite EP in E.
      destruct (disjoint_stack_partition lo hi pi st Hpi Hd) as [D1 D2].
      assert (seg_perm L H arr0 arr') as SP2.
      { eapply seg_perm_trans; [exact SP|].
        apply (seg_perm_widen lo hi); [lia|lia|exact SP']. }
      destruct Hd as [Hd1 Hd2].
      destruct (pi - lo <? hi - pi)%Z; eapply IH; try exact E.
      * split; [done|]. split; [|split; [done|]].
        -- intros lo' hi' Hel. rewrite !elem_of_cons in Hel.
           destruct Hel as [Heq|[Heq|Hel]];
             [injection Heq as -> ->; lia..|].
           by apply Hb, list_elem_of_further.
        -- apply (ordered_but_partition L H lo hi pi pivot st _ arr arr');
             try done.
           ++ intros s Hs. by do 2 apply list_elem_of_further.
           ++ apply list_elem_of_here.
           ++ apply list_elem_of_further, list_elem_of_here.
      * split; [done|]. split; [|split; [done|]].
        -- intros lo' hi' Hel. rewrite !elem_of_cons in Hel.
           destruct Hel as [Heq|[Heq|Hel]];
             [injection Heq as -> ->; lia..|].
           by apply Hb, list_elem_of_further.
        -- apply (ordered_but_partition L H lo hi pi pivot st _ arr arr');
             try done.
           ++ intros s Hs. by do 2 apply list_elem_of_further.
           ++ apply list_elem_of_further, list_elem_of_here.
           ++ apply list_elem_of_here.
    + eapply IH; [|exact E]. split; [done|]. split; [|split].
      * intros lo' hi' Hel. by apply Hb, list_elem_of_further.
      * apply Hd.
      * eapply ordered_but_pop; [|exact Ho]. lia.
Qed.

Lemma partition_loop_Raise (pivot : Z) (js : list Z) (e : exn) :
  fold_left (partition_step pivot) js (Raise e) = Raise e.
Proof. induction js as [|j js IH]; [done|]. exact IH. Qed.

Lemma partition_loop_index (pivot : Z) (k : nat) :
  forall (arr : list Z) (i j : Z) (arr' : list Z) (i' : Z),
    fold_left (partition_step pivot) (range_from j k) (Ok (arr, i))
      = Ok (arr', i') ->
    (i <= i' <= i + Z.of_nat k)%Z.
Proof.
  induction k as [|k IH]; intros arr i j arr' i' E.
  - cbn in E. injection E as <- <-. lia.
  - cbn [range_from fold_left] in E.
    destruct (partition_step pivot (Ok (arr, i)) j) as [[arr1 i1]|e] eqn:E1.
    + apply IH in E.
      assert (i <= i1 <= i + 1)%Z; [|lia].
      unfold partition_step in E1.
      destruct (getitem arr j) as [aj|]; [|done].
      destruct (aj <=? pivot)%Z.
      * cbv zeta in E1. destruct (swap_items arr (i + 1) j); [|done].
        injection E1 as <- <-. lia.
      * injection E1 as <- <-. lia.
    + by rewrite partition_loop_Raise in E.
Qed.

(** Whatever the list and the bounds, the index [_partition] returns
    lies in [low..high]. *)
Lemma partition_pi_range (arr : list Z) (low high : Z) (arr' : list Z) (pi : Z) :
  (low <= high)%Z ->
  _partition arr low high = Ok (arr', pi) -> (low <= pi <= high)%Z.
Proof.
  intros Hlh E. unfold _partition, range in E.
  destruct (getitem arr high) as [pivot|]; [|done].
  destruct (fold_left _ _ _) as [[arr1 i1]|] eqn:F; [|done].
  apply partition_loop_index in F.
  destruct (swap_items arr1 (i1 + 1) high); [|done].
  injection E as <- <-. lia.
Qed.

Lemma rounds_cons (lo hi : Z) (st : list (Z * Z)) :
  rounds ((lo, hi) :: st) = 2 * Z.to_nat (hi - lo + 1) + 1 + rounds st.
Proof. done. Qed.

(** The loop of [quicksort] ends: [rounds stack] rounds empty the
    stack (or meet an exception). *)
Lemma quicksort_loop_total (fuel : nat) :
  forall (arr : list Z) (stack : list (Z * Z)),
    rounds stack <= fuel -> quicksort_loop fuel arr stack <> None.
Proof.
  induction fuel as [|fuel IH]; intros arr stack Hr.
  - destruct stack as [|[lo hi] st]; [done|]. rewrite rounds_cons in Hr. lia.
  - destruct stack as [|[lo hi] st]; [done|].
    rewrite rounds_cons in Hr. cbn [quicksort_loop].
    destruct (lo <? hi)%Z eqn:Elh;
      [apply Z.ltb_lt in Elh|apply Z.ltb_ge in Elh].
    + destruct (_partition arr lo hi) as [[arr' pi]|e] eqn:EP; [|done].
      apply partition_pi_range in EP; [|lia].
      destruct (pi - lo <? hi - pi)%Z; apply IH; rewrite !rounds_cons; lia.
    + apply IH. lia.
Qed.

Lemma quicksort_inv_init (arr : list Z) (L H : Z) :
  quicksort_inv arr L H arr [(L, H)].
Proof.
  split; [apply seg_perm_refl|]. split; [|split].
  - intros lo hi Hel. apply list_elem_of_singleton in Hel.
    injection Hel as -> ->. lia.
  - split; [|done]. intros lo' hi' n Hel. by apply elem_of_nil in Hel.
  - intros n m x y Hnm Hn Hm Hx Hy. left. exists L, H.
    split; [apply list_elem_of_here|done].
Qed.

Lemma sorted_by_index (l : list Z) :
  (forall n m x y, n < m -> l !! n = Some x -> l !! m = Some y -> (x <= y)%Z) ->
  StronglySorted Z.le l.
Proof.
  induction l as [|a l IH]; intros H; constructor.
  - apply IH. intros n m x y Hnm Hx Hy. by apply (H (S n) (S m) x y); [lia|..].
  - apply Forall_forall. intros y Hy.
    apply list_elem_of_lookup in Hy as [m Hm].
    by apply (H 0 (S m) a y); [lia|..].
Qed.

(** [quicksort] on a range inside the list. *)
Lemma quicksort_range_spec (arr : list Z) (low hi : Z) (high : option Z) :
  hi = match high with
       | Some h => h
       | None => (Z.of_nat (length arr) - 1)%Z
       end ->
  (0 <= low)%Z -> (hi < Z.of_nat (length arr))%Z ->
  exists out,
    quicksort arr low high = Some (Ok out) /\
    seg_perm low hi arr out /\
    (forall n m x y, n < m -> inside low hi n -> inside low hi m ->
                     out !! n = Some x -> out !! m = Some y -> (x <= y)%Z).
Proof.
  intros -> H0 Hh. unfold quicksort. cbv zeta.
  set (hi := match high with Some h => h | None => _ end) in *.
  destruct (quicksort_loop (2 * Z.to_nat (hi - low + 1) + 1) arr [(low, hi)])
    as [r|] eqn:E.
  - destruct (quicksort_loop_spec arr low hi H0 Hh _ _ _ r
                (quicksort_inv_init arr low hi) E)
      as (out & -> & SP & _ & _ & Ho).
    exists out. split; [done|]. split; [done|].
    intros n m x y Hnm Hn Hm Hx Hy.
    destruct (Ho n m x y Hnm Hn Hm Hx Hy) as [(lo' & hi' & Hel & _)|Hxy];
      [|done].
    by apply elem_of_nil in Hel.
  - exfalso. revert E. apply quicksort_loop_total.
    rewrite rounds_cons. cbn. lia.
Qed.

Lemma heapsort_Z_spec (l : list Z) (b : bool) :
  fst (heapsort id l b) ≡ₚ l /\ StronglySorted Z.le (fst (heapsort id l b)).
Proof.
  destruct (heapsort_drain id l b) as (out & _ & E & Hp & Hs).
  rewrite E. split.
  - rewrite <- Hp. symmetry. apply Permutation_rev.
  - apply StronglySorted_rev in Hs.
    eapply StronglySorted_weaken; [|exact Hs].
    intros a c D. cbv beta in D. unfold dominates, id in D. lia.
Qed.

Lemma merge_sort_spec (l : list Z) :
  merge_sort l ≡ₚ l /\ StronglySorted Z.le (merge_sort l).
Proof. by apply (merge_sort_rec_spec (length l) l). Qed.

Lemma quicksort_spec (arr : list Z) :
  exists out,
    quicksort arr 0 None = Some (Ok out) /\
    out ≡ₚ arr /\ StronglySorted Z.le out.
Proof.
  destruct (quicksort_range_spec arr 0 (Z.of_nat (length arr) - 1) None)
    as (out & E & (L1 & P1 & _) & Hs); [done|lia|lia|].
  exists out. split; [done|]. split; [done|].
  apply sorted_by_index. intros n m x y Hnm Hx Hy.
  pose proof (lookup_lt_Some _ _ _ Hx). pose proof (lookup_lt_Some _ _ _ Hy).
  apply (Hs n m x y Hnm); unfold inside; try done; lia.
Qed.

(** X23. [_partition] on a range [low..high] inside the list returns an
    index [pi] of that range and leaves the pivot (the item that was at
    [high]) there, every item up to the pivot before it and every
    greater item behind it; it only rearranges the items of the range
    among themselves. *)
Theorem X23_partition (arr : list Z) (low high : Z) :
  (0 <= low <= high)%Z -> (high < Z.of_nat (length arr))%Z ->
  exists arr' pi pivot,
    _partition arr low high = Ok (arr', pi) /\
    (low <= pi <= high)%Z /\
    seg_perm low high arr arr' /\
    arr !! Z.to_nat high = Some pivot /\
    arr' !! Z.to_nat pi = Some pivot /\
    (forall n x, arr' !! n = Some x ->
                 (low <= Z.of_nat n < pi)%Z -> (x <= pivot)%Z) /\
    (forall n x, arr' !! n = Some x ->
                 (pi < Z.of_nat n <= high)%Z -> (pivot < x)%Z).
Proof. apply partition_spec. Qed.

Lemma X23_partition_witness :
  exists arr' pi pivot,
    _partition [7; 3; 9; 1; 5; 8]%Z 1 4 = Ok (arr', pi) /\
    (1 <= pi <= 4)%Z /\
    seg_perm 1 4 [7; 3; 9; 1; 5; 8]%Z arr' /\
    [7; 3; 9; 1; 5; 8]%Z !! Z.to_nat 4 = Some pivot /\
    arr' !! Z.to_nat pi = Some pivot /\
    (forall n x, arr' !! n = Some x ->
                 (1 <= Z.of_nat n < pi)%Z -> (x <= pivot)%Z) /\
    (forall n x, arr' !! n = Some x ->
                 (pi < Z.of_nat n <= 4)%Z -> (pivot < x)%Z).
Proof. apply (X23_partition [7; 3; 9; 1; 5; 8]%Z 1 4); cbn; lia. Defined.

(** X24. [quicksort(arr, low, high)] on a range inside the list
    ([0 <= low], and [high < len(arr)], [high] being [len(arr) - 1] when
    it is not given) returns a list: the items at [low..high] put in
    non-decreasing order, every other item where it was. *)
Theorem X24_quicksort_range (arr : list Z) (low : Z) (high : option Z) :
  let hi := match high with
            | Some h => h
            | None => (Z.of_nat (length arr) - 1)%Z
            end in
  (0 <= low)%Z -> (hi < Z.of_nat (length arr))%Z ->
  exists out,
    quicksort arr low high = Some (Ok out) /\
    length out = length arr /\
    out ≡ₚ arr /\
    (forall n, ~ inside low hi n -> out !! n = arr !! n) /\
    (forall n x, inside low hi n -> out !! n = Some x ->
                 exists m, inside low hi m /\ arr !! m = Some x) /\
    (forall n m x y, n < m -> inside low hi n -> inside low hi m ->
                     out !! n = Some x -> out !! m = Some y -> (x <= y)%Z).
Proof.
  cbv zeta. intros H0 Hh.
  destruct (quicksort_range_spec arr low _ high eq_refl H0 Hh)
    as (out & E & (L1 & P1 & O1 & I1) & Hs).
  by exists out.
Qed.

Lemma X24_quicksort_range_witness :
  exists out,
    quicksort [7; 3; 9; 1; 5; 8]%Z 1 (Some 4%Z) = Some (Ok out) /\
    out = [7; 1; 3; 5; 9; 8]%Z.
Proof.
  destruct (X24_quicksort_range [7; 3; 9; 1; 5; 8]%Z 1 (Some 4%Z))
    as (out & E & _); [lia|cbn; lia|].
  exists out. split; [exact E|].
  vm_compute in E. by injection E as <-.
Defined.

(** X25. [quicksort(arr)] sorts: it returns a permutation of [arr] in
    non-decreasing order, the very list [merge_sort] and [heapsort]
    return. *)
Theorem X25_quicksort_sorts (arr : list Z) (inplace : bool) :
  exists out,
    quicksort arr 0 None = Some (Ok out) /\
    out ≡ₚ arr /\
    StronglySorted Z.le out /\
    out = merge_sort arr /\
    out = fst (heapsort id arr inplace) /\
    quicksort out 0 None = Some (Ok out).
Proof.
  destruct (quicksort_spec arr) as (out & E & P & S).
  destruct (merge_sort_spec arr) as [Pm Sm].
  destruct (heapsort_Z_spec arr inplace) as [Ph Sh].
  exists out. split; [done|]. split; [done|]. split; [done|].
  split; [|split].
  - apply sorted_Z_unique; try done. by rewrite P, Pm.
  - apply sorted_Z_unique; try done. by rewrite P, Ph.
  - destruct (quicksort_spec out) as (out' & E' & P' & S').
    rewrite E'. do 2 f_equal. by apply sorted_Z_unique.
Qed.

(** X26. The loop of [quicksort] always ends, whatever the list and the
    bounds: the call returns a list or raises.  When the range holds at
    most one index the list comes back as it is; when [high] lies
    beyond the end of the list (and above [low]) the call raises
    [IndexError]. *)
Theorem X26_quicksort_ends (arr : list Z) (low : Z) (high : option Z) :
  let hi := match high with
            | Some h => h
            | None => (Z.of_nat (length arr) - 1)%Z
            end in
  quicksort arr low high <> None /\
  ((hi <= low)%Z -> quicksort arr low high = Some (Ok arr)) /\
  ((low < hi)%Z -> (Z.of_nat (length arr) <= hi)%Z ->
   quicksort arr low high = Some (Raise IndexError)).
Proof.
  cbv zeta. unfold quicksort. cbv zeta.
  set (hi := match high with Some h => h | None => _ end).
  split; [|split].
  - apply quicksort_loop_total. rewrite rounds_cons. cbn. lia.
  - intros Hle. rewrite Nat.add_1_r. cbn [quicksort_loop].
    destruct (low <? hi)%Z eqn:E; [apply Z.ltb_lt in E; lia|].
    by destruct (2 * Z.to_nat (hi - low + 1)).
  - intros Hlt Hlen. rewrite Nat.add_1_r. cbn [quicksort_loop].
    destruct (low <? hi)%Z eqn:E; [|apply Z.ltb_ge in E; lia].
    unfold _partition, getitem, subscript. cbv zeta.
    destruct (0 <=? hi)%Z eqn:E1; [|apply Z.leb_gt in E1; lia].
    destruct (hi <? Z.of_nat (length arr))%Z eqn:E2;
      [apply Z.ltb_lt in E2; lia|].
    destruct (hi <? 0)%Z eqn:E3; [apply Z.ltb_lt in E3; lia|].
    rewrite !andb_false_r. done.
Qed.

Lemma X26_quicksort_ends_witness :
  quicksort [2; 1]%Z 1 (Some 1%Z) = Some (Ok [2; 1]%Z) /\
  quicksort [2; 1]%Z 0 (Some 2%Z) = Some (Raise IndexError).
Proof.
  split.
  - apply (X26_quicksort_ends [2; 1]%Z 1 (Some 1%Z)). lia.
  - apply (X26_quicksort_ends [2; 1]%Z 0 (Some 2%Z)); cbn; lia.
Defined.

(** ** The generated inputs of the comparison *)

Lemma seq_sorted (a k : nat) : StronglySorted Z.lt (map Z.of_nat (seq a k)).
Proof.
  revert a. induction k as [|k IH]; intros a; cbn [seq map]; constructor.
  - apply IH.
  - apply List.Forall_map, List.Forall_forall. intros y Hy.
    apply in_seq in Hy. lia.
Qed.

Lemma sorts_to (l t : list Z) (inplace : bool) :
  StronglySorted Z.le t -> t ≡ₚ l ->
  merge_sort l = t /\
  fst (heapsort id l inplace) = t /\
  quicksort l 0 None = Some (Ok t).
Proof.
  intros St Pt.
  destruct (merge_sort_spec l) as [Pm Sm].
  destruct (heapsort_Z_spec l inplace) as [Ph Sh].
  destruct (quicksort_spec l) as (out & E & Pq & Sq).
  split; [|split].
  - apply sorted_Z_unique; try done. by rewrite Pm, Pt.
  - apply sorted_Z_unique; try done. by rewrite Ph, Pt.
  - rewrite E. do 2 f_equal. apply sorted_Z_unique; try done. by rewrite Pq, Pt.
Qed.

(** X27. The inputs the comparison generates: [generate_sorted_array(n)]
    has [n] items in strictly increasing order, and the three sorting
    functions return it unchanged; [generate_reverse_sorted_array(n)]
    has [n] items in strictly decreasing order, and the three sorting
    functions return it reversed, which is [1, ..., n]. *)
Theorem X27_generated_arrays (n : Z) (inplace : bool) :
  let up := generate_sorted_array n in
  let down := generate_reverse_sorted_array n in
  (length up = Z.to_nat n /\ length down = Z.to_nat n) /\
  (StronglySorted Z.lt up /\ StronglySorted (fun a b => (b < a)%Z) down) /\
  (merge_sort up = up /\
   fst (heapsort id up inplace) = up /\
   quicksort up 0 None = Some (Ok up)) /\
  (merge_sort down = rev down /\
   fst (heapsort id down inplace) = rev down /\
   quicksort down 0 None = Some (Ok (rev down))) /\
  rev down = map Z.of_nat (seq 1 (Z.to_nat n)).
Proof.
  cbv zeta. unfold generate_sorted_array, generate_reverse_sorted_array.
  set (k := Z.to_nat n).
  assert (map Z.of_nat (rev (seq 1 k)) = rev (map Z.of_nat (seq 1 k))) as Er
    by apply List.map_rev.
  assert (forall a, StronglySorted Z.le (map Z.of_nat (seq a k))) as Sle.
  { intros a. eapply StronglySorted_weaken; [|apply seq_sorted].
    intros x y. lia. }
  split; [|split; [|split; [|split]]].
  - by rewrite !length_map, length_rev, !length_seq.
  - split; [apply seq_sorted|].
    rewrite Er. apply StronglySorted_rev, seq_sorted.
  - by apply sorts_to.
  - rewrite Er, rev_involutive. apply sorts_to; [apply Sle|].
    apply Permutation_rev.
  - by rewrite Er, rev_involutive.
Qed.

(** ** Deadlines: the scheduler and [Task.is_overdue] *)

Lemma SFcompare_antisym (x y : spec_float) :
  SFcompare y x = option_map CompOpp (SFcompare x y).
Proof.
  destruct x as [s1|s1| |s1 m1 e1], y as [s2|s2| |s2 m2 e2];
    try done; try (by destruct s1); try (by destruct s2);
    try (by destruct s1, s2).
  cbn [SFcompare option_map]. f_equal.
  rewrite (Z.compare_antisym e1 e2).
  assert (Pos.compare_cont Eq m2 m1 = CompOpp (Pos.compare_cont Eq m1 m2))
    as -> by (symmetry; apply (Pos.compare_cont_antisym m1 m2 Eq)).
  destruct s1, s2; try done; destruct (e1 ?= e2)%Z; try done.
Qed.

(** On binary64 numbers [c <= d] is the negation of [d < c], except
    when one of them is not a number. *)
Lemma float_leb_ltb (c d : float) :
  PrimFloat.leb c d =
    negb (PrimFloat.ltb d c)
    && (negb (PrimFloat.is_nan d) && negb (PrimFloat.is_nan c)).
Proof.
  unfold PrimFloat.is_nan.
  rewrite FloatAxioms.leb_spec, FloatAxioms.ltb_spec, !FloatAxioms.eqb_spec.
  rewrite !SFeqb_refl.
  unfold SFleb, SFltb. rewrite (SFcompare_antisym (Prim2SF c) (Prim2SF d)).
  destruct (Prim2SF c) as [s1|s1| |s1 m1 e1], (Prim2SF d) as [s2|s2| |s2 m2 e2];
    try done; cbn [SFcompare option_map];
    try (by destruct s1); try (by destruct s2); try (by destruct s1, s2).
  destruct s1, s2; try done; destruct (e1 ?= e2)%Z; try done;
    by destruct (Pos.compare_cont Eq m1 m2).
Qed.

Lemma timeline_deadlines (clock : float) (order : list Task)
      (rs : list SchedulingResult) (clock' : float) :
  timeline clock order rs clock' ->
  Forall2 (fun t r =>
             Result.task_id r = task_id t /\
             Result.deadline_met r =
               negb (TaskM.is_overdue t (Result.completion_time r))
               && match deadline t with
                  | None => true
                  | Some d =>
                      negb (PrimFloat.is_nan d)
                      && negb (PrimFloat.is_nan (Result.completion_time r))
                  end)
          order rs.
Proof.
  induction 1 as [clock|clock t ts r rs c1 H1 H2 H3 H4 H5 _ IH];
    constructor; [|done].
  split; [done|]. rewrite H5. unfold TaskM.is_overdue.
  destruct (deadline t) as [d|]; [|done]. apply float_leb_ltb.
Qed.

(** X28. The scheduler's [deadline_met] and [Task.is_overdue] tell the
    same story: a result says [deadline_met] exactly when its task is
    not overdue at the completion time, provided (for a task with a
    deadline) that the deadline and the completion time are numbers;
    when one of them is NaN the result says "missed" although the task
    is not overdue. *)
Theorem X28_deadline_met_is_not_overdue (self : TaskScheduler) (tasks : list Task) :
  exists order results self',
    schedule_tasks self tasks = Some (Ok results, self') /\
    order ≡ₚ tasks /\
    Forall2 (fun t r =>
               Result.task_id r = task_id t /\
               Result.deadline_met r =
                 negb (TaskM.is_overdue t (Result.completion_time r))
                 && match deadline t with
                    | None => true
                    | Some d =>
                        negb (PrimFloat.is_nan d)
                        && negb (PrimFloat.is_nan (Result.completion_time r))
                    end)
            order results.
Proof.
  destruct (schedule_tasks_order self tasks)
    as (order & results & clock & Hs & Hp & _ & Ht).
  exists order, results, (mkScheduler [] clock).
  split; [done|]. split; [done|]. by apply (timeline_deadlines 0%float _ _ clock).
Qed.
